(** * Shallow embedding of gcc-sinq.c (float128 sine precision test)

    The program compares four native sine implementations with an MPFR
    reference and keeps Welford running statistics of the relative error
    in 512-bit MPFR numbers.  This file embeds the statistics cell
    ([stats_init], [stats_add], [stats_print]), the three random input
    distributions, the four evaluators and the main loop.

    MPFR and the IEEE formats are modelled by their documented semantics:
    an MPFR number is NaN, a signed infinity, a signed zero or
    [+-m * 2^e]; every operation computes the exact result and rounds it
    once, to nearest with ties to even, at the destination precision, in
    MPFR's default exponent range [emin, emax] (no subnormals; results
    that underflow round to 0 or to the least positive number, results
    that overflow round to an infinity). *)

From Stdlib Require Import ZArith QArith Qround Qpower Qabs Lia Bool List String Ascii.
From Stdlib Require Import Psatz Reals Machin Qreals.
Import ListNotations.
Open Scope Z_scope.

(** ** Exact binary arithmetic on [Q] *)

Definition pow2 (k : Z) : Q := Qpower (2 # 1) k.

(** Nearest integer, ties to even. *)
Definition rne (y : Q) : Z :=
  let f := Qfloor y in
  match Qcompare (y - inject_Z f) (1 # 2) with
  | Lt => f
  | Gt => f + 1
  | Eq => if Z.even f then f else f + 1
  end.

(** [mag x = E] with [2^(E-1) <= x < 2^E], for [x > 0]. *)
Definition mag (x : Q) : Z :=
  let d := Z.log2 (Qnum x) - Z.log2 (Zpos (Qden x)) in
  if Qle_bool (pow2 d) x then d + 1 else d.

Definition Qltb (x y : Q) : bool := negb (Qle_bool y x).

(** Comparisons of [x > 0] with [2^j] through [mag], so that a far power
    of two is never built. *)
Definition le_pow2 (x : Q) (j : Z) : bool :=
  let E := mag x in
  if E <=? j then true else if E =? j + 1 then Qeq_bool x (pow2 j) else false.

Definition lt_pow2 (x : Q) (j : Z) : bool := mag x <=? j.

(** ** MPFR numbers *)

Inductive mpfr : Type :=
| MNaN
| MInf (neg : bool)
| MZero (neg : bool)
| MNum (neg : bool) (m : positive) (e : Z).

Definition sgnQ (neg : bool) (x : Q) : Q := if neg then - x else x.

(** Value of a finite number (zeros included). *)
Definition fval (x : mpfr) : Q :=
  match x with
  | MNum s m e => sgnQ s (inject_Z (Zpos m) * pow2 e)
  | _ => 0
  end.

Definition is_finite (x : mpfr) : bool :=
  match x with MZero _ | MNum _ _ _ => true | _ => false end.

Definition is_zero (x : mpfr) : bool :=
  match x with MZero _ => true | _ => false end.

Definition sign_of (x : mpfr) : bool :=
  match x with MInf s | MZero s | MNum s _ _ => s | MNaN => false end.

(** Canonical form: odd significand. *)
Fixpoint strip (s : bool) (m : positive) (e : Z) : mpfr :=
  match m with
  | xO m' => strip s m' (e + 1)
  | _ => MNum s m e
  end.

Definition mk_num (s : bool) (m : Z) (k : Z) : mpfr :=
  match m with
  | Zpos pm => strip s pm k
  | _ => MZero s
  end.

(** MPFR's default exponent range: [x = 0.1b... * 2^E], [emin <= E <= emax]. *)
Definition mpfr_emin : Z := 1 - 2 ^ 30.
Definition mpfr_emax : Z := 2 ^ 30 - 1.

(** Rounding of a positive exact value [x] with sign [s] to [p] bits,
    to nearest, in the exponent range. *)
Definition round_pos (p : Z) (s : bool) (x : Q) : mpfr :=
  if le_pow2 x (mpfr_emin - 2) then MZero s
  else if lt_pow2 x (mpfr_emin - 1) then MNum s 1 (mpfr_emin - 1)
  else
    let E := mag x in
    let k := E - p in
    let m := rne (x / pow2 k) in
    if (mpfr_emax <? E) || ((E =? mpfr_emax) && (m =? 2 ^ p)) then MInf s
    else mk_num s m k.

(** Rounding of an exact value; [zs] is the sign of an exact zero. *)
Definition round_q (p : Z) (q : Q) (zs : bool) : mpfr :=
  if Qeq_bool q 0 then MZero zs
  else if Qltb q 0 then round_pos p true (- q)
  else round_pos p false q.

(** ** MPFR operations used by the program (rounding mode RNDN) *)

Definition mpfr_neg (x : mpfr) : mpfr :=
  match x with
  | MNaN => MNaN
  | MInf s => MInf (negb s)
  | MZero s => MZero (negb s)
  | MNum s m e => MNum (negb s) m e
  end.

Definition mpfr_add (p : Z) (x y : mpfr) : mpfr :=
  match x, y with
  | MNaN, _ | _, MNaN => MNaN
  | MInf s, MInf s' => if Bool.eqb s s' then MInf s else MNaN
  | MInf s, _ | _, MInf s => MInf s
  | MZero s, MZero s' => MZero (s && s')
  | _, _ => round_q p (fval x + fval y) false
  end.

Definition mpfr_sub (p : Z) (x y : mpfr) : mpfr := mpfr_add p x (mpfr_neg y).

Definition mpfr_abs (p : Z) (x : mpfr) : mpfr :=
  match x with
  | MNaN => MNaN
  | MInf _ => MInf false
  | MZero _ => MZero false
  | MNum _ m e => round_q p (inject_Z (Zpos m) * pow2 e) false
  end.

Definition mpfr_div (p : Z) (x y : mpfr) : mpfr :=
  match x, y with
  | MNaN, _ | _, MNaN => MNaN
  | MInf _, MInf _ => MNaN
  | MInf s, _ => MInf (xorb s (sign_of y))
  | _, MInf s' => MZero (xorb (sign_of x) s')
  | MZero _, MZero _ => MNaN
  | MNum s _ _, MZero s' => MInf (xorb s s')
  | MZero s, MNum s' _ _ => MZero (xorb s s')
  | MNum s _ _, MNum s' _ _ => round_q p (fval x / fval y) (xorb s s')
  end.

(** [mpfr_div_ui]: division by an [unsigned long]; by 0 it divides by +0. *)
Definition mpfr_div_ui (p : Z) (x : mpfr) (u : Z) : mpfr :=
  if u =? 0 then mpfr_div p x (MZero false)
  else match x with
       | MNaN => MNaN
       | MInf s => MInf s
       | MZero s => MZero s
       | MNum s _ _ => round_q p (fval x / inject_Z u) s
       end.

(** [mpfr_fma a b c = a * b + c], rounded once. *)
Definition mpfr_fma (p : Z) (a b c : mpfr) : mpfr :=
  match a, b, c with
  | MNaN, _, _ | _, MNaN, _ | _, _, MNaN => MNaN
  | MInf _, MZero _, _ | MZero _, MInf _, _ => MNaN
  | MInf _, _, _ | _, MInf _, _ =>
      let s := xorb (sign_of a) (sign_of b) in
      match c with
      | MInf s' => if Bool.eqb s s' then MInf s else MNaN
      | _ => MInf s
      end
  | _, _, MInf s' => MInf s'
  | _, _, _ =>
      let zs := if is_zero a || is_zero b
                then andb (xorb (sign_of a) (sign_of b))
                          (is_zero c && sign_of c)
                else false in
      round_q p (fval a * fval b + fval c) zs
  end.

(** [mpfr_sqrt]: for [x > 0] the root is rounded from
    [floor (sqrt (x / 4^k))] and a comparison with the midpoint. *)
Definition rne_sqrt (y : Q) : Z :=
  let a := Qnum y in let b := Zpos (Qden y) in
  let f := Z.sqrt (a * b) / b in
  let lhs := 4 * a in let rhs := (2 * f + 1) * (2 * f + 1) * b in
  if lhs <? rhs then f
  else if rhs <? lhs then f + 1
  else if Z.even f then f else f + 1.

Definition round_sqrt (p : Z) (x : Q) : mpfr :=
  if le_pow2 x (2 * (mpfr_emin - 2)) then MZero false
  else if lt_pow2 x (2 * (mpfr_emin - 1)) then MNum false 1 (mpfr_emin - 1)
  else
    let E := (mag x + 1) / 2 in
    let k := E - p in
    let m := rne_sqrt (x / pow2 (2 * k)) in
    if (mpfr_emax <? E) || ((E =? mpfr_emax) && (m =? 2 ^ p)) then MInf false
    else mk_num false m k.

Definition mpfr_sqrt (p : Z) (x : mpfr) : mpfr :=
  match x with
  | MNaN => MNaN
  | MInf false => MInf false
  | MInf true => MNaN
  | MZero s => MZero s
  | MNum true _ _ => MNaN
  | MNum false _ _ => round_sqrt p (fval x)
  end.

(** ** The statistics cell (lines 117-191) *)

Definition MPFR_PREC : Z := 512.

(** [unsigned long] is 64 bits wide (LP64). *)
Definition ULONG_MOD : Z := 2 ^ 64.

Record stats_t : Type := mk_stats {
  distribution : string;
  generator : string;
  n : Z;
  mean : mpfr;
  m2 : mpfr
}.

(** [stats_init]: [n = 0], [mean] and [m2] set to +0 by [mpfr_set_ui]. *)
Definition stats_init (dist gen : string) : stats_t :=
  {| distribution := dist; generator := gen; n := 0;
     mean := MZero false; m2 := MZero false |}.

(** The relative difference computed at the start of [stats_add]. *)
Definition reldiff_of (y ref : mpfr) : mpfr :=
  let diff := mpfr_sub MPFR_PREC y ref in
  let reldiff := mpfr_abs MPFR_PREC ref in
  mpfr_div MPFR_PREC diff reldiff.

Definition stats_add (stats : stats_t) (y ref : mpfr) : stats_t :=
  let n' := (n stats + 1) mod ULONG_MOD in
  let reldiff := reldiff_of y ref in
  let delta := mpfr_sub MPFR_PREC reldiff (mean stats) in
  let t := mpfr_div_ui MPFR_PREC delta n' in
  let mean' := mpfr_add MPFR_PREC (mean stats) t in
  let t := mpfr_sub MPFR_PREC reldiff mean' in
  let m2' := mpfr_fma MPFR_PREC delta t (m2 stats) in
  {| distribution := distribution stats; generator := generator stats;
     n := n'; mean := mean'; m2 := m2' |}.

(** What [stats_print] prints: names, sample count, mean, variance and
    standard deviation.  [variance] and [stddev] are declared with
    [MPFR_DECL_INIT], which makes them NaN. *)
Record report : Type := mk_report {
  r_distribution : string;
  r_generator : string;
  r_n : Z;
  r_mean : mpfr;
  r_variance : mpfr;
  r_stddev : mpfr
}.

Definition stats_print (stats : stats_t) : report :=
  let '(variance, stddev) :=
    if 1 <? n stats then
      let variance := mpfr_div_ui MPFR_PREC (m2 stats) (n stats - 1) in
      (variance, mpfr_sqrt MPFR_PREC variance)
    else (MNaN, MNaN) in
  {| r_distribution := distribution stats; r_generator := generator stats;
     r_n := n stats; r_mean := mean stats;
     r_variance := variance; r_stddev := stddev |}.

Definition one : mpfr := MNum false 1 0.
Definition two : mpfr := MNum false 1 1.

(** The update of the claim, step by step as worded there, for a given
    new sample count [n']. *)
Definition welford_step (stats : stats_t) (n' : Z) (y ref : mpfr) : stats_t :=
  let diff := mpfr_sub MPFR_PREC y ref in
  let reldiff := mpfr_div MPFR_PREC diff (mpfr_abs MPFR_PREC ref) in
  let delta := mpfr_sub MPFR_PREC reldiff (mean stats) in
  let mean' := mpfr_add MPFR_PREC (mean stats) (mpfr_div_ui MPFR_PREC delta n') in
  let m2' := mpfr_fma MPFR_PREC delta (mpfr_sub MPFR_PREC reldiff mean') (m2 stats) in
  {| distribution := distribution stats; generator := generator stats;
     n := n'; mean := mean'; m2 := m2' |}.

(** A sequence of [stats_add] calls. *)
Definition stats_add_all (stats : stats_t) (l : list (mpfr * mpfr)) : stats_t :=
  fold_left (fun c yr => stats_add c (fst yr) (snd yr)) l stats.

(** The report of C3 as worded there: for [n <= 1] variance and standard
    deviation keep the values [last] of the previous computation. *)
Definition stats_print_claimed (last : mpfr * mpfr) (stats : stats_t) : mpfr * mpfr :=
  if 1 <? n stats then
    let variance := mpfr_div_ui MPFR_PREC (m2 stats) (n stats - 1) in
    (variance, mpfr_sqrt MPFR_PREC variance)
  else last.

(** A [p]-bit MPFR number in canonical form (odd significand of at most
    [p] bits, exponent in range); zeros, infinities and NaN are valid. *)
Definition valid (p : Z) (x : mpfr) : bool :=
  match x with
  | MNum _ m e =>
      Z.odd (Zpos m) && (Z.log2 (Zpos m) <? p)
      && (mpfr_emin <=? e + Z.log2 (Zpos m) + 1)
      && (e + Z.log2 (Zpos m) + 1 <=? mpfr_emax)
  | _ => true
  end.

(** ** Native IEEE formats *)

(** A native floating-point value: NaN, a signed infinity, or
    [+-M * 2^e] (a zero when [M = 0]). *)
Inductive nfloat : Type :=
| NF_NaN
| NF_Inf (neg : bool)
| NF_Fin (neg : bool) (M : Z) (e : Z).

(** A binary format: precision, least and greatest normal exponent
    (values [1.f * 2^e]), with subnormals. *)
Record fmt : Type := mk_fmt { fprec : Z; femin : Z; femax : Z }.

Definition binary32 : fmt := mk_fmt 24 (-126) 127.
Definition binary64 : fmt := mk_fmt 53 (-1022) 1023.
Definition x87_extended : fmt := mk_fmt 64 (-16382) 16383.
Definition binary128 : fmt := mk_fmt 113 (-16382) 16383.

Definition nf_val (x : nfloat) : Q :=
  match x with NF_Fin s M e => sgnQ s (inject_Z M * pow2 e) | _ => 0 end.

Definition nf_is_finite (x : nfloat) : bool :=
  match x with NF_Fin _ _ _ => true | _ => false end.

(** Round-to-nearest-even of [x > 0] in format [f]. *)
Definition fmt_round_pos (f : fmt) (s : bool) (x : Q) : nfloat :=
  let k := Z.max (mag x - fprec f) (femin f - fprec f + 1) in
  let m := rne (x / pow2 k) in
  if Qle_bool (pow2 (femax f + 1)) (inject_Z m * pow2 k) then NF_Inf s
  else NF_Fin s m k.

Definition fmt_round (f : fmt) (q : Q) (zs : bool) : nfloat :=
  if Qeq_bool q 0 then NF_Fin zs 0 0
  else if Qltb q 0 then fmt_round_pos f true (- q)
  else fmt_round_pos f false q.

Definition nf_sign (x : nfloat) : bool :=
  match x with NF_Inf s | NF_Fin s _ _ => s | NF_NaN => false end.

Definition nf_is_zero (x : nfloat) : bool :=
  match x with NF_Fin _ M _ => M =? 0 | _ => false end.

(** IEEE division in format [f]. *)
Definition nf_div (f : fmt) (a b : nfloat) : nfloat :=
  let s := xorb (nf_sign a) (nf_sign b) in
  match a, b with
  | NF_NaN, _ | _, NF_NaN => NF_NaN
  | NF_Inf _, NF_Inf _ => NF_NaN
  | NF_Inf _, _ => NF_Inf s
  | _, NF_Inf _ => NF_Fin s 0 0
  | _, _ =>
      if nf_is_zero b then (if nf_is_zero a then NF_NaN else NF_Inf s)
      else if nf_is_zero a then NF_Fin s 0 0
      else fmt_round f (nf_val a / nf_val b) s
  end.

(** Conversion of an integer to format [f] ([(float) u] in C). *)
Definition nf_of_Z (f : fmt) (u : Z) : nfloat := fmt_round f (inject_Z u) false.

(** Reading a 32-bit pattern as a [float] (the unions of lines 42, 62). *)
Definition flt_of_bits (b : Z) : nfloat :=
  let sgn := Z.testbit b 31 in
  let E := Z.land (Z.shiftr b 23) 255 in
  let M := Z.land b (2 ^ 23 - 1) in
  if E =? 255 then (if M =? 0 then NF_Inf sgn else NF_NaN)
  else if E =? 0 then NF_Fin sgn M (-149)
  else NF_Fin sgn (2 ^ 23 + M) (E - 150).

(** ** Random inputs (lines 24-75) *)

(** Hardcoded values just above pi/2 (lines 27-29). *)
Definition gt_pid2_int : Z := 1070141403.   (* 0x3fc90fdb *)
Definition gt_pid2_ls23_int : Z := 13176795.

Section Distributions.
(** GMP's Mersenne-Twister state and its two draws, as documented:
    [gmp_urandomm_ui s n] is in [0, n), [gmp_urandomb_ui s k] in [0, 2^k). *)
Variable randstate : Type.
Variable gmp_urandomm_ui : randstate -> Z -> Z * randstate.
Variable gmp_urandomb_ui : randstate -> Z -> Z * randstate.

(** [x.ui] is a [uint32_t]: the [unsigned long] draw is reduced mod 2^32. *)
Definition getrandom_1 (state : randstate) : nfloat * randstate :=
  let '(u, state') := gmp_urandomm_ui state gt_pid2_int in
  (flt_of_bits (u mod 2 ^ 32), state').

Definition getrandom_2 (state : randstate) : nfloat * randstate :=
  let '(u, state') := gmp_urandomm_ui state gt_pid2_ls23_int in
  let f := nf_of_Z binary32 u in
  (nf_div binary32 f (nf_of_Z binary32 (Z.shiftl 1 23)), state').

(** The do-while loop of [getrandom_3], with [fuel] bounding the number
    of draws; [None] when the fuel runs out. *)
Fixpoint getrandom_3 (fuel : nat) (state : randstate) : option (nfloat * randstate) :=
  match fuel with
  | O => None
  | S fuel' =>
      let '(u, state') := gmp_urandomb_ui state 32 in
      let ui := u mod 2 ^ 32 in
      if Z.land ui 2139095040 =? 2139095040   (* 0x7F800000 *)
      then getrandom_3 fuel' state'
      else Some (flt_of_bits ui, state')
  end.

End Distributions.

Arguments getrandom_1 {randstate}.
Arguments getrandom_2 {randstate}.
Arguments getrandom_3 {randstate}.

(** A deterministic counter source that meets GMP's range contract. *)
Definition counter_urandomm_ui (s n : Z) : Z * Z := (s mod n, s + 1).
Definition counter_urandomb_ui (s k : Z) : Z * Z := (s mod 2 ^ k, s + 1).

(** ** Converting native values to MPFR *)

(** A native conversion [(double) x], [(long double) x], ... *)
Definition nf_convert (f : fmt) (x : nfloat) : nfloat :=
  match x with
  | NF_Fin s _ _ => fmt_round f (nf_val x) s
  | _ => x
  end.

(** [mpfr_set_flt], [mpfr_set_d], [mpfr_set_ld] with [MPFR_RNDN] into a
    variable of precision [p]. *)
Definition mpfr_set_nf (p : Z) (x : nfloat) : mpfr :=
  match x with
  | NF_NaN => MNaN
  | NF_Inf s => MInf s
  | NF_Fin s _ _ => round_q p (nf_val x) s
  end.

Definition mpfr_set_flt := mpfr_set_nf.
Definition mpfr_set_d := mpfr_set_nf.
Definition mpfr_set_ld := mpfr_set_nf.

(** *** [quadmath_snprintf (s, size, "%Qa", x)] on a binary128 value *)

Definition hex_digit (d : Z) : ascii :=
  ascii_of_nat (Z.to_nat (if d <? 10 then 48 + d else 87 + d)).

Definition dec_digit (d : Z) : ascii := ascii_of_nat (Z.to_nat (48 + d)).

(** The [k] low hexadecimal digits of [n], most significant first. *)
Fixpoint hexN (k : nat) (n : Z) : list ascii :=
  match k with
  | O => []
  | S k' => hex_digit ((n / 16 ^ Z.of_nat k') mod 16) :: hexN k' n
  end.

(** Drops trailing zero digits from a [k]-digit fraction. *)
Fixpoint strip_hex (k : nat) (F : Z) : nat * Z :=
  match k with
  | O => (O, F)
  | S k' => if F mod 16 =? 0 then strip_hex k' (F / 16) else (k, F)
  end.

(** Decimal digits of [n >= 0] in front of [acc]. *)
Fixpoint dec_aux (fuel : nat) (n : Z) (acc : list ascii) : list ascii :=
  match fuel with
  | O => acc
  | S f =>
      let acc' := dec_digit (n mod 10) :: acc in
      if n <? 10 then acc' else dec_aux f (n / 10) acc'
  end.

Definition qa_sign (s : bool) : list ascii := if s then ["-"%char] else [].

(** The [%a] text of a binary128 value: [0x1.<fraction>p<exp>] for
    normal numbers, [0x0.<fraction>p-16382] for subnormal ones, [0x0p+0]
    for zero, with the trailing zeros of the 28-digit fraction dropped. *)
Definition qa_chars (x : nfloat) : list ascii :=
  match x with
  | NF_NaN => ["n"; "a"; "n"]%char
  | NF_Inf s => qa_sign s ++ ["i"; "n"; "f"]%char
  | NF_Fin s M e =>
      if M =? 0 then qa_sign s ++ ["0"; "x"; "0"; "p"; "+"; "0"]%char
      else
        let E := Z.log2 M + e in
        let '(lead, expo, q) :=
          if E <? -16382 then (0, -16382, -16494) else (1, E, E - 112) in
        let F := Z.shiftl M (e - q) - lead * 2 ^ 112 in
        let '(j, D) := strip_hex 28 F in
        qa_sign s ++ ["0"; "x"]%char ++ [hex_digit lead]
        ++ (match j with O => [] | _ => "."%char :: hexN j D end)
        ++ "p"%char :: (if expo <? 0 then "-"%char else "+"%char)
        :: dec_aux 20 (Z.abs expo) []
  end.

(** At most [size - 1] characters are written. *)
Definition quadmath_snprintf_Qa (size : nat) (x : nfloat) : string :=
  string_of_list_ascii (firstn (size - 1) (qa_chars x)).

(** *** [mpfr_set_str (y, s, 0, MPFR_RNDN)] *)

Definition hex_val (c : ascii) : option Z :=
  let n := Z.of_nat (nat_of_ascii c) in
  if (48 <=? n) && (n <=? 57) then Some (n - 48)
  else if (97 <=? n) && (n <=? 102) then Some (n - 87)
  else if (65 <=? n) && (n <=? 70) then Some (n - 55)
  else None.

Definition dec_val (c : ascii) : option Z :=
  let n := Z.of_nat (nat_of_ascii c) in
  if (48 <=? n) && (n <=? 57) then Some (n - 48) else None.

Fixpoint take_hex (acc : Z) (k : nat) (l : list ascii) : Z * nat * list ascii :=
  match l with
  | c :: r => match hex_val c with
              | Some d => take_hex (acc * 16 + d) (S k) r
              | None => (acc, k, l)
              end
  | [] => (acc, k, [])
  end.

Fixpoint take_dec (acc : Z) (l : list ascii) : Z * list ascii :=
  match l with
  | c :: r => match dec_val c with
              | Some d => take_dec (acc * 10 + d) r
              | None => (acc, l)
              end
  | [] => (acc, [])
  end.

Definition parse_sign (l : list ascii) : bool * list ascii :=
  match l with
  | "-"%char :: r => (true, r)
  | "+"%char :: r => (false, r)
  | _ => (false, l)
  end.

(** The part after [0x]: hexadecimal digits, an optional point and
    fraction, an optional binary exponent [p<decimal>]. *)
Definition parse_hex_body (l : list ascii) : option Q :=
  let '(ip, ni, r1) := take_hex 0 0 l in
  let '(fp, nf, r2) :=
    match r1 with "."%char :: r => take_hex 0 0 r | _ => (0, O, r1) end in
  let m := inject_Z (ip * 16 ^ Z.of_nat nf + fp) in
  if (ni + nf =? 0)%nat then None
  else match r2 with
       | [] => Some (m * pow2 (-4 * Z.of_nat nf))%Q
       | c :: r3 =>
           if (c =? "p")%char || (c =? "P")%char then
             let '(es, r4) := parse_sign r3 in
             match r4 with
             | [] => None
             | _ :: _ =>
                 let '(ev, r5) := take_dec 0 r4 in
                 match r5 with
                 | [] => Some (m * pow2 (-4 * Z.of_nat nf + (if es then - ev else ev)))%Q
                 | _ :: _ => None
                 end
             end
           else None
       end.

(** [mpfr_strtofr] in base 0 on the hexadecimal and special forms; the
    decimal notation is not modelled ([None]). *)
Definition mpfr_strtofr (p : Z) (l : list ascii) : option mpfr :=
  let '(neg, r) := parse_sign l in
  match r with
  | ["i"; "n"; "f"]%char => Some (MInf neg)
  | ["n"; "a"; "n"]%char => Some MNaN
  | "0"%char :: x :: r' =>
      if (x =? "x")%char || (x =? "X")%char then
        match parse_hex_body r' with
        | Some q => Some (round_q p (sgnQ neg q) neg)
        | None => None
        end
      else None
  | _ => None
  end.

(** On a string it cannot read, [mpfr_set_str] returns -1 and leaves an
    unspecified value: NaN here. *)
Definition mpfr_set_str (p : Z) (s : string) : mpfr :=
  match mpfr_strtofr p (list_ascii_of_string s) with
  | Some v => v
  | None => MNaN
  end.

(** ** The evaluators and the main loop (lines 83-110, 198-258) *)

Section Engine.
(** The native sine functions of libm and libquadmath, and [mpfr_sin]
    at a given precision. *)
Variable sinf sin sinl sinq : nfloat -> nfloat.
Variable mpfr_sin : Z -> mpfr -> mpfr.
Variable randstate : Type.
Variable gmp_urandomm_ui : randstate -> Z -> Z * randstate.
Variable gmp_urandomb_ui : randstate -> Z -> Z * randstate.
(** Bound on the number of draws of [getrandom_3]'s loop. *)
Variable fuel3 : nat.

(** Each evaluator writes into [y], a variable of precision [p]. *)
Definition getsin_flt (p : Z) (phase : nfloat) : mpfr :=
  mpfr_set_flt p (sinf phase).
Definition getsin_d (p : Z) (phase : nfloat) : mpfr :=
  mpfr_set_d p (sin (nf_convert binary64 phase)).
Definition getsin_ld (p : Z) (phase : nfloat) : mpfr :=
  mpfr_set_ld p (sinl (nf_convert x87_extended phase)).
Definition getsin_q (p : Z) (phase : nfloat) : mpfr :=
  mpfr_set_str p (quadmath_snprintf_Qa 64 (sinq (nf_convert binary128 phase))).

(** The tables [generator[]] and [distribution[]] (the names [generator]
    and [distribution] are the fields of [stats_t]). *)
Definition generator_tbl : list (string * (Z -> nfloat -> mpfr)) :=
  [("float"%string, getsin_flt); ("double"%string, getsin_d);
   ("long double"%string, getsin_ld); ("__float128"%string, getsin_q)].

Definition distribution_tbl : list (string * (randstate -> option (nfloat * randstate))) :=
  [("+0 <= x < PI/2, non-uniform"%string, fun st => Some (getrandom_1 gmp_urandomm_ui st));
   ("+0 <= x < PI/2, uniform"%string, fun st => Some (getrandom_2 gmp_urandomm_ui st));
   ("all floats"%string, getrandom_3 gmp_urandomb_ui fuel3)].

(** [stats[dist][gen]] after the initialisation loops. *)
Definition stats_start : list (list stats_t) :=
  map (fun d => map (fun g => stats_init (fst d) (fst g)) generator_tbl) distribution_tbl.

(** Precision of [mpfrtemp] (line 224). *)
Definition mpfrtemp_prec : Z := 128 + 16.

(** One pass of the inner loop for one distribution: draw the phase, set
    [mpfrtemp] and [refsin], then run each generator and [stats_add]. *)
Definition run_dist (row : list stats_t)
    (code : randstate -> option (nfloat * randstate)) (st : randstate)
    : option (list stats_t * randstate) :=
  match code st with
  | None => None
  | Some (phase, st') =>
      let mpfrtemp := mpfr_set_flt mpfrtemp_prec phase in
      let refsin := mpfr_sin MPFR_PREC mpfrtemp in
      Some (map (fun cg => stats_add (fst cg) (snd (snd cg) mpfrtemp_prec phase) refsin)
                (combine row generator_tbl), st')
  end.

(** One iteration of [while (running)]; printing leaves the cells as
    they are and is left out. *)
Fixpoint run_rows (rows : list (list stats_t))
    (dists : list (string * (randstate -> option (nfloat * randstate))))
    (st : randstate) : option (list (list stats_t) * randstate) :=
  match rows, dists with
  | row :: rows', d :: dists' =>
      match run_dist row (snd d) st with
      | None => None
      | Some (row', st1) =>
          match run_rows rows' dists' st1 with
          | None => None
          | Some (rows'', st2) => Some (row' :: rows'', st2)
          end
      end
  | _, _ => Some ([], st)
  end.

(** [K] iterations of the main loop from the cells [c] and state [st]. *)
Fixpoint main_loop (K : nat) (c : list (list stats_t)) (st : randstate)
    : option (list (list stats_t) * randstate) :=
  match K with
  | O => Some (c, st)
  | S K' =>
      match run_rows c distribution_tbl st with
      | None => None
      | Some (c', st') => main_loop K' c' st'
      end
  end.

(** The final report (lines 263-265). *)
Definition final_report (c : list (list stats_t)) : list (list report) :=
  map (map stats_print) c.

End Engine.

(** [x] is a value of format [f]: [M < 2^prec], exponent at least the
    subnormal quantum, magnitude below [2^(emax+1)]. *)
Definition in_fmt (f : fmt) (x : nfloat) : bool :=
  match x with
  | NF_Fin _ M e =>
      (0 <=? M) && (M <? 2 ^ fprec f) && (femin f - fprec f + 1 <=? e)
      && (e + Z.log2 M <=? femax f)
  | _ => true
  end.

(** The MPFR number with exactly the value of [x]. *)
Definition nf_exact (x : nfloat) : mpfr :=
  match x with
  | NF_NaN => MNaN
  | NF_Inf s => MInf s
  | NF_Fin s M e => mk_num s M e
  end.

(** A source whose 32-bit draws are all zero. *)
Definition zero_urandomb_ui (s k : Z) : Z * Z := (0, s + 1).

(** The library functions as identities, for concrete runs. *)
Definition nf_id (x : nfloat) : nfloat := x.
Definition mpfr_sin_id (p : Z) (x : mpfr) : mpfr := x.

(** Cell [x] of a run corresponds to cell [x0] of [stats_start]: same
    names, sample count [k]. *)
Definition cell_rel (k : Z) (x0 x : stats_t) : Prop :=
  distribution x = distribution x0 /\ generator x = generator x0 /\ n x = k.

(** [mpfr_greaterequal_p x y]: [x >= y], false when either is NaN. *)
Definition mpfr_greaterequal_p (x y : mpfr) : bool :=
  match x, y with
  | MNaN, _ | _, MNaN => false
  | MInf s, MInf s' => s' || negb s
  | MInf s, _ => negb s
  | _, MInf s' => s'
  | _, _ => Qle_bool (fval y) (fval x)
  end.

(** A finite relative error of magnitude below [2^(emax-2)], so that the
    differences formed by [stats_add] stay below the overflow threshold. *)
Definition reldiff_in_range (r : mpfr) : bool :=
  match r with
  | MZero _ => true
  | MNum _ m e => e + Z.log2 (Zpos m) + 1 <=? mpfr_emax - 2
  | _ => false
  end.

(** [b] is the negation of [a], up to the sign of a zero. *)
Definition opp_like (a b : mpfr) : Prop :=
  b = mpfr_neg a \/ (is_zero a = true /\ is_zero b = true).

(* END OF DEFINITIONS *)

(** * Proofs *)

Example ex_rel : reldiff_of two one = one.
Proof. vm_compute. reflexivity. Qed.

Example ex_two :
  let c := stats_add (stats_add (stats_init "d" "g") two one) (MZero false) one in
  (mean c, stats_print c) = (MZero false, stats_print c) /\ r_variance (stats_print c) = two.
Proof. vm_compute. split; reflexivity. Qed.

(** ** The Welford update *)

(** C1 (as stated: [n] goes up by exactly one) fails when [n] is the
    largest [unsigned long]: the count wraps to 0. *)
Lemma C1_counterexample :
  let st := {| distribution := "d"; generator := "g"; n := ULONG_MOD - 1;
               mean := MZero false; m2 := MZero false |} in
  n (stats_add st one one) <> n st + 1.
Proof. vm_compute. discriminate. Qed.

(** C1 (amended): [stats_add] is the Welford step of the claim with the
    sample count incremented modulo [2^64], which is [n + 1] whenever
    [n < 2^64 - 1]; the names are unchanged. *)
Theorem C1_stats_add_welford (st : stats_t) (y ref : mpfr)
  (Hn : 0 <= n st < ULONG_MOD) :
  stats_add st y ref = welford_step st ((n st + 1) mod ULONG_MOD) y ref
  /\ (n st < ULONG_MOD - 1 -> n (stats_add st y ref) = n st + 1)
  /\ (n st = ULONG_MOD - 1 -> n (stats_add st y ref) = 0)
  /\ distribution (stats_add st y ref) = distribution st
  /\ generator (stats_add st y ref) = generator st.
Proof.
  change (n (stats_add st y ref)) with ((n st + 1) mod ULONG_MOD).
  assert (HM : ULONG_MOD = 18446744073709551616) by reflexivity.
  rewrite HM in *.
  split; [reflexivity |].
  split; [intros; rewrite Z.mod_small; lia |].
  split; [intros H; rewrite H; reflexivity |].
  split; reflexivity.
Qed.

Lemma C1_witness :
  let st := stats_init "d" "g" in
  (0 <= n st < ULONG_MOD) /\ stats_add st one one = welford_step st 1 one one.
Proof.
  assert (H : 0 <= n (stats_init "d" "g") < ULONG_MOD)
    by (split; [cbn; lia | reflexivity]).
  split; [exact H |].
  exact (proj1 (C1_stats_add_welford (stats_init "d" "g") one one H)).
Defined.

(** ** Non-finite values propagate *)

Create HintDb nonfinite.

Ltac mp_cases :=
  repeat match goal with
         | x : mpfr |- _ => destruct x
         | b : bool |- _ => destruct b
         end; simpl in *; try reflexivity; try discriminate.

Lemma div_zero_nonfinite (p : Z) (x : mpfr) (s : bool) :
  is_finite (mpfr_div p x (MZero s)) = false.
Proof. destruct x; mp_cases. Qed.

Lemma add_nonfinite_l (p : Z) (x y : mpfr) :
  is_finite x = false -> is_finite (mpfr_add p x y) = false.
Proof.
  intros H; destruct x as [|sx|sx|sx mx ex]; try discriminate;
  destruct y as [|sy|sy|sy my ey]; simpl; try reflexivity;
  destruct sx, sy; reflexivity.
Qed.

Lemma add_nonfinite_r (p : Z) (x y : mpfr) :
  is_finite y = false -> is_finite (mpfr_add p x y) = false.
Proof.
  intros H; destruct y as [|sy|sy|sy my ey]; try discriminate;
  destruct x as [|sx|sx|sx mx ex]; simpl; try reflexivity;
  destruct sx, sy; reflexivity.
Qed.

Lemma neg_finite (x : mpfr) : is_finite (mpfr_neg x) = is_finite x.
Proof. destruct x; reflexivity. Qed.

Lemma sub_nonfinite_l (p : Z) (x y : mpfr) :
  is_finite x = false -> is_finite (mpfr_sub p x y) = false.
Proof. apply add_nonfinite_l. Qed.

Lemma sub_nonfinite_r (p : Z) (x y : mpfr) :
  is_finite y = false -> is_finite (mpfr_sub p x y) = false.
Proof. intros H; apply add_nonfinite_r; rewrite neg_finite; exact H. Qed.

Lemma div_ui_nonfinite (p : Z) (x : mpfr) (u : Z) :
  is_finite x = false -> is_finite (mpfr_div_ui p x u) = false.
Proof.
  intros H; unfold mpfr_div_ui; destruct (u =? 0).
  - destruct x; try discriminate; reflexivity.
  - destruct x; try discriminate; reflexivity.
Qed.

Lemma fma_nonfinite_a (p : Z) (a b c : mpfr) :
  is_finite a = false -> is_finite (mpfr_fma p a b c) = false.
Proof.
  intros H; destruct a as [|sa|sa|sa ma ea]; try discriminate;
  destruct b as [|sb|sb|sb mb eb]; destruct c as [|sc|sc|sc mc ec];
  simpl; try reflexivity;
  destruct (Bool.eqb _ _); reflexivity.
Qed.

Lemma fma_nonfinite_c (p : Z) (a b c : mpfr) :
  is_finite c = false -> is_finite (mpfr_fma p a b c) = false.
Proof.
  intros H; destruct c as [|sc|sc|sc mc ec]; try discriminate;
  destruct a as [|sa|sa|sa ma ea]; destruct b as [|sb|sb|sb mb eb];
  simpl; try reflexivity;
  destruct (Bool.eqb _ _); reflexivity.
Qed.

#[local] Hint Resolve add_nonfinite_l add_nonfinite_r sub_nonfinite_l
  sub_nonfinite_r div_ui_nonfinite fma_nonfinite_a fma_nonfinite_c
  div_zero_nonfinite : nonfinite.

Lemma reldiff_zero_ref (y : mpfr) (s : bool) :
  is_finite (reldiff_of y (MZero s)) = false.
Proof. unfold reldiff_of; simpl mpfr_abs; apply div_zero_nonfinite. Qed.

(** Once poisoned, a cell stays poisoned whatever it records. *)
Lemma stats_add_keeps_poison (st : stats_t) (y ref : mpfr) :
  is_finite (mean st) = false -> is_finite (m2 st) = false ->
  is_finite (mean (stats_add st y ref)) = false
  /\ is_finite (m2 (stats_add st y ref)) = false.
Proof. intros Hm Hm2; unfold stats_add; simpl; split; auto with nonfinite. Qed.

Lemma stats_add_all_keeps_poison (l : list (mpfr * mpfr)) (st : stats_t) :
  is_finite (mean st) = false -> is_finite (m2 st) = false ->
  is_finite (mean (stats_add_all st l)) = false
  /\ is_finite (m2 (stats_add_all st l)) = false.
Proof.
  induction l as [|[y r] l IH] in st |- *; intros Hm Hm2; simpl; [auto |].
  destruct (stats_add_keeps_poison st y r Hm Hm2); apply IH; assumption.
Qed.

(** C4: a reference equal to zero (of either sign) makes the relative
    error non-finite, makes [mean] and [m2] non-finite, and every later
    [stats_add] keeps them non-finite. *)
Theorem C4_zero_ref_poisons (st : stats_t) (y : mpfr) (s : bool)
  (later : list (mpfr * mpfr)) :
  is_finite (reldiff_of y (MZero s)) = false
  /\ is_finite (mean (stats_add st y (MZero s))) = false
  /\ is_finite (m2 (stats_add st y (MZero s))) = false
  /\ is_finite (mean (stats_add_all (stats_add st y (MZero s)) later)) = false
  /\ is_finite (m2 (stats_add_all (stats_add st y (MZero s)) later)) = false.
Proof.
  pose proof (reldiff_zero_ref y s) as Hr.
  assert (Hm : is_finite (mean (stats_add st y (MZero s))) = false).
  { unfold stats_add; simpl; fold (reldiff_of y (MZero s)); auto with nonfinite. }
  assert (Hm2 : is_finite (m2 (stats_add st y (MZero s))) = false).
  { unfold stats_add; simpl; fold (reldiff_of y (MZero s)); auto with nonfinite. }
  destruct (stats_add_all_keeps_poison later _ Hm Hm2).
  repeat split; assumption.
Qed.

(** ** The report *)

(** C3 fails: a cell with [n = 1] reports NaN, not the variance and
    standard deviation computed by the report printed just before. *)
Lemma C3_counterexample :
  let a := stats_add (stats_add (stats_init "d" "g") two one) (MZero false) one in
  let b := stats_add (stats_init "d" "g") two one in
  (r_variance (stats_print b), r_stddev (stats_print b))
  <> stats_print_claimed (r_variance (stats_print a), r_stddev (stats_print a)) b.
Proof. vm_compute. discriminate. Qed.

(** C3 (amended): [stats_print] only reads the cell; for [n > 1] it
    reports [m2 / (n - 1)] and its square root, for [n <= 1] it reports
    NaN for both, on every call. *)
Theorem C3_stats_print_spec (st : stats_t) :
  r_distribution (stats_print st) = distribution st
  /\ r_generator (stats_print st) = generator st
  /\ r_n (stats_print st) = n st
  /\ r_mean (stats_print st) = mean st
  /\ (1 < n st ->
      r_variance (stats_print st) = mpfr_div_ui MPFR_PREC (m2 st) (n st - 1)
      /\ r_stddev (stats_print st) = mpfr_sqrt MPFR_PREC (r_variance (stats_print st)))
  /\ (n st <= 1 -> r_variance (stats_print st) = MNaN /\ r_stddev (stats_print st) = MNaN).
Proof.
  unfold stats_print.
  destruct (1 <? n st) eqn:E; simpl.
  - apply Z.ltb_lt in E.
    repeat split; try reflexivity; intros; lia.
  - apply Z.ltb_ge in E.
    repeat split; try reflexivity; intros; lia.
Qed.

(** ** Powers of two, [mag] and [rne] *)

Lemma pow2_pos (k : Z) : (0 < pow2 k)%Q.
Proof. apply Qpower_0_lt; reflexivity. Qed.

Lemma pow2_add (a b : Z) : (pow2 (a + b) == pow2 a * pow2 b)%Q.
Proof. apply Qpower_plus; discriminate. Qed.

Lemma pow2_Z (k : Z) : 0 <= k -> (pow2 k == inject_Z (2 ^ k))%Q.
Proof. intros H; unfold pow2; rewrite Zpower_Qpower by exact H; reflexivity. Qed.

Lemma pow2_le_mono (a b : Z) : a <= b -> (pow2 a <= pow2 b)%Q.
Proof. intros H; apply Qpower_le_compat_l; [exact H | discriminate]. Qed.

Lemma pow2_lt_mono (a b : Z) : a < b -> (pow2 a < pow2 b)%Q.
Proof. intros H; apply Qpower_lt_compat_l; [exact H | reflexivity]. Qed.

Lemma pow2_le_inv (a b : Z) : (pow2 a <= pow2 b)%Q -> a <= b.
Proof.
  intros H; destruct (Z.le_gt_cases a b) as [|Hlt]; [assumption |].
  apply pow2_lt_mono in Hlt; exfalso; apply (Qlt_not_le _ _ Hlt H).
Qed.

Lemma pow2_lt_inv (a b : Z) : (pow2 a < pow2 b)%Q -> a < b.
Proof.
  intros H; destruct (Z.lt_ge_cases a b) as [|Hge]; [assumption |].
  apply pow2_le_mono in Hge; exfalso; apply (Qlt_not_le _ _ H Hge).
Qed.

Lemma pow2_succ (k : Z) : (pow2 (k + 1) == 2 * pow2 k)%Q.
Proof. rewrite pow2_add; unfold pow2 at 2; simpl; ring. Qed.

Lemma Qnum_pos (x : Q) : (0 < x)%Q -> 0 < Qnum x.
Proof.
  destruct x as [a b]; unfold Qlt; simpl; lia.
Qed.

Lemma mag_spec (x : Q) : (0 < x)%Q -> (pow2 (mag x - 1) <= x)%Q /\ (x < pow2 (mag x))%Q.
Proof.
  intros Hx.
  pose proof (Qnum_pos x Hx) as Ha.
  destruct x as [a b]; simpl in Ha.
  set (la := Z.log2 a). set (lb := Z.log2 (Zpos b)).
  destruct (Z.log2_spec a Ha) as [Ha1 Ha2].
  destruct (Z.log2_spec (Zpos b) eq_refl) as [Hb1 Hb2].
  fold la in Ha1, Ha2; fold lb in Hb1, Hb2.
  assert (Hla : 0 <= la) by (apply Z.log2_nonneg).
  assert (Hlb : 0 <= lb) by (apply Z.log2_nonneg).
  assert (QA1 : (pow2 la <= inject_Z a)%Q).
  { rewrite pow2_Z by lia; rewrite <- Zle_Qle; exact Ha1. }
  assert (QA2 : (inject_Z a < pow2 (la + 1))%Q).
  { rewrite pow2_Z by lia; rewrite <- Zlt_Qlt; rewrite Z.add_1_r; exact Ha2. }
  assert (QB1 : (pow2 lb <= inject_Z (Zpos b))%Q).
  { rewrite pow2_Z by lia; rewrite <- Zle_Qle; exact Hb1. }
  assert (QB2 : (inject_Z (Zpos b) < pow2 (lb + 1))%Q).
  { rewrite pow2_Z by lia; rewrite <- Zlt_Qlt; rewrite Z.add_1_r; exact Hb2. }
  assert (QB0 : (0 < inject_Z (Zpos b))%Q) by reflexivity.
  set (d := la - lb).
  assert (L : (pow2 (d - 1) < a # b)%Q).
  { rewrite Qmake_Qdiv; apply Qlt_shift_div_l; [exact QB0 |].
    apply Qlt_le_trans with (pow2 (d - 1) * pow2 (lb + 1))%Q.
    - apply Qmult_lt_l; [apply pow2_pos | exact QB2].
    - rewrite <- pow2_add. replace (d - 1 + (lb + 1)) with la by lia. exact QA1. }
  assert (U : (a # b < pow2 (d + 1))%Q).
  { rewrite Qmake_Qdiv; apply Qlt_shift_div_r; [exact QB0 |].
    apply Qlt_le_trans with (pow2 (d + 1) * pow2 lb)%Q.
    - rewrite <- pow2_add. replace (d + 1 + lb) with (la + 1) by lia. exact QA2.
    - apply Qmult_le_l; [apply pow2_pos | exact QB1]. }
  unfold mag; simpl Qnum; simpl Qden; fold la lb d.
  destruct (Qle_bool (pow2 d) (a # b)) eqn:E.
  - apply Qle_bool_iff in E. replace (d + 1 - 1) with d by lia. split; assumption.
  - split; [apply Qlt_le_weak; exact L |].
    apply Qnot_le_lt; intros C; apply Qle_bool_iff in C; congruence.
Qed.

Lemma mag_unique (x : Q) (E : Z) :
  (pow2 (E - 1) <= x)%Q -> (x < pow2 E)%Q -> mag x = E.
Proof.
  intros H1 H2.
  assert (Hx : (0 < x)%Q) by (apply Qlt_le_trans with (pow2 (E - 1)); [apply pow2_pos | exact H1]).
  destruct (mag_spec x Hx) as [M1 M2].
  assert (mag x - 1 < E) by (apply pow2_lt_inv; apply Qle_lt_trans with x; assumption).
  assert (E - 1 < mag x) by (apply pow2_lt_inv; apply Qle_lt_trans with x; assumption).
  lia.
Qed.

Lemma le_pow2_spec (x : Q) (j : Z) :
  (0 < x)%Q -> le_pow2 x j = true <-> (x <= pow2 j)%Q.
Proof.
  intros Hx; destruct (mag_spec x Hx) as [M1 M2].
  unfold le_pow2; set (E := mag x) in *.
  destruct (E <=? j) eqn:H1.
  - split; [intros _ | reflexivity].
    apply Qlt_le_weak, Qlt_le_trans with (pow2 E); [exact M2 |].
    apply pow2_le_mono; apply Z.leb_le; exact H1.
  - apply Z.leb_gt in H1. destruct (E =? j + 1) eqn:H2.
    + apply Z.eqb_eq in H2. rewrite Qeq_bool_iff.
      replace (E - 1) with j in M1 by lia.
      split; [intros H; rewrite H; apply Qle_refl | intros H; apply Qle_antisym; assumption].
    + apply Z.eqb_neq in H2. split; [discriminate | intros H].
      exfalso. assert (j < E - 1) as Hj by lia.
      apply pow2_lt_mono in Hj.
      apply (Qlt_not_le _ _ (Qlt_le_trans _ _ _ Hj M1) H).
Qed.

Lemma lt_pow2_spec (x : Q) (j : Z) :
  (0 < x)%Q -> lt_pow2 x j = true <-> (x < pow2 j)%Q.
Proof.
  intros Hx; destruct (mag_spec x Hx) as [M1 M2].
  unfold lt_pow2; rewrite Z.leb_le; split; intros H.
  - apply Qlt_le_trans with (pow2 (mag x)); [exact M2 | apply pow2_le_mono; exact H].
  - assert (mag x - 1 < j) by (apply pow2_lt_inv, Qle_lt_trans with x; assumption).
    lia.
Qed.

Lemma rne_Z (z : Z) : rne (inject_Z z) = z.
Proof.
  unfold rne. rewrite Qfloor_Z.
  replace (inject_Z z - inject_Z z)%Q with 0%Q by (unfold Qminus; rewrite <- inject_Z_opp, <- inject_Z_plus; rewrite Z.add_opp_diag_r; reflexivity).
  reflexivity.
Qed.

Lemma rne_cases (y : Q) :
  (rne y = Qfloor y /\ (y - inject_Z (Qfloor y) <= 1 # 2)%Q)
  \/ (rne y = Qfloor y + 1 /\ (1 # 2 <= y - inject_Z (Qfloor y))%Q).
Proof.
  unfold rne. set (f := Qfloor y).
  destruct (Qcompare (y - inject_Z f) (1 # 2)) eqn:C.
  - apply Qeq_alt in C. destruct (Z.even f);
    [left | right]; split; try reflexivity; rewrite C; apply Qle_refl.
  - apply Qlt_alt in C. left; split; [reflexivity | apply Qlt_le_weak; exact C].
  - apply Qgt_alt in C. right; split; [reflexivity | apply Qlt_le_weak; exact C].
Qed.

Lemma floor_bounds (y : Q) :
  (inject_Z (Qfloor y) <= y)%Q /\ (y < inject_Z (Qfloor y + 1))%Q.
Proof. split; [apply Qfloor_le | apply Qlt_floor]. Qed.

Lemma rne_bound (y : Q) :
  (inject_Z (rne y) - (1 # 2) <= y)%Q /\ (y <= inject_Z (rne y) + (1 # 2))%Q.
Proof.
  destruct (floor_bounds y) as [F1 F2].
  rewrite inject_Z_plus in F2.
  destruct (rne_cases y) as [[-> H] | [-> H]]; rewrite ?inject_Z_plus;
  change (inject_Z 1) with 1%Q in *; split; lra.
Qed.

Lemma rne_mono (y1 y2 : Q) : (y1 <= y2)%Q -> rne y1 <= rne y2.
Proof.
  intros H.
  assert (Hf : Qfloor y1 <= Qfloor y2) by (apply Qfloor_resp_le; exact H).
  destruct (Z.lt_ge_cases (Qfloor y1) (Qfloor y2)) as [Hlt | Hge].
  - destruct (rne_cases y1) as [[-> _] | [-> _]];
    destruct (rne_cases y2) as [[-> _] | [-> _]]; lia.
  - assert (Heq : Qfloor y1 = Qfloor y2) by lia.
    unfold rne. rewrite Heq. set (f := Qfloor y2).
    destruct (Qcompare (y1 - inject_Z f) (1 # 2)) eqn:C1;
    destruct (Qcompare (y2 - inject_Z f) (1 # 2)) eqn:C2;
    try (destruct (Z.even f); lia).
    + apply Qeq_alt in C1. apply Qlt_alt in C2. lra.
    + apply Qgt_alt in C1. apply Qeq_alt in C2. lra.
    + apply Qgt_alt in C1. apply Qlt_alt in C2. lra.
Qed.

(** [strip] removes trailing zero bits. *)
Lemma strip_spec (s : bool) (m : positive) (e : Z) :
  exists m' j, strip s m e = MNum s m' (e + j) /\ 0 <= j
               /\ Zpos m = Zpos m' * 2 ^ j /\ Z.odd (Zpos m') = true.
Proof.
  induction m as [m IH | m IH |] in e |- *.
  - exists (xI m), 0; repeat split; simpl; try rewrite Z.add_0_r; reflexivity || lia.
  - destruct (IH (e + 1)) as [m' [j [H1 [H2 [H3 H4]]]]].
    exists m', (j + 1).
    split; [simpl; rewrite H1; f_equal; lia |].
    split; [lia |]. split; [| exact H4].
    rewrite Z.pow_add_r by lia. change (Zpos m~0) with (2 * Zpos m).
    rewrite H3, Z.pow_1_r; ring.
  - exists xH, 0; repeat split; simpl; try rewrite Z.add_0_r; reflexivity || lia.
Qed.

Lemma strip_odd (s : bool) (m : positive) (e : Z) :
  Z.odd (Zpos m) = true -> strip s m e = MNum s m e.
Proof. destruct m; simpl; try discriminate; reflexivity. Qed.

Lemma strip_shift (s : bool) (m : positive) (e : Z) (j : nat) :
  strip s (Nat.iter j xO m) (e - Z.of_nat j) = strip s m e.
Proof.
  induction j as [|j IH] in e |- *.
  - simpl; rewrite Z.sub_0_r; reflexivity.
  - rewrite Nat2Z.inj_succ.
    transitivity (strip s (Nat.iter j xO m) (e - Z.succ (Z.of_nat j) + 1));
      [reflexivity |].
    replace (e - Z.succ (Z.of_nat j) + 1) with (e - Z.of_nat j) by lia.
    apply IH.
Qed.

Lemma iter_xO_Z (m : positive) (j : nat) :
  Zpos (Nat.iter j xO m) = Zpos m * 2 ^ Z.of_nat j.
Proof.
  induction j as [|j IH]; simpl Nat.iter; [simpl; lia |].
  change (Zpos (Nat.iter j xO m)~0) with (2 * Zpos (Nat.iter j xO m)).
  rewrite IH, Nat2Z.inj_succ, Z.pow_succ_r by lia. ring.
Qed.

Lemma rne_compat (x y : Q) : (x == y)%Q -> rne x = rne y.
Proof.
  intros H. apply Z.le_antisymm; apply rne_mono; rewrite H; apply Qle_refl.
Qed.

Lemma valid_num (p : Z) (s : bool) (m : positive) (e : Z) :
  valid p (MNum s m e) = true <->
  Z.odd (Zpos m) = true /\ Z.log2 (Zpos m) < p
  /\ mpfr_emin <= e + Z.log2 (Zpos m) + 1 <= mpfr_emax.
Proof.
  simpl. rewrite !andb_true_iff, Z.ltb_lt, !Z.leb_le. tauto.
Qed.

Lemma mag_num (m : positive) (e : Z) :
  mag (inject_Z (Zpos m) * pow2 e) = e + Z.log2 (Zpos m) + 1.
Proof.
  destruct (Z.log2_spec (Zpos m) eq_refl) as [H1 H2].
  assert (HL : 0 <= Z.log2 (Zpos m)) by apply Z.log2_nonneg.
  apply mag_unique.
  - replace (e + Z.log2 (Zpos m) + 1 - 1) with (Z.log2 (Zpos m) + e) by lia.
    rewrite pow2_add. apply Qmult_le_r; [apply pow2_pos |].
    rewrite pow2_Z by lia. rewrite <- Zle_Qle. exact H1.
  - replace (e + Z.log2 (Zpos m) + 1) with ((Z.log2 (Zpos m) + 1) + e) by lia.
    rewrite pow2_add. apply Qmult_lt_r; [apply pow2_pos |].
    rewrite pow2_Z by lia. rewrite <- Zlt_Qlt. rewrite Z.add_1_r. exact H2.
Qed.

Lemma num_pos (m : positive) (e : Z) : (0 < inject_Z (Zpos m) * pow2 e)%Q.
Proof.
  apply Qmult_lt_0_compat; [reflexivity | apply pow2_pos].
Qed.

(** Rounding a representable value gives it back. *)
Lemma round_pos_exact (p : Z) (s : bool) (m : positive) (e : Z) :
  valid p (MNum s m e) = true ->
  round_pos p s (inject_Z (Zpos m) * pow2 e) = MNum s m e.
Proof.
  intros HV; apply valid_num in HV as [Hodd [Hp [Hlo Hhi]]].
  set (L := Z.log2 (Zpos m)) in *.
  assert (HL : 0 <= L) by apply Z.log2_nonneg.
  destruct (Z.log2_spec (Zpos m) eq_refl) as [H1 H2]; fold L in H1, H2.
  pose proof (num_pos m e) as HX.
  pose proof (mag_num m e) as HM; fold L in HM.
  unfold round_pos.
  replace (le_pow2 (inject_Z (Zpos m) * pow2 e) (mpfr_emin - 2)) with false.
  2:{ symmetry. destruct (le_pow2 _ _) eqn:C; [| reflexivity].
      apply (le_pow2_spec _ _ HX) in C.
      destruct (mag_spec _ HX) as [M1 _]. rewrite HM in M1.
      assert (mpfr_emin - 2 < e + L + 1 - 1) as Hj by lia.
      apply pow2_lt_mono in Hj. exfalso.
      apply (Qlt_not_le _ _ (Qlt_le_trans _ _ _ Hj M1) C). }
  unfold lt_pow2 at 1. rewrite HM.
  replace (e + L + 1 <=? mpfr_emin - 1) with false by (symmetry; apply Z.leb_gt; lia).
  cbv zeta.
  set (j := p - L - 1).
  assert (Hj : 0 <= j) by lia.
  assert (HQ : (inject_Z (Zpos m) * pow2 e / pow2 (e + L + 1 - p)
                == inject_Z (Zpos m * 2 ^ j))%Q).
  { rewrite inject_Z_mult, <- pow2_Z by exact Hj.
    replace e with (j + (e + L + 1 - p)) at 1 by lia.
    rewrite pow2_add. field. apply Qnot_eq_sym, Qlt_not_eq, pow2_pos. }
  rewrite (rne_compat _ _ HQ), rne_Z.
  replace (mpfr_emax <? e + L + 1) with false by (symmetry; apply Z.ltb_ge; lia).
  replace (Zpos m * 2 ^ j =? 2 ^ p) with false.
  2:{ symmetry; apply Z.eqb_neq. intros C.
      assert (Zpos m * 2 ^ j < 2 ^ (L + 1) * 2 ^ j).
      { apply Z.mul_lt_mono_pos_r; [apply Z.pow_pos_nonneg; lia |].
        rewrite Z.add_1_r; exact H2. }
      rewrite <- Z.pow_add_r in H by lia.
      replace (L + 1 + j) with p in H by lia. lia. }
  rewrite andb_false_r. simpl orb. cbv iota.
  rewrite <- (Z2Nat.id j Hj), <- iter_xO_Z. unfold mk_num.
  replace (e + L + 1 - p) with (e - Z.of_nat (Z.to_nat j)) by (rewrite Z2Nat.id; lia).
  rewrite strip_shift. apply strip_odd. exact Hodd.
Qed.

Lemma mag_compat (x y : Q) : (0 < x)%Q -> (x == y)%Q -> mag x = mag y.
Proof.
  intros Hx H. destruct (mag_spec x Hx) as [M1 M2].
  symmetry; apply mag_unique; rewrite <- H; assumption.
Qed.

Lemma le_pow2_compat (x y : Q) (j : Z) :
  (0 < x)%Q -> (x == y)%Q -> le_pow2 x j = le_pow2 y j.
Proof.
  intros Hx H. assert (Hy : (0 < y)%Q) by (rewrite <- H; exact Hx).
  destruct (le_pow2 x j) eqn:C1; destruct (le_pow2 y j) eqn:C2; try reflexivity.
  - apply (le_pow2_spec _ _ Hx) in C1. rewrite H in C1.
    apply (le_pow2_spec _ _ Hy) in C1. congruence.
  - apply (le_pow2_spec _ _ Hy) in C2. rewrite <- H in C2.
    apply (le_pow2_spec _ _ Hx) in C2. congruence.
Qed.

Lemma round_pos_compat (p : Z) (s : bool) (x y : Q) :
  (0 < x)%Q -> (x == y)%Q -> round_pos p s x = round_pos p s y.
Proof.
  intros Hx H. unfold round_pos, lt_pow2.
  rewrite (le_pow2_compat x y _ Hx H), (mag_compat x y Hx H).
  rewrite (rne_compat (x / pow2 (mag y - p)) (y / pow2 (mag y - p)))
    by (rewrite H; reflexivity).
  reflexivity.
Qed.

Lemma Qltb_compat (a b c d : Q) : (a == b)%Q -> (c == d)%Q -> Qltb a c = Qltb b d.
Proof.
  intros H1 H2. unfold Qltb.
  destruct (Qle_bool c a) eqn:E1; destruct (Qle_bool d b) eqn:E2; try reflexivity.
  - apply Qle_bool_iff in E1. rewrite H1, H2 in E1. apply Qle_bool_iff in E1. congruence.
  - apply Qle_bool_iff in E2. rewrite <- H1, <- H2 in E2. apply Qle_bool_iff in E2. congruence.
Qed.

Lemma Qltb_iff (a b : Q) : Qltb a b = true <-> (a < b)%Q.
Proof.
  unfold Qltb. rewrite negb_true_iff. split; intros H.
  - apply Qnot_le_lt. intros C. apply Qle_bool_iff in C. congruence.
  - destruct (Qle_bool b a) eqn:E; [| reflexivity].
    apply Qle_bool_iff in E. exfalso; apply (Qlt_not_le _ _ H E).
Qed.

Lemma round_q_compat (p : Z) (x y : Q) (zs : bool) :
  (x == y)%Q -> round_q p x zs = round_q p y zs.
Proof.
  intros H. unfold round_q.
  destruct (Qeq_bool x 0) eqn:E1; destruct (Qeq_bool y 0) eqn:E2.
  - reflexivity.
  - apply Qeq_bool_iff in E1. rewrite H in E1. apply Qeq_bool_iff in E1. congruence.
  - apply Qeq_bool_iff in E2. rewrite <- H in E2. apply Qeq_bool_iff in E2. congruence.
  - rewrite (Qltb_compat x y 0 0 H (Qeq_refl 0)).
    assert (Hx : ~ (x == 0)%Q) by (intros C; apply Qeq_bool_iff in C; congruence).
    destruct (Qltb y 0) eqn:L.
    + apply round_pos_compat; [| rewrite H; reflexivity].
      apply Qltb_iff in L. rewrite <- H in L. lra.
    + apply round_pos_compat; [| exact H].
      rewrite <- (Qltb_compat x y 0 0 H (Qeq_refl 0)) in L.
      unfold Qltb in L. apply negb_false_iff, Qle_bool_iff in L.
      apply Qle_lteq in L as [L | L]; [exact L | exfalso; apply Hx; symmetry; exact L].
Qed.

(** Rounding a representable value (either sign) gives it back. *)
Lemma round_q_exact (p : Z) (v : mpfr) (zs : bool) (s : bool) (m : positive) (e : Z) :
  v = MNum s m e -> valid p v = true -> round_q p (fval v) zs = v.
Proof.
  intros -> HV. unfold round_q, fval, sgnQ.
  pose proof (num_pos m e) as HX.
  destruct s.
  - replace (Qeq_bool _ 0) with false
      by (symmetry; apply not_true_iff_false; rewrite Qeq_bool_iff; lra).
    replace (Qltb _ 0) with true by (symmetry; apply Qltb_iff; lra).
    rewrite <- (round_pos_exact p true m e HV).
    apply round_pos_compat; [lra | ring].
  - replace (Qeq_bool _ 0) with false
      by (symmetry; apply not_true_iff_false; rewrite Qeq_bool_iff; lra).
    replace (Qltb _ 0) with false
      by (symmetry; apply not_true_iff_false; rewrite Qltb_iff; lra).
    apply (round_pos_exact p false m e HV).
Qed.

Lemma scaled_bounds (p : Z) (x : Q) :
  (0 < x)%Q -> 0 <= p - 1 ->
  (inject_Z (2 ^ (p - 1)) <= x / pow2 (mag x - p))%Q
  /\ (x / pow2 (mag x - p) < inject_Z (2 ^ p))%Q.
Proof.
  intros Hx Hp. destruct (mag_spec x Hx) as [M1 M2].
  pose proof (pow2_pos (mag x - p)) as HP.
  rewrite <- !pow2_Z by lia. split.
  - apply Qle_shift_div_l; [exact HP |].
    rewrite <- pow2_add. replace (p - 1 + (mag x - p)) with (mag x - 1) by lia. exact M1.
  - apply Qlt_shift_div_r; [exact HP |].
    rewrite <- pow2_add. replace (p + (mag x - p)) with (mag x) by lia. exact M2.
Qed.

Lemma rne_scaled_bounds (p : Z) (x : Q) :
  (0 < x)%Q -> 0 <= p - 1 ->
  2 ^ (p - 1) <= rne (x / pow2 (mag x - p)) <= 2 ^ p.
Proof.
  intros Hx Hp. destruct (scaled_bounds p x Hx Hp) as [B1 B2].
  split.
  - rewrite <- (rne_Z (2 ^ (p - 1))). apply rne_mono, B1.
  - rewrite <- (rne_Z (2 ^ p)). apply rne_mono, Qlt_le_weak, B2.
Qed.

Lemma mk_num_valid (p : Z) (s : bool) (m k : Z) :
  0 <= p - 1 -> 2 ^ (p - 1) <= m <= 2 ^ p ->
  mpfr_emin <= k + p -> k + p + (if m =? 2 ^ p then 1 else 0) <= mpfr_emax ->
  valid p (mk_num s m k) = true.
Proof.
  intros Hp [Hm1 Hm2] Hlo Hhi.
  assert (Hm0 : 0 < m) by (pose proof (Z.pow_pos_nonneg 2 (p - 1)); lia).
  destruct m as [|pm|pm]; try lia. unfold mk_num.
  destruct (strip_spec s pm k) as [m' [j [H1 [H2 [H3 H4]]]]].
  rewrite H1. apply valid_num.
  assert (HL : Z.log2 (Zpos pm) = Z.log2 (Zpos m') + j)
    by (rewrite H3, Z.log2_mul_pow2 by lia; lia).
  assert (HLm : Z.log2 (Zpos pm) = p - 1 \/ (Zpos pm = 2 ^ p /\ Z.log2 (Zpos pm) = p)).
  { destruct (Z.eq_dec (Zpos pm) (2 ^ p)) as [E | E].
    - right; split; [exact E | rewrite E; apply Z.log2_pow2; lia].
    - left; apply Z.log2_unique; [lia |]. rewrite Z.sub_1_r, Z.succ_pred. lia. }
  split; [exact H4 |].
  destruct HLm as [HLm | [HE HLm]].
  - replace (Zpos pm =? 2 ^ p) with false in Hhi
      by (symmetry; apply Z.eqb_neq; intros C; rewrite C, Z.log2_pow2 in HLm; lia).
    pose proof (Z.log2_nonneg (Zpos m')). lia.
  - rewrite HE, Z.eqb_refl in Hhi.
    assert (Hj : j <> 0).
    { intros ->. rewrite Z.pow_0_r, Z.mul_1_r in H3. rewrite <- H3, HE in H4.
      rewrite Z.odd_pow in H4 by lia. discriminate. }
    pose proof (Z.log2_nonneg (Zpos m')). lia.
Qed.

Lemma round_pos_valid (p : Z) (s : bool) (x : Q) :
  (0 < x)%Q -> 0 <= p - 1 -> valid p (round_pos p s x) = true.
Proof.
  intros Hx Hp. unfold round_pos.
  destruct (le_pow2 x (mpfr_emin - 2)); [reflexivity |].
  destruct (lt_pow2 x (mpfr_emin - 1)) eqn:L.
  - apply valid_num. simpl. unfold mpfr_emin, mpfr_emax. lia.
  - unfold lt_pow2 in L. apply Z.leb_gt in L.
    cbv zeta.
    pose proof (rne_scaled_bounds p x Hx Hp) as B.
    destruct ((mpfr_emax <? mag x) || ((mag x =? mpfr_emax)
               && (rne (x / pow2 (mag x - p)) =? 2 ^ p))) eqn:O; [reflexivity |].
    apply orb_false_iff in O as [O1 O2]. apply Z.ltb_ge in O1.
    apply mk_num_valid; [exact Hp | exact B | lia |].
    destruct (rne (x / pow2 (mag x - p)) =? 2 ^ p) eqn:E; [| lia].
    rewrite andb_true_r in O2. apply Z.eqb_neq in O2. lia.
Qed.

Lemma round_q_valid (p : Z) (q : Q) (zs : bool) :
  0 <= p - 1 -> valid p (round_q p q zs) = true.
Proof.
  intros Hp. unfold round_q.
  destruct (Qeq_bool q 0) eqn:E; [reflexivity |].
  assert (Hq : ~ (q == 0)%Q) by (intros C; apply Qeq_bool_iff in C; congruence).
  destruct (Qltb q 0) eqn:L.
  - apply Qltb_iff in L. apply round_pos_valid; [lra | exact Hp].
  - apply round_pos_valid; [| exact Hp].
    unfold Qltb in L. apply negb_false_iff, Qle_bool_iff in L.
    apply Qle_lteq in L as [L | L]; [exact L | exfalso; apply Hq; symmetry; exact L].
Qed.

Lemma div_valid (p : Z) (x y : mpfr) : 0 <= p - 1 -> valid p (mpfr_div p x y) = true.
Proof.
  intros Hp. destruct x as [|sx|sx|sx mx ex]; destruct y as [|sy|sy|sy my ey];
  simpl; try reflexivity. apply round_q_valid, Hp.
Qed.

(** ** Exact steps of the Welford update *)

Lemma valid_sign (p : Z) (s s' : bool) (m : positive) (e : Z) :
  valid p (MNum s m e) = valid p (MNum s' m e).
Proof. reflexivity. Qed.

Lemma sub_self (p : Z) (s : bool) (m : positive) (e : Z) :
  mpfr_sub p (MNum s m e) (MNum s m e) = MZero false.
Proof.
  unfold mpfr_sub, mpfr_add, round_q; simpl.
  replace (Qeq_bool _ 0) with true; [reflexivity |].
  symmetry; apply Qeq_bool_iff; destruct s; simpl; ring.
Qed.

Lemma add_opp (p : Z) (s : bool) (m : positive) (e : Z) :
  mpfr_add p (MNum s m e) (MNum (negb s) m e) = MZero false.
Proof.
  unfold mpfr_add, round_q; simpl.
  replace (Qeq_bool _ 0) with true; [reflexivity |].
  symmetry; apply Qeq_bool_iff; destruct s; simpl; ring.
Qed.

Lemma sub_pzero (p : Z) (v : mpfr) (s : bool) (m : positive) (e : Z) :
  v = MNum s m e -> valid p v = true -> mpfr_sub p v (MZero false) = v.
Proof.
  intros -> HV.
  change (mpfr_sub p (MNum s m e) (MZero false))
    with (round_q p (fval (MNum s m e) + fval (MZero true)) false).
  rewrite <- (round_q_exact p (MNum s m e) false s m e eq_refl HV) at 2.
  apply round_q_compat; simpl; ring.
Qed.

Lemma add_pzero_l (p : Z) (v : mpfr) (s : bool) (m : positive) (e : Z) :
  v = MNum s m e -> valid p v = true -> mpfr_add p (MZero false) v = v.
Proof.
  intros -> HV.
  change (mpfr_add p (MZero false) (MNum s m e))
    with (round_q p (fval (MZero false) + fval (MNum s m e)) false).
  rewrite <- (round_q_exact p (MNum s m e) false s m e eq_refl HV) at 2.
  apply round_q_compat; simpl; ring.
Qed.

Lemma div_ui_exact (p : Z) (v : mpfr) (s : bool) (m : positive) (e : Z) (u : Z) (w : mpfr) :
  0 < u -> v = MNum s m e -> w = MNum s m (e - Z.log2 u) -> u = 2 ^ Z.log2 u ->
  valid p w = true -> mpfr_div_ui p v u = w.
Proof.
  intros Hu -> -> Hu2 HV. unfold mpfr_div_ui.
  replace (u =? 0) with false by (symmetry; apply Z.eqb_neq; lia).
  rewrite <- (round_q_exact p (MNum s m (e - Z.log2 u)) s s m _ eq_refl HV).
  apply round_q_compat. simpl fval.
  assert (Hl : 0 <= Z.log2 u) by apply Z.log2_nonneg.
  rewrite Hu2 at 1. rewrite <- pow2_Z by exact Hl.
  replace e with ((e - Z.log2 u) + Z.log2 u) at 1 by lia.
  pose proof (pow2_pos (Z.log2 u)).
  destruct s; simpl sgnQ; rewrite pow2_add; field;
  apply Qnot_eq_sym, Qlt_not_eq; assumption.
Qed.

Lemma div_ui_one (p : Z) (v : mpfr) : valid p v = true -> mpfr_div_ui p v 1 = v.
Proof.
  intros HV. destruct v as [|s|s|s m e]; try reflexivity.
  apply (div_ui_exact p _ s m e 1 (MNum s m e)); [lia | reflexivity | | reflexivity |].
  - change (Z.log2 1) with 0. rewrite Z.sub_0_r. reflexivity.
  - exact HV.
Qed.

Lemma valid_round_q_one (p : Z) (q : Q) (zs : bool) :
  0 <= p - 1 -> mpfr_div_ui p (round_q p q zs) 1 = round_q p q zs.
Proof. intros Hp; apply div_ui_one, round_q_valid, Hp. Qed.

Lemma MPFR_PREC_pos : 0 <= MPFR_PREC - 1.
Proof. unfold MPFR_PREC; lia. Qed.

Lemma reldiff_valid (y ref : mpfr) : valid MPFR_PREC (reldiff_of y ref) = true.
Proof. apply div_valid, MPFR_PREC_pos. Qed.

(** ** C8: one sample with [observed = reference] *)

Lemma C8_counterexample :
  mean (stats_add (stats_init "d" "g") (MZero false) (MZero false)) = MNaN.
Proof. vm_compute. reflexivity. Qed.

(** C8 (amended): for equal inputs that are finite and nonzero, one
    [stats_add] on a fresh cell gives [n = 1] and [mean = +0]. *)
Theorem C8_equal_inputs (dist gen : string) (y : mpfr) (s : bool) (m : positive) (e : Z)
  (Hy : y = MNum s m e) (Hv : valid MPFR_PREC y = true) :
  mean (stats_add (stats_init dist gen) y y) = MZero false
  /\ n (stats_add (stats_init dist gen) y y) = 1.
Proof.
  subst y. split; [| reflexivity].
  unfold stats_add, reldiff_of. cbn [mean n stats_init].
  rewrite sub_self.
  assert (Ha : mpfr_abs MPFR_PREC (MNum s m e) = MNum false m e).
  { unfold mpfr_abs.
    apply (round_q_exact MPFR_PREC (MNum false m e) false false m e eq_refl).
    rewrite (valid_sign _ false s); exact Hv. }
  rewrite Ha. reflexivity.
Qed.

Lemma C8_witness :
  valid MPFR_PREC one = true
  /\ mean (stats_add (stats_init "d" "g") one one) = MZero false
  /\ n (stats_add (stats_init "d" "g") one one) = 1.
Proof.
  assert (Hv : valid MPFR_PREC one = true) by reflexivity.
  split; [exact Hv |].
  exact (C8_equal_inputs "d" "g" one false 1 0 eq_refl Hv).
Defined.

(** ** C2: two samples with opposite relative errors *)

Lemma fma_num_zero_zero (p : Z) (s : bool) (m : positive) (e : Z) :
  mpfr_fma p (MNum s m e) (MZero false) (MZero false) = MZero false.
Proof.
  unfold mpfr_fma, round_q. cbn [is_zero orb sign_of].
  replace (Qeq_bool _ 0) with true; [rewrite !andb_false_r; reflexivity |].
  symmetry; apply Qeq_bool_iff; simpl; ring.
Qed.

Lemma add_self (p : Z) (s : bool) (m : positive) (e : Z) :
  valid p (MNum s m (e + 1)) = true ->
  mpfr_add p (MNum s m e) (MNum s m e) = MNum s m (e + 1).
Proof.
  intros HV.
  change (mpfr_add p (MNum s m e) (MNum s m e))
    with (round_q p (fval (MNum s m e) + fval (MNum s m e)) false).
  rewrite <- (round_q_exact p (MNum s m (e + 1)) false s m (e + 1) eq_refl HV).
  apply round_q_compat. simpl fval.
  destruct s; simpl sgnQ; rewrite pow2_succ; ring.
Qed.

Lemma C2_counterexample :
  let c := stats_add (stats_add (stats_init "d" "g") two one) (MZero false) one in
  reldiff_of two one = one /\ reldiff_of (MZero false) one = mpfr_neg one
  /\ r_variance (stats_print c) <> one.
Proof. vm_compute. split; [reflexivity | split; [reflexivity | discriminate]]. Qed.

Lemma first_sample (dist gen : string) (y r : mpfr) (s : bool) (m : positive) (x : Z) :
  reldiff_of y r = MNum s m x ->
  stats_add (stats_init dist gen) y r
  = {| distribution := dist; generator := gen; n := 1;
       mean := MNum s m x; m2 := MZero false |}.
Proof.
  intros H.
  assert (Hv : valid MPFR_PREC (MNum s m x) = true)
    by (rewrite <- H; apply reldiff_valid).
  unfold stats_add. cbn [mean m2 n distribution generator stats_init].
  rewrite H.
  rewrite (sub_pzero _ (MNum s m x) s m x eq_refl Hv).
  change ((0 + 1) mod ULONG_MOD) with 1.
  rewrite (div_ui_one _ _ Hv).
  rewrite (add_pzero_l _ (MNum s m x) s m x eq_refl Hv).
  rewrite sub_self, fma_num_zero_zero. reflexivity.
Qed.

(** C2 (amended): after relative errors [+e] and [-e] on a fresh cell,
    the mean is +0 and the reported variance is [2 e^2] rounded to 512
    bits (the sample variance [((e-0)^2 + (-e-0)^2) / (2-1)]), provided
    [2e] does not overflow. *)
Theorem C2_two_opposite (dist gen : string) (y1 r1 y2 r2 : mpfr)
  (s : bool) (m : positive) (x : Z)
  (H1 : reldiff_of y1 r1 = MNum s m x)
  (H2 : reldiff_of y2 r2 = MNum (negb s) m x)
  (Hov : x + Z.log2 (Zpos m) + 2 <= mpfr_emax) :
  mean (stats_add (stats_add (stats_init dist gen) y1 r1) y2 r2) = MZero false
  /\ n (stats_add (stats_add (stats_init dist gen) y1 r1) y2 r2) = 2
  /\ r_variance (stats_print (stats_add (stats_add (stats_init dist gen) y1 r1) y2 r2))
     = round_q MPFR_PREC (2 * (fval (MNum s m x) * fval (MNum s m x))) false.
Proof.
  assert (Hv : valid MPFR_PREC (MNum s m x) = true)
    by (rewrite <- H1; apply reldiff_valid).
  assert (Hv' : valid MPFR_PREC (MNum (negb s) m x) = true)
    by (rewrite (valid_sign _ _ s); exact Hv).
  assert (Hv2 : valid MPFR_PREC (MNum (negb s) m (x + 1)) = true).
  { pose proof Hv as Hv0. apply valid_num in Hv0 as [Ho [Hp [Hl Hh]]].
    apply valid_num. repeat split; try exact Ho; lia. }
  rewrite (first_sample dist gen y1 r1 s m x H1).
  set (c := stats_add _ y2 r2).
  assert (Hm : mean c = MZero false /\ n c = 2
               /\ m2 c = round_q MPFR_PREC (2 * (fval (MNum s m x) * fval (MNum s m x))) false).
  { subst c. unfold stats_add. cbn [mean m2 n distribution generator].
    rewrite H2.
    change (mpfr_sub MPFR_PREC (MNum (negb s) m x) (MNum s m x))
      with (mpfr_add MPFR_PREC (MNum (negb s) m x) (MNum (negb s) m x)).
    rewrite (add_self _ _ _ _ Hv2).
    change ((1 + 1) mod ULONG_MOD) with 2.
    rewrite (div_ui_exact MPFR_PREC (MNum (negb s) m (x + 1)) (negb s) m (x + 1) 2
               (MNum (negb s) m x));
      [| lia | reflexivity | change (Z.log2 2) with 1; f_equal; lia | reflexivity | exact Hv'].
    rewrite add_opp.
    rewrite (sub_pzero _ (MNum (negb s) m x) (negb s) m x eq_refl Hv').
    split; [reflexivity | split; [reflexivity |]].
    change (mpfr_fma MPFR_PREC (MNum (negb s) m (x + 1)) (MNum (negb s) m x) (MZero false))
      with (round_q MPFR_PREC (fval (MNum (negb s) m (x + 1)) * fval (MNum (negb s) m x)
                               + fval (MZero false)) false).
    apply round_q_compat. simpl fval.
    destruct s; simpl sgnQ; rewrite pow2_succ; ring. }
  destruct Hm as [Hm [Hn Hm2]]. clearbody c.
  split; [exact Hm | split; [exact Hn |]].
  unfold stats_print. rewrite Hn. cbn -[mpfr_div_ui mpfr_sqrt].
  rewrite Hm2. apply valid_round_q_one, MPFR_PREC_pos.
Qed.

Lemma C2_witness :
  reldiff_of two one = MNum false 1 0
  /\ reldiff_of (MZero false) one = MNum true 1 0
  /\ mean (stats_add (stats_add (stats_init "d" "g") two one) (MZero false) one) = MZero false.
Proof.
  assert (H1 : reldiff_of two one = MNum false 1 0) by (vm_compute; reflexivity).
  assert (H2 : reldiff_of (MZero false) one = MNum (negb false) 1 0) by (vm_compute; reflexivity).
  split; [exact H1 | split; [exact H2 |]].
  refine (proj1 (C2_two_opposite "d" "g" two one (MZero false) one false 1 0 H1 H2 _)).
  unfold mpfr_emax; simpl; lia.
Defined.

(** ** Native formats: exact rounding *)

Lemma fmt_round_pos_compat (f : fmt) (s : bool) (x y : Q) :
  (0 < x)%Q -> (x == y)%Q -> fmt_round_pos f s x = fmt_round_pos f s y.
Proof.
  intros Hx H. unfold fmt_round_pos.
  rewrite (mag_compat x y Hx H).
  rewrite (rne_compat (x / _) (y / _)) by (rewrite H; reflexivity).
  reflexivity.
Qed.

Lemma fmt_round_compat (f : fmt) (x y : Q) (zs : bool) :
  (x == y)%Q -> fmt_round f x zs = fmt_round f y zs.
Proof.
  intros H. unfold fmt_round.
  destruct (Qeq_bool x 0) eqn:E1; destruct (Qeq_bool y 0) eqn:E2.
  - reflexivity.
  - apply Qeq_bool_iff in E1. rewrite H in E1. apply Qeq_bool_iff in E1. congruence.
  - apply Qeq_bool_iff in E2. rewrite <- H in E2. apply Qeq_bool_iff in E2. congruence.
  - rewrite (Qltb_compat x y 0 0 H (Qeq_refl 0)).
    assert (Hx : ~ (x == 0)%Q) by (intros C; apply Qeq_bool_iff in C; congruence).
    destruct (Qltb y 0) eqn:L.
    + apply fmt_round_pos_compat; [| rewrite H; reflexivity].
      apply Qltb_iff in L. rewrite <- H in L. lra.
    + apply fmt_round_pos_compat; [| exact H].
      rewrite <- (Qltb_compat x y 0 0 H (Qeq_refl 0)) in L.
      unfold Qltb in L. apply negb_false_iff, Qle_bool_iff in L.
      apply Qle_lteq in L as [L | L]; [exact L | exfalso; apply Hx; symmetry; exact L].
Qed.

Lemma Q_scale (M e d : Z) :
  d <= e -> (inject_Z M * pow2 e == inject_Z (M * 2 ^ (e - d)) * pow2 d)%Q.
Proof.
  intros H. rewrite inject_Z_mult, <- pow2_Z by lia.
  rewrite <- Qmult_assoc, <- pow2_add. replace (e - d + d) with e by lia. reflexivity.
Qed.

Lemma Q_scale_le (M N d : Z) : M <= N -> (inject_Z M * pow2 d <= inject_Z N * pow2 d)%Q.
Proof.
  intros H. apply Qmult_le_r; [apply pow2_pos | rewrite <- Zle_Qle; exact H].
Qed.

(** A value [m * 2^e] that fits the precision, lies above the subnormal
    quantum and below the overflow threshold is rounded exactly. *)
Lemma fmt_round_pos_exact (f : fmt) (s : bool) (m : positive) (e : Z) :
  Z.log2 (Zpos m) < fprec f -> femin f - fprec f + 1 <= e ->
  (inject_Z (Zpos m) * pow2 e < pow2 (femax f + 1))%Q ->
  exists M k, fmt_round_pos f s (inject_Z (Zpos m) * pow2 e) = NF_Fin s M k
              /\ (inject_Z M * pow2 k == inject_Z (Zpos m) * pow2 e)%Q.
Proof.
  intros Hp He Hov. unfold fmt_round_pos. rewrite mag_num.
  assert (HL : 0 <= Z.log2 (Zpos m)) by apply Z.log2_nonneg.
  set (k := Z.max _ _).
  assert (Hk : k <= e) by (subst k; lia).
  assert (HQ : (inject_Z (Zpos m) * pow2 e / pow2 k
                == inject_Z (Zpos m * 2 ^ (e - k)))%Q).
  { rewrite (Q_scale _ e k Hk). field. apply Qnot_eq_sym, Qlt_not_eq, pow2_pos. }
  rewrite (rne_compat _ _ HQ), rne_Z.
  pose proof (Q_scale (Zpos m) e k Hk) as HV.
  replace (Qle_bool _ _) with false.
  - eexists _, _; split; [reflexivity | symmetry; exact HV].
  - symmetry. apply not_true_iff_false. rewrite Qle_bool_iff, <- HV.
    apply Qlt_not_le; exact Hov.
Qed.

Lemma PI_lo : (13176794.5 / 4194304 < PI)%R.
Proof.
  destruct (PI_2_3_7_ineq 5) as [H _].
  unfold sum_f_R0, tg_alt, PI_2_3_7_tg, Ratan_seq in H. simpl in H. lra.
Qed.

Lemma PI_hi : (PI < 13176795.5 / 4194304)%R.
Proof.
  destruct (PI_2_3_7_ineq 3) as [_ H].
  unfold sum_f_R0, tg_alt, PI_2_3_7_tg, Ratan_seq in H. simpl in H. lra.
Qed.

(** Anything up to [13176794 * 2^-23] lies below pi/2. *)
Lemma below_pid2 (q : Q) : (q <= 13176794 # 8388608)%Q -> (Q2R q < PI / 2)%R.
Proof.
  intros H. apply Qle_Rle in H. unfold Q2R at 2 in H. simpl in H.
  pose proof PI_lo. lra.
Qed.

(** ** Random inputs *)

(** A bit pattern below [2^31] with exponent field [u / 2^23 < 255]. *)
Lemma flt_of_bits_pos (u : Z) :
  0 <= u < 2 ^ 31 -> u / 2 ^ 23 < 255 ->
  flt_of_bits u =
    if u / 2 ^ 23 =? 0 then NF_Fin false (u mod 2 ^ 23) (-149)
    else NF_Fin false (2 ^ 23 + u mod 2 ^ 23) (u / 2 ^ 23 - 150).
Proof.
  intros Hu HE. unfold flt_of_bits.
  assert (Hs : Z.testbit u 31 = false).
  { destruct (Z.eq_dec u 0) as [-> | Hnz]; [reflexivity |].
    apply Z.bits_above_log2; [lia |]. apply Z.log2_lt_pow2; lia. }
  rewrite Hs.
  assert (HE0 : 0 <= u / 2 ^ 23) by (apply Z.div_pos; lia).
  assert (HL : Z.land (Z.shiftr u 23) 255 = u / 2 ^ 23).
  { change 255 with (Z.ones 8). rewrite Z.land_ones, Z.shiftr_div_pow2 by lia.
    apply Z.mod_small. change (2 ^ 8) with 256; lia. }
  rewrite HL. change (2 ^ 23 - 1) with (Z.ones 23). rewrite Z.land_ones by lia.
  replace (u / 2 ^ 23 =? 255) with false by (symmetry; apply Z.eqb_neq; lia).
  reflexivity.
Qed.

(** Every pattern drawn by [getrandom_1] is a finite float in
    [[0, 13176794 * 2^-23]]. *)
Lemma getrandom_1_bits (u : Z) :
  0 <= u < gt_pid2_int ->
  exists M e, flt_of_bits (u mod 2 ^ 32) = NF_Fin false M e /\ 0 <= M
              /\ (inject_Z M * pow2 e <= 13176794 # 8388608)%Q.
Proof.
  unfold gt_pid2_int. intros Hu.
  rewrite Z.mod_small by lia.
  assert (HE : u / 2 ^ 23 < 128).
  { apply Z.div_lt_upper_bound; lia. }
  assert (HE0 : 0 <= u / 2 ^ 23) by (apply Z.div_pos; lia).
  pose proof (Z.mod_pos_bound u (2 ^ 23) ltac:(lia)) as HR.
  pose proof (Z.div_mod u (2 ^ 23) ltac:(lia)) as HD.
  rewrite flt_of_bits_pos by lia.
  set (E := u / 2 ^ 23) in *. set (R := u mod 2 ^ 23) in *.
  assert (Hc : (13176794 # 8388608 == inject_Z (13176794 * 2 ^ 126) * pow2 (-149))%Q)
    by (unfold Qeq; vm_compute; reflexivity).
  destruct (E =? 0) eqn:E0.
  - eexists _, _; split; [reflexivity | split; [lia |]].
    rewrite Hc. apply Q_scale_le. lia.
  - apply Z.eqb_neq in E0.
    eexists _, _; split; [reflexivity | split; [lia |]].
    rewrite Hc, (Q_scale _ _ (-149)) by lia. apply Q_scale_le.
    replace (E - 150 - -149) with (E - 1) by lia.
    destruct (Z.eq_dec E 127) as [-> | HE1].
    + apply Z.mul_le_mono_nonneg_r; [lia |]. lia.
    + assert (2 ^ (E - 1) <= 2 ^ 125) by (apply Z.pow_le_mono_r; lia).
      assert (0 < 2 ^ (E - 1)) by (apply Z.pow_pos_nonneg; lia).
      assert ((2 ^ 23 + R) * 2 ^ (E - 1) <= 2 ^ 24 * 2 ^ 125) by nia.
      change (2 ^ 24 * 2 ^ 125) with (2 ^ 149) in H1. lia.
Qed.

Lemma fmt_round_positive (f : fmt) (x : Q) (zs : bool) :
  (0 < x)%Q -> fmt_round f x zs = fmt_round_pos f false x.
Proof.
  intros Hx. unfold fmt_round.
  replace (Qeq_bool x 0) with false.
  2:{ symmetry. apply not_true_iff_false. rewrite Qeq_bool_iff.
      intros C. rewrite C in Hx. discriminate. }
  replace (Qltb x 0) with false; [reflexivity |].
  symmetry. apply not_true_iff_false. rewrite Qltb_iff. lra.
Qed.

(** [(float) u] is exact for [0 <= u < 2^24]. *)
Lemma nf_of_Z_exact (u : Z) :
  0 <= u < 2 ^ 24 ->
  exists M k, nf_of_Z binary32 u = NF_Fin false M k /\ (inject_Z M * pow2 k == inject_Z u)%Q.
Proof.
  intros Hu. destruct u as [| m | m]; [| | lia].
  - exists 0, 0; split; reflexivity.
  - unfold nf_of_Z. rewrite fmt_round_positive by reflexivity.
    assert (H1 : (inject_Z (Zpos m) == inject_Z (Zpos m) * pow2 0)%Q)
      by (unfold pow2; simpl; ring).
    rewrite (fmt_round_pos_compat binary32 false (inject_Z (Zpos m)) _ (eq_refl Lt) H1).
    destruct (fmt_round_pos_exact binary32 false m 0) as [M [k [HR HV]]].
    + change (fprec binary32) with 24. apply Z.log2_lt_pow2; lia.
    + simpl. lia.
    + rewrite <- H1. change (femax binary32 + 1) with 128. rewrite pow2_Z by lia. rewrite <- Zlt_Qlt. lia.
    + exists M, k; split; [exact HR | rewrite HV; symmetry; exact H1].
Qed.

Lemma nf_of_Z_2_23 : nf_of_Z binary32 (Z.shiftl 1 23) = NF_Fin false 8388608 0.
Proof. vm_compute. reflexivity. Qed.

(** The float computed by [getrandom_2] from the draw [u] is [u * 2^-23]. *)
Lemma getrandom_2_value (u : Z) :
  0 <= u < gt_pid2_ls23_int ->
  exists M k, nf_div binary32 (nf_of_Z binary32 u) (nf_of_Z binary32 (Z.shiftl 1 23))
              = NF_Fin false M k
              /\ (inject_Z M * pow2 k == inject_Z u * pow2 (-23))%Q.
Proof.
  unfold gt_pid2_ls23_int. intros Hu.
  rewrite nf_of_Z_2_23.
  destruct (nf_of_Z_exact u ltac:(lia)) as [M [k [HA HV]]]. rewrite HA.
  unfold nf_div. cbn [nf_sign xorb nf_is_zero].
  change (8388608 =? 0) with false. cbv iota.
  destruct (Z.eqb_spec M 0) as [HM | HM].
  - subst M. exists 0, 0; split; [reflexivity |].
    assert (Hu0 : u = 0).
    { apply Qeq_sym in HV. rewrite Qmult_0_l in HV.
      rewrite <- (Qmult_0_l 1) in HV. apply inject_Z_injective. exact HV. }
    subst u. reflexivity.
  - destruct u as [| m | m]; [| | lia].
    + exfalso. apply Qmult_integral in HV as [HV | HV].
      * apply HM, inject_Z_injective. exact HV.
      * pose proof (pow2_pos k) as Hk. rewrite HV in Hk. discriminate.
    + assert (Hq : (nf_val (NF_Fin false M k) / nf_val (NF_Fin false 8388608 0)
                    == inject_Z (Zpos m) * pow2 (-23))%Q).
      { cbn [nf_val sgnQ]. rewrite HV.
        assert (H23 : (pow2 (-23) == / (inject_Z 8388608 * pow2 0))%Q)
          by (unfold Qeq; vm_compute; reflexivity).
        rewrite H23. reflexivity. }
      rewrite (fmt_round_compat _ _ _ _ Hq), fmt_round_positive
        by (apply Qmult_lt_0_compat; [reflexivity | apply pow2_pos]).
      destruct (fmt_round_pos_exact binary32 false m (-23)) as [M' [k' [HR HV']]].
      * change (fprec binary32) with 24. apply Z.log2_lt_pow2; lia.
      * simpl. lia.
      * rewrite (Q_scale 1 (femax binary32 + 1) (-23)) by (simpl; lia).
        apply Qmult_lt_r; [apply pow2_pos |]. rewrite <- Zlt_Qlt. simpl. lia.
      * exists M', k'; split; [exact HR | exact HV'].
Qed.

(** The loop test of [getrandom_3] looks at the exponent field. *)
Lemma land_exp_field (b : Z) :
  Z.land b 2139095040 = Z.shiftl (Z.land (Z.shiftr b 23) 255) 23.
Proof.
  change 2139095040 with (Z.shiftl 255 23).
  apply Z.bits_inj'; intros i Hi. rewrite Z.land_spec.
  destruct (Z.lt_ge_cases i 23).
  - rewrite !Z.shiftl_spec_low by lia. apply andb_false_r.
  - rewrite !Z.shiftl_spec_high by lia. rewrite Z.land_spec, Z.shiftr_spec by lia.
    replace (i - 23 + 23) with i by lia. reflexivity.
Qed.

Lemma flt_of_bits_finite (b : Z) :
  (Z.land b 2139095040 =? 2139095040) = false -> nf_is_finite (flt_of_bits b) = true.
Proof.
  intros H. unfold flt_of_bits.
  destruct (Z.land (Z.shiftr b 23) 255 =? 255) eqn:E.
  - apply Z.eqb_eq in E. rewrite land_exp_field, E in H. discriminate.
  - destruct (_ =? 0); reflexivity.
Qed.

Lemma getrandom_3_finite (randstate : Type) (urandomb : randstate -> Z -> Z * randstate)
      (fuel : nat) (state state' : randstate) (x : nfloat) :
  getrandom_3 urandomb fuel state = Some (x, state') -> nf_is_finite x = true.
Proof.
  revert state. induction fuel as [| fuel IH]; intros state H; [discriminate |].
  cbn [getrandom_3] in H. destruct (urandomb state 32) as [u st1].
  destruct (Z.land (u mod 2 ^ 32) 2139095040 =? 2139095040) eqn:E.
  - exact (IH _ H).
  - injection H as <- _. apply flt_of_bits_finite. exact E.
Qed.

Lemma nonneg_R (M e : Z) : 0 <= M -> (0 <= Q2R (inject_Z M * pow2 e))%R.
Proof.
  intros H. rewrite <- RMicromega.Q2R_0. apply Qle_Rle.
  apply Qmult_le_0_compat; [change 0%Q with (inject_Z 0); rewrite <- Zle_Qle; exact H
                          | apply Qlt_le_weak, pow2_pos].
Qed.

Section RandomFacts.
Variable randstate : Type.
Variable gmp_urandomm_ui : randstate -> Z -> Z * randstate.
Variable gmp_urandomb_ui : randstate -> Z -> Z * randstate.
(** GMP's documented range of [gmp_urandomm_ui]. *)
Hypothesis urandomm_range :
  forall (st : randstate) (n : Z), 0 < n -> 0 <= fst (gmp_urandomm_ui st n) < n.

Lemma getrandom_2_range (state : randstate) :
  nf_is_finite (fst (getrandom_2 gmp_urandomm_ui state)) = true
  /\ (0 <= Q2R (nf_val (fst (getrandom_2 gmp_urandomm_ui state))) < PI / 2)%R.
Proof.
  unfold getrandom_2.
  pose proof (urandomm_range state gt_pid2_ls23_int ltac:(reflexivity)) as R2.
  destruct (gmp_urandomm_ui state gt_pid2_ls23_int) as [u2 s2].
  cbn [fst] in *.
  destruct (getrandom_2_value u2 R2) as [M2 [e2 [H2 V2]]].
  rewrite H2. cbn [nf_is_finite nf_val sgnQ].
  assert (P2 : 0 <= M2).
  { destruct (Z.le_gt_cases 0 M2) as [| C]; [assumption | exfalso].
    assert (Hn : (inject_Z M2 * pow2 e2 < 0)%Q).
    { rewrite <- (Qmult_0_l (pow2 e2)). apply Qmult_lt_r; [apply pow2_pos |].
      change 0%Q with (inject_Z 0); rewrite <- Zlt_Qlt; exact C. }
    rewrite V2 in Hn. apply (Qlt_not_le _ _ Hn).
    apply Qmult_le_0_compat; [change 0%Q with (inject_Z 0); rewrite <- Zle_Qle; lia
                            | apply Qlt_le_weak, pow2_pos]. }
  split; [reflexivity | split; [apply nonneg_R; exact P2 | apply below_pid2]].
  rewrite V2. unfold gt_pid2_ls23_int in R2.
  rewrite (Q_scale _ _ (-23)) by lia.
  assert (Hc : (13176794 # 8388608 == inject_Z (13176794 * 2 ^ (-23 - -23)) * pow2 (-23))%Q)
    by (unfold Qeq; vm_compute; reflexivity).
  rewrite Hc. apply Q_scale_le. change (2 ^ (-23 - -23)) with 1. lia.
Qed.

(** C5: from every state of the random source, the three distributions
    return finite floats (for [getrandom_3]: whenever its loop exits), and
    [getrandom_1] and [getrandom_2] return values [x] with [0 <= x < pi/2]. *)
Theorem C5_distributions_finite (state : randstate) :
  nf_is_finite (fst (getrandom_1 gmp_urandomm_ui state)) = true
  /\ (0 <= Q2R (nf_val (fst (getrandom_1 gmp_urandomm_ui state))) < PI / 2)%R
  /\ nf_is_finite (fst (getrandom_2 gmp_urandomm_ui state)) = true
  /\ (0 <= Q2R (nf_val (fst (getrandom_2 gmp_urandomm_ui state))) < PI / 2)%R
  /\ (forall (fuel : nat) (x : nfloat) (state' : randstate),
        getrandom_3 gmp_urandomb_ui fuel state = Some (x, state') -> nf_is_finite x = true).
Proof.
  destruct (getrandom_2_range state) as [F2 B2].
  split; [| split; [| split; [exact F2 | split; [exact B2 |]]]].
  3:{ intros fuel x state'. apply getrandom_3_finite. }
  all: unfold getrandom_1.
  all: pose proof (urandomm_range state gt_pid2_int ltac:(reflexivity)) as R1.
  all: destruct (gmp_urandomm_ui state gt_pid2_int) as [u1 s1]; cbn [fst] in *.
  all: destruct (getrandom_1_bits u1 R1) as [M1 [e1 [H1 [P1 B1]]]].
  all: rewrite H1; cbn [nf_is_finite nf_val sgnQ].
  - reflexivity.
  - split; [apply nonneg_R; exact P1 | apply below_pid2; exact B1].
Qed.

(** C6: [getrandom_2] draws [u] in [[0, 13176795)] and returns exactly
    [u * 2^-23], a finite float in [[0, pi/2)]; [13176795] is the integer
    nearest to [2^23 * pi/2]; the conversion [(float) u] and the division
    by [2^23] are both exact in binary32.  The map from [u] to the result
    is therefore injective, and a uniform draw gives a uniform output. *)
Theorem C6_uniform_small_exact (state : randstate) :
  let u := fst (gmp_urandomm_ui state gt_pid2_ls23_int) in
  let x := fst (getrandom_2 gmp_urandomm_ui state) in
  0 <= u < gt_pid2_ls23_int
  /\ (IZR gt_pid2_ls23_int - 1 / 2 < IZR (2 ^ 23) * (PI / 2) < IZR gt_pid2_ls23_int + 1 / 2)%R
  /\ nf_is_finite x = true
  /\ (nf_val x == inject_Z u * pow2 (-23))%Q
  /\ (0 <= Q2R (nf_val x) < PI / 2)%R
  /\ (nf_val (nf_of_Z binary32 u) == inject_Z u)%Q
  /\ (nf_val x == nf_val (nf_of_Z binary32 u) / nf_val (nf_of_Z binary32 (Z.shiftl 1 23)))%Q.
Proof.
  intros u x.
  pose proof (getrandom_2_range state) as [F2 B2].
  fold x in F2, B2.
  pose proof (urandomm_range state gt_pid2_ls23_int ltac:(reflexivity)) as R2.
  fold u in R2.
  assert (Hx : x = nf_div binary32 (nf_of_Z binary32 u) (nf_of_Z binary32 (Z.shiftl 1 23))).
  { subst x u. unfold getrandom_2. destruct (gmp_urandomm_ui state _). reflexivity. }
  clearbody x u.
  destruct (getrandom_2_value u R2) as [M [k [H2 V2]]].
  assert (Hv : (nf_val x == inject_Z u * pow2 (-23))%Q).
  { rewrite Hx, H2. exact V2. }
  destruct (nf_of_Z_exact u ltac:(unfold gt_pid2_ls23_int in R2; lia)) as [M' [k' [HA VA]]].
  assert (Ha : (nf_val (nf_of_Z binary32 u) == inject_Z u)%Q).
  { rewrite HA. exact VA. }
  split; [exact R2 |].
  split; [unfold gt_pid2_ls23_int; change (2 ^ 23) with 8388608;
          pose proof PI_lo; pose proof PI_hi; lra |].
  split; [exact F2 |]. split; [exact Hv |]. split; [exact B2 |]. split; [exact Ha |].
  rewrite Hv, Ha, nf_of_Z_2_23.
  assert (H23 : (pow2 (-23) == / nf_val (NF_Fin false 8388608 0))%Q)
    by (unfold Qeq; vm_compute; reflexivity).
  rewrite H23. reflexivity.
Qed.

End RandomFacts.

Lemma counter_urandomm_range (st n : Z) : 0 < n -> 0 <= fst (counter_urandomm_ui st n) < n.
Proof. intros H. apply Z.mod_pos_bound. exact H. Qed.

Lemma C5_witness :
  nf_is_finite (fst (getrandom_1 counter_urandomm_ui 1070141402)) = true
  /\ (0 <= Q2R (nf_val (fst (getrandom_1 counter_urandomm_ui 1070141402%Z))) < PI / 2)%R.
Proof.
  destruct (C5_distributions_finite Z counter_urandomm_ui counter_urandomb_ui
              counter_urandomm_range 1070141402) as [H1 [H2 _]].
  split; [exact H1 | exact H2].
Defined.

Lemma C6_witness :
  fst (counter_urandomm_ui 13176794 gt_pid2_ls23_int) = 13176794
  /\ (nf_val (fst (getrandom_2 counter_urandomm_ui 13176794%Z))
       == inject_Z 13176794%Z * pow2 (-23))%Q.
Proof.
  split; [vm_compute; reflexivity |].
  exact (proj1 (proj2 (proj2 (proj2
           (C6_uniform_small_exact Z counter_urandomm_ui counter_urandomm_range 13176794))))).
Defined.

(** ** The main loop *)

Lemma stats_add_names_n (c : stats_t) (y r : mpfr) :
  distribution (stats_add c y r) = distribution c
  /\ generator (stats_add c y r) = generator c
  /\ n (stats_add c y r) = (n c + 1) mod ULONG_MOD.
Proof. repeat split. Qed.

Lemma run_row_rel {A : Type} (f : stats_t * A -> stats_t) (k : Z)
      (r0 row : list stats_t) (gens : list A) :
  (forall x a, distribution (f (x, a)) = distribution x
               /\ generator (f (x, a)) = generator x
               /\ n (f (x, a)) = (n x + 1) mod ULONG_MOD) ->
  Forall2 (cell_rel k) r0 row -> (List.length row <= List.length gens)%nat ->
  Forall2 (cell_rel ((k + 1) mod ULONG_MOD)) r0 (map f (combine row gens)).
Proof.
  intros Hf H. revert gens. induction H as [| x0 x r0 row Hx Hr IH]; intros gens Hl.
  - constructor.
  - destruct gens as [| a gens]; [simpl in Hl; lia |].
    simpl. constructor.
    + destruct Hx as [H1 [H2 H3]]. destruct (Hf x a) as [F1 [F2 F3]].
      unfold cell_rel. rewrite F1, F2, F3, H1, H2, H3. auto.
    + apply IH. simpl in Hl. lia.
Qed.

Section EngineFacts.
Variable sinf sin sinl sinq : nfloat -> nfloat.
Variable mpfr_sin : Z -> mpfr -> mpfr.
Variable randstate : Type.
Variable gmp_urandomm_ui : randstate -> Z -> Z * randstate.
Variable gmp_urandomb_ui : randstate -> Z -> Z * randstate.
Variable fuel3 : nat.

Let run_dist' := run_dist sinf sin sinl sinq mpfr_sin randstate.
Let run_rows' := run_rows sinf sin sinl sinq mpfr_sin randstate.
Let main_loop' := main_loop sinf sin sinl sinq mpfr_sin randstate
                    gmp_urandomm_ui gmp_urandomb_ui fuel3.

Lemma run_dist_rel (k : Z) (r0 row row' : list stats_t) code st st' :
  Forall2 (cell_rel k) r0 row -> List.length row = 4%nat ->
  run_dist' row code st = Some (row', st') ->
  Forall2 (cell_rel ((k + 1) mod ULONG_MOD)) r0 row' /\ List.length row' = 4%nat.
Proof.
  intros H Hl Hr. unfold run_dist', run_dist in Hr.
  destruct (code st) as [[phase st1] |]; [| discriminate].
  injection Hr as <- _.
  split.
  - apply run_row_rel; [| exact H | rewrite Hl; reflexivity].
    intros x a. apply stats_add_names_n.
  - rewrite length_map, length_combine, Hl. reflexivity.
Qed.

Lemma run_rows_rel (k : Z) (c0 c c' : list (list stats_t)) dists st st' :
  Forall2 (Forall2 (cell_rel k)) c0 c -> Forall (fun row => List.length row = 4%nat) c ->
  (List.length c <= List.length dists)%nat ->
  run_rows' c dists st = Some (c', st') ->
  Forall2 (Forall2 (cell_rel ((k + 1) mod ULONG_MOD))) c0 c'
  /\ Forall (fun row => List.length row = 4%nat) c'.
Proof.
  intros H. revert dists st st' c'.
  induction H as [| r0 row c0 c Hrow Hc IH]; intros dists st st' c' Hl Hd Hr.
  - unfold run_rows', run_rows in Hr. destruct dists; injection Hr as <- _; auto.
  - destruct dists as [| d dists]; [simpl in Hd; lia |].
    unfold run_rows' in Hr; cbn [run_rows] in Hr.
    inversion Hl as [| ? ? Hl1 Hl2]; subst.
    destruct (run_dist _ _ _ _ _ _ row (snd d) st) as [[row' st1] |] eqn:E1; [| discriminate].
    destruct (run_rows _ _ _ _ _ _ c dists st1) as [[c'' st2] |] eqn:E2; [| discriminate].
    injection Hr as <- <-.
    destruct (run_dist_rel k r0 row row' (snd d) st st1 Hrow Hl1 E1) as [R1 L1].
    destruct (IH dists st1 st2 c'' Hl2 ltac:(simpl in Hd; lia) E2) as [R2 L2].
    split; constructor; assumption.
Qed.

Lemma main_loop_rel (K : nat) (k : Z) (c0 c c' : list (list stats_t)) st st' :
  Forall2 (Forall2 (cell_rel (k mod ULONG_MOD))) c0 c ->
  Forall (fun row => List.length row = 4%nat) c -> List.length c = 3%nat ->
  main_loop' K c st = Some (c', st') ->
  Forall2 (Forall2 (cell_rel ((k + Z.of_nat K) mod ULONG_MOD))) c0 c'.
Proof.
  revert k c st. induction K as [| K IH]; intros k c st H Hl H3 Hr.
  - unfold main_loop', main_loop in Hr. injection Hr as <- _.
    rewrite Z.add_0_r. exact H.
  - unfold main_loop' in Hr; cbn [main_loop] in Hr.
    destruct (run_rows _ _ _ _ _ _ c _ st) as [[c1 st1] |] eqn:E; [| discriminate].
    destruct (run_rows_rel _ c0 c c1
                (distribution_tbl randstate gmp_urandomm_ui gmp_urandomb_ui fuel3)
                st st1 H Hl ltac:(rewrite H3; simpl; lia) E)
      as [R1 L1].
    assert (Hlen : List.length c1 = 3%nat).
    { apply Forall2_length in R1. apply Forall2_length in H. lia. }
    rewrite Z.add_mod_idemp_l in R1 by (unfold ULONG_MOD; lia).
    specialize (IH (k + 1) c1 st1).
    replace (k + 1 + Z.of_nat K) with (k + Z.of_nat (S K)) in IH by lia.
    apply IH; assumption.
Qed.

Lemma stats_start_rel :
  Forall2 (Forall2 (cell_rel (0 mod ULONG_MOD)))
    (stats_start sinf sin sinl sinq randstate gmp_urandomm_ui gmp_urandomb_ui fuel3)
    (stats_start sinf sin sinl sinq randstate gmp_urandomm_ui gmp_urandomb_ui fuel3)
  /\ Forall (fun row => List.length row = 4%nat)
       (stats_start sinf sin sinl sinq randstate gmp_urandomm_ui gmp_urandomb_ui fuel3)
  /\ List.length (stats_start sinf sin sinl sinq randstate gmp_urandomm_ui gmp_urandomb_ui fuel3)
     = 3%nat.
Proof.
  split; [| split; [repeat constructor | reflexivity]].
  repeat constructor.
Qed.

(** Counts after [K] iterations from the start. *)
Lemma main_loop_counts (K : nat) (st : randstate) c st' :
  main_loop' K (stats_start sinf sin sinl sinq randstate gmp_urandomm_ui gmp_urandomb_ui fuel3)
    st = Some (c, st') ->
  Forall2 (Forall2 (cell_rel (Z.of_nat K mod ULONG_MOD)))
    (stats_start sinf sin sinl sinq randstate gmp_urandomm_ui gmp_urandomb_ui fuel3) c.
Proof.
  intros Hr. destruct stats_start_rel as [H0 [Hl H3]].
  pose proof (main_loop_rel K 0 _ _ c st st' H0 Hl H3 Hr) as R.
  rewrite Z.add_0_l in R. exact R.
Qed.

Lemma run_rows_some (rows : list (list stats_t)) dists (st : randstate) :
  (forall d st1, In d dists -> snd d st1 <> None) ->
  exists r, run_rows' rows dists st = Some r.
Proof.
  intros Hd. revert dists st Hd.
  induction rows as [| row rows IH]; intros dists st Hd.
  - eexists. reflexivity.
  - destruct dists as [| d dists]; [eexists; reflexivity |].
    unfold run_rows'; cbn [run_rows].
    unfold run_dist. destruct (snd d st) as [[phase st1] |] eqn:E.
    + destruct (IH dists st1) as [[c2 st2] H2].
      { intros d' st' Hi. apply Hd. right. exact Hi. }
      unfold run_rows' in H2. rewrite H2. eexists. reflexivity.
    + exfalso. apply (Hd d st (or_introl eq_refl)). exact E.
Qed.

Lemma main_loop_some (K : nat) (c : list (list stats_t)) (st : randstate) :
  (forall d st1, In d (distribution_tbl randstate gmp_urandomm_ui gmp_urandomb_ui fuel3) ->
                 snd d st1 <> None) ->
  exists r, main_loop' K c st = Some r.
Proof.
  intros Hd. revert c st. induction K as [| K IH]; intros c st.
  - eexists. reflexivity.
  - unfold main_loop'; cbn [main_loop].
    destruct (run_rows_some c (distribution_tbl randstate gmp_urandomm_ui gmp_urandomb_ui fuel3)
                st Hd) as [[c1 st1] H1].
    unfold run_rows' in H1. rewrite H1. apply IH.
Qed.

Lemma final_report_rel (k : Z) (c0 c : list (list stats_t)) :
  Forall2 (Forall2 (cell_rel k)) c0 c ->
  Forall2 (Forall2 (fun x0 r => r_distribution r = distribution x0
                                /\ r_generator r = generator x0 /\ r_n r = k))
    c0 (final_report c).
Proof.
  intros H. unfold final_report.
  induction H as [| r0 row c0 c Hr Hc IH]; constructor; [| exact IH].
  clear Hc IH. induction Hr as [| x0 x r0 row Hx _ IH2]; constructor; [| exact IH2].
  unfold cell_rel in Hx. unfold stats_print. destruct (if 1 <? n x then _ else _).
  exact Hx.
Qed.

(** C7: after a run of exactly [K] iterations of the main loop from
    startup (each iteration draws one phase per distribution in table
    order, sets [mpfrtemp] and the shared [refsin] from it, and calls
    [stats_add] once per generator on cell [stats[dist][gen]]), the final
    report shows, for each of the 3 x 4 cells of [stats_start], the same
    names and the sample count [K mod 2^64]. *)
Theorem C7_cell_counts (K : nat) (st : randstate) c st' :
  main_loop' K (stats_start sinf sin sinl sinq randstate gmp_urandomm_ui gmp_urandomb_ui fuel3)
    st = Some (c, st') ->
  Forall2 (Forall2 (fun x0 r => r_distribution r = distribution x0
                                /\ r_generator r = generator x0
                                /\ r_n r = Z.of_nat K mod ULONG_MOD))
    (stats_start sinf sin sinl sinq randstate gmp_urandomm_ui gmp_urandomb_ui fuel3)
    (final_report c).
Proof.
  intros Hr. apply final_report_rel. exact (main_loop_counts K st c st' Hr).
Qed.

End EngineFacts.

Lemma counter_dists_some (d : string * (Z -> option (nfloat * Z))) (st : Z) :
  In d (distribution_tbl Z counter_urandomm_ui zero_urandomb_ui 1) -> snd d st <> None.
Proof.
  intros H. simpl in H.
  destruct H as [<- | [<- | [<- | []]]]; cbn; discriminate.
Qed.

(** A run of [2^64] iterations leaves every count at 0. *)
Lemma C7_counterexample :
  exists c st',
    main_loop nf_id nf_id nf_id nf_id mpfr_sin_id Z counter_urandomm_ui zero_urandomb_ui 1
      (Z.to_nat ULONG_MOD)
      (stats_start nf_id nf_id nf_id nf_id Z counter_urandomm_ui zero_urandomb_ui 1) 0
    = Some (c, st')
    /\ Forall2 (Forall2 (fun _ r => r_n r = 0 /\ r_n r <> Z.of_nat (Z.to_nat ULONG_MOD)))
         (stats_start nf_id nf_id nf_id nf_id Z counter_urandomm_ui zero_urandomb_ui 1)
         (final_report c).
Proof.
  destruct (main_loop_some nf_id nf_id nf_id nf_id mpfr_sin_id Z counter_urandomm_ui
              zero_urandomb_ui 1 (Z.to_nat ULONG_MOD)
              (stats_start nf_id nf_id nf_id nf_id Z counter_urandomm_ui zero_urandomb_ui 1) 0
              counter_dists_some) as [[c st'] Hr].
  exists c, st'. split; [exact Hr |].
  pose proof (final_report_rel _ _ _
                (main_loop_counts nf_id nf_id nf_id nf_id mpfr_sin_id Z counter_urandomm_ui
                   zero_urandomb_ui 1 _ 0 c st' Hr)) as R.
  rewrite Z2Nat.id in R by (unfold ULONG_MOD; lia).
  rewrite Z_mod_same_full in R.
  rewrite Z2Nat.id by (unfold ULONG_MOD; lia).
  revert R. apply Forall2_impl. intros r0 row. apply Forall2_impl.
  intros x0 r [_ [_ H]]. rewrite H. split; [reflexivity | unfold ULONG_MOD; lia].
Qed.

Lemma C7_witness :
  exists c st',
    main_loop nf_id nf_id nf_id nf_id mpfr_sin_id Z counter_urandomm_ui zero_urandomb_ui 1 2
      (stats_start nf_id nf_id nf_id nf_id Z counter_urandomm_ui zero_urandomb_ui 1) 0
    = Some (c, st')
    /\ Forall2 (Forall2 (fun x0 r => r_distribution r = distribution x0
                                    /\ r_generator r = generator x0
                                    /\ r_n r = Z.of_nat 2 mod ULONG_MOD))
         (stats_start nf_id nf_id nf_id nf_id Z counter_urandomm_ui zero_urandomb_ui 1)
         (final_report c).
Proof.
  eexists. eexists.
  assert (Hr : main_loop nf_id nf_id nf_id nf_id mpfr_sin_id Z counter_urandomm_ui
                 zero_urandomb_ui 1 2
                 (stats_start nf_id nf_id nf_id nf_id Z counter_urandomm_ui zero_urandomb_ui 1) 0
               = Some (_, _)) by (vm_compute; reflexivity).
  split; [exact Hr |].
  exact (C7_cell_counts nf_id nf_id nf_id nf_id mpfr_sin_id Z counter_urandomm_ui
           zero_urandomb_ui 1 2 0 _ _ Hr).
Defined.

(** ** Widening the native results *)

Lemma hex_val_digit (d : Z) : 0 <= d < 16 -> hex_val (hex_digit d) = Some d.
Proof.
  intros H. rewrite <- (Z2Nat.id d) by lia.
  assert (Hn : (Z.to_nat d < 16)%nat) by lia.
  generalize (Z.to_nat d) Hn. clear. intros k Hk.
  do 16 (destruct k as [| k]; [reflexivity |]). lia.
Qed.

Lemma dec_val_digit (d : Z) : 0 <= d < 10 -> dec_val (dec_digit d) = Some d.
Proof.
  intros H. rewrite <- (Z2Nat.id d) by lia.
  assert (Hn : (Z.to_nat d < 10)%nat) by lia.
  generalize (Z.to_nat d) Hn. clear. intros k Hk.
  do 10 (destruct k as [| k]; [reflexivity |]). lia.
Qed.

(** Reading back [j] hexadecimal digits. *)
Lemma take_hex_hexN (j : nat) (D acc : Z) (k : nat) (rest : list ascii) :
  match rest with c :: _ => hex_val c = None | [] => True end ->
  take_hex acc k (hexN j D ++ rest) = (acc * 16 ^ Z.of_nat j + D mod 16 ^ Z.of_nat j, (k + j)%nat, rest).
Proof.
  intros Hr. revert acc k. induction j as [| j IH]; intros acc k.
  - simpl. rewrite Z.mod_1_r, Nat.add_0_r, Z.mul_1_r, Z.add_0_r.
    destruct rest as [| c r]; [reflexivity |]. simpl. rewrite Hr. reflexivity.
  - cbn [hexN app take_hex].
    rewrite hex_val_digit by (apply Z.mod_pos_bound; lia).
    rewrite IH. replace (S k + j)%nat with (k + S j)%nat by lia.
    do 2 f_equal.
    rewrite Nat2Z.inj_succ, Z.pow_succ_r by lia.
    set (P := 16 ^ Z.of_nat j).
    assert (HP : 0 < P) by (apply Z.pow_pos_nonneg; lia).
    rewrite (Z.mul_comm 16 P), Z.rem_mul_r by lia.
    rewrite (Z.mul_comm P 16). ring.
Qed.

Lemma length_hexN (j : nat) (D : Z) : List.length (hexN j D) = j.
Proof. induction j; simpl; congruence. Qed.

Lemma strip_hex_spec (k : nat) (F : Z) :
  0 <= F < 16 ^ Z.of_nat k ->
  let '(j, D) := strip_hex k F in
  (j <= k)%nat /\ F = D * 16 ^ Z.of_nat (k - j) /\ 0 <= D < 16 ^ Z.of_nat j.
Proof.
  revert F. induction k as [| k IH]; intros F HF.
  - simpl. simpl in HF. lia.
  - cbn [strip_hex]. destruct (F mod 16 =? 0) eqn:E.
    + apply Z.eqb_eq in E.
      assert (HF' : 0 <= F / 16 < 16 ^ Z.of_nat k).
      { rewrite Nat2Z.inj_succ, Z.pow_succ_r in HF by lia.
        split; [apply Z.div_pos; lia | apply Z.div_lt_upper_bound; lia]. }
      specialize (IH (F / 16) HF'). destruct (strip_hex k (F / 16)) as [j D].
      destruct IH as [H1 [H2 H3]]. split; [lia | split; [| exact H3]].
      replace (S k - j)%nat with (S (k - j)) by lia.
      rewrite Nat2Z.inj_succ, Z.pow_succ_r by lia.
      rewrite (Z.div_mod F 16) at 1 by lia. rewrite E, H2. ring.
    + split; [lia | split; [rewrite Nat.sub_diag; simpl; ring | exact HF]].
Qed.

(** Reading back the decimal digits of [n]. *)
Lemma take_dec_dec_aux (f : nat) (n : Z) (l : list ascii) :
  0 <= n < 10 ^ Z.of_nat f ->
  exists L, 0 <= L /\ forall a, take_dec a (dec_aux f n l) = take_dec (a * 10 ^ L + n) l.
Proof.
  revert n l. induction f as [| f IH]; intros n l Hn.
  - simpl in Hn. exists 0. split; [lia |]. intros a. assert (n = 0) by lia. subst. simpl.
    f_equal; ring.
  - cbn [dec_aux]. destruct (n <? 10) eqn:E.
    + apply Z.ltb_lt in E. exists 1. split; [lia |]. intros a. simpl.
      rewrite dec_val_digit by (apply Z.mod_pos_bound; lia).
      rewrite Z.mod_small by lia. reflexivity.
    + apply Z.ltb_ge in E.
      assert (Hn' : 0 <= n / 10 < 10 ^ Z.of_nat f).
      { rewrite Nat2Z.inj_succ, Z.pow_succ_r in Hn by lia.
        split; [apply Z.div_pos; lia | apply Z.div_lt_upper_bound; lia]. }
      destruct (IH (n / 10) (dec_digit (n mod 10) :: l) Hn') as [L [HL0 HL]].
      exists (L + 1). split; [lia |]. intros a. rewrite HL. simpl.
      rewrite dec_val_digit by (apply Z.mod_pos_bound; lia).
      f_equal. rewrite Z.pow_add_r by lia. rewrite (Z.div_mod n 10) at 3 by lia. ring.
Qed.

Lemma length_dec_aux (f : nat) (n : Z) (l : list ascii) :
  (List.length (dec_aux f n l) <= f + List.length l)%nat.
Proof.
  revert n l. induction f as [| f IH]; intros n l; [simpl; lia |].
  cbn [dec_aux]. destruct (n <? 10); [simpl; lia |].
  specialize (IH (n / 10) (dec_digit (n mod 10) :: l)). simpl in IH. lia.
Qed.

(** Rounding a value that fits [p] bits and MPFR's exponent range gives
    the canonical MPFR number of that value. *)
Lemma round_q_mk_num (p : Z) (s : bool) (M e : Z) (q : Q) :
  0 < M -> Z.log2 M < p -> mpfr_emin <= e + Z.log2 M + 1 <= mpfr_emax ->
  (q == sgnQ s (inject_Z M * pow2 e))%Q -> round_q p q s = mk_num s M e.
Proof.
  intros HM Hp He Hq. destruct M as [| m | m]; [lia | | lia].
  unfold mk_num. destruct (strip_spec s m e) as [m' [j [H1 [H2 [H3 H4]]]]].
  rewrite H1.
  assert (HL : Z.log2 (Zpos m) = Z.log2 (Zpos m') + j)
    by (rewrite H3, Z.log2_mul_pow2 by lia; lia).
  rewrite <- (round_q_exact p (MNum s m' (e + j)) s s m' (e + j) eq_refl).
  - apply round_q_compat. rewrite Hq. unfold fval.
    destruct s; simpl sgnQ; rewrite H3, inject_Z_mult, <- pow2_Z, pow2_add by lia;
      [apply Qopp_comp |]; ring.
  - pose proof (Z.log2_nonneg (Zpos m')).
    apply valid_num. repeat split; [exact H4 | lia ..].
Qed.

Lemma round_q_zero (p : Z) (s : bool) (q : Q) : (q == 0)%Q -> round_q p q s = MZero s.
Proof.
  intros H. unfold round_q. replace (Qeq_bool q 0) with true; [reflexivity |].
  symmetry. apply Qeq_bool_iff. exact H.
Qed.

(** A value of a format whose precision and exponent range fit those of
    an MPFR variable of precision [p] is stored exactly. *)
Lemma round_q_in_fmt (f : fmt) (p : Z) (s : bool) (M e : Z) (q : Q) :
  in_fmt f (NF_Fin s M e) = true -> fprec f <= p ->
  mpfr_emin <= femin f - fprec f + 1 -> femax f + 1 <= mpfr_emax ->
  (q == sgnQ s (inject_Z M * pow2 e))%Q -> round_q p q s = mk_num s M e.
Proof.
  intros Hf Hp Hlo Hhi Hq. unfold in_fmt in Hf.
  rewrite !andb_true_iff, Z.ltb_lt, !Z.leb_le in Hf.
  destruct Hf as [[[H0 HM] He] HE].
  destruct (Z.eq_dec M 0) as [-> | HM0].
  - rewrite round_q_zero; [reflexivity |]. rewrite Hq. destruct s; simpl; ring.
  - apply round_q_mk_num; [lia | | | exact Hq].
    + apply Z.log2_lt_pow2 in HM; lia.
    + pose proof (Z.log2_nonneg M). lia.
Qed.

Lemma mpfr_set_nf_exact (f : fmt) (p : Z) (v : nfloat) :
  in_fmt f v = true -> fprec f <= p ->
  mpfr_emin <= femin f - fprec f + 1 -> femax f + 1 <= mpfr_emax ->
  mpfr_set_nf p v = nf_exact v.
Proof.
  intros Hf Hp Hlo Hhi. destruct v as [| s | s M e]; try reflexivity.
  apply (round_q_in_fmt f); try assumption. reflexivity.
Qed.

Lemma dec_aux_cons (f : nat) (n : Z) (c : ascii) (l : list ascii) :
  exists c' l', dec_aux f n (c :: l) = c' :: l'.
Proof.
  revert n c l. induction f as [| f IH]; intros n c l; [eexists _, _; reflexivity |].
  cbn [dec_aux]. destruct (n <? 10); [eexists _, _; reflexivity | apply IH].
Qed.

Lemma dec_aux_nonempty (f : nat) (n : Z) :
  exists c l, dec_aux (S f) n [] = c :: l.
Proof.
  cbn [dec_aux]. destruct (n <? 10); [eexists _, _; reflexivity | apply dec_aux_cons].
Qed.

Lemma exponent_digits (expo : Z) :
  Z.abs expo < 10 ^ 20 ->
  exists c l, dec_aux 20 (Z.abs expo) [] = c :: l /\ take_dec 0 (c :: l) = (Z.abs expo, []).
Proof.
  intros He.
  assert (HD : exists L, 0 <= L /\ forall a, take_dec a (dec_aux 20 (Z.abs expo) [])
                                      = take_dec (a * 10 ^ L + Z.abs expo) []).
  { apply take_dec_dec_aux. split; [lia | exact He]. }
  destruct HD as [L [_ HL]].
  destruct (dec_aux_nonempty 19 (Z.abs expo)) as [c [l HC]].
  exists c, l. split; [exact HC |]. rewrite <- HC, HL. reflexivity.
Qed.

Lemma hex_val_p : hex_val "p"%char = None.
Proof. reflexivity. Qed.

Lemma hex_val_dot : hex_val "."%char = None.
Proof. reflexivity. Qed.

(** Reading back the [%a] text of a nonzero finite value. *)
Lemma strtofr_qa (p : Z) (s : bool) (lead expo D : Z) (j : nat) :
  0 <= lead < 16 -> 0 <= D < 16 ^ Z.of_nat j -> Z.abs expo < 10 ^ 20 ->
  mpfr_strtofr p
    (qa_sign s ++ ["0"; "x"]%char ++ [hex_digit lead]
     ++ (match j with O => [] | _ => "."%char :: hexN j D end)
     ++ "p"%char :: (if expo <? 0 then "-"%char else "+"%char)
     :: dec_aux 20 (Z.abs expo) [])
  = Some (round_q p (sgnQ s (inject_Z (lead * 16 ^ Z.of_nat j + D)
                             * pow2 (-4 * Z.of_nat j + expo))) s).
Proof.
  intros Hl HD He.
  destruct (exponent_digits expo He) as [c [l [HC HT]]]. rewrite HC.
  unfold mpfr_strtofr.
  replace (parse_sign _) with
    (s, "0"%char :: "x"%char :: hex_digit lead
          :: (match j with O => [] | _ => "."%char :: hexN j D end)
          ++ "p"%char :: (if expo <? 0 then "-"%char else "+"%char) :: c :: l)
    by (destruct s; reflexivity).
  cbv iota beta. cbn [orb Ascii.eqb Bool.eqb].
  unfold parse_hex_body. cbn [take_hex]. rewrite hex_val_digit by exact Hl.
  destruct j as [| j].
  - cbn [app take_hex]. rewrite hex_val_p. cbv iota beta.
    cbn [Nat.add Nat.eqb orb Ascii.eqb Bool.eqb].
    simpl in HD. replace D with 0 by lia.
    rewrite Z.mul_0_l, Z.add_0_l.
    destruct (expo <? 0) eqn:E; cbn [parse_sign]; rewrite HT; cbv iota beta;
      [apply Z.ltb_lt in E; replace (- Z.abs expo) with expo by lia
      | apply Z.ltb_ge in E; replace (Z.abs expo) with expo by lia]; reflexivity.
  - cbn [app take_hex]. rewrite hex_val_dot. cbv iota beta.
    rewrite take_hex_hexN by exact hex_val_p. cbv iota beta.
    cbn [Nat.add Nat.eqb orb Ascii.eqb Bool.eqb].
    rewrite Z.mod_small by exact HD.
    rewrite Z.mul_0_l, Z.add_0_l.
    destruct (expo <? 0) eqn:E; cbn [parse_sign]; rewrite HT; cbv iota beta;
      [apply Z.ltb_lt in E; replace (- Z.abs expo) with expo by lia
      | apply Z.ltb_ge in E; replace (Z.abs expo) with expo by lia]; reflexivity.
Qed.

Lemma pow16 (j : Z) : 0 <= j -> 16 ^ j = 2 ^ (4 * j).
Proof. intros H. rewrite Z.pow_mul_r by lia. reflexivity. Qed.

(** The [%a] text of a nonzero binary128 value, piece by piece. *)
Lemma qa_chars_num (s : bool) (M e : Z) :
  in_fmt binary128 (NF_Fin s M e) = true -> 0 < M ->
  exists lead expo D j,
    qa_chars (NF_Fin s M e)
    = qa_sign s ++ ["0"; "x"]%char ++ [hex_digit lead]
      ++ (match j with O => [] | _ => "."%char :: hexN j D end)
      ++ "p"%char :: (if expo <? 0 then "-"%char else "+"%char)
      :: dec_aux 20 (Z.abs expo) []
    /\ 0 <= lead < 16 /\ 0 <= D < 16 ^ Z.of_nat j /\ (j <= 28)%nat
    /\ Z.abs expo < 10 ^ 20
    /\ (inject_Z (lead * 16 ^ Z.of_nat j + D) * pow2 (-4 * Z.of_nat j + expo)
        == inject_Z M * pow2 e)%Q.
Proof.
  intros Hf HM. unfold in_fmt in Hf. cbn [fprec femin femax binary128] in Hf.
  rewrite !andb_true_iff, Z.ltb_lt, !Z.leb_le in Hf.
  destruct Hf as [[[_ HM2] He] HE].
  pose proof (Z.log2_nonneg M) as HL0.
  destruct (Z.log2_spec M HM) as [HL1 HL2].
  assert (HL : Z.log2 M <= 112) by (apply Z.log2_lt_pow2 in HM2; lia).
  unfold qa_chars. replace (M =? 0) with false by (symmetry; apply Z.eqb_neq; lia).
  set (E := Z.log2 M + e).
  assert (Hcase : exists lead expo q,
             (if E <? -16382 then (0, -16382, -16494) else (1, E, E - 112))
             = (lead, expo, q)
             /\ q = expo - 112 /\ q <= e /\ (lead = 0 \/ lead = 1) /\ Z.abs expo <= 16494
             /\ lead * 2 ^ 112 <= M * 2 ^ (e - q) < lead * 2 ^ 112 + 2 ^ 112).
  { destruct (E <? -16382) eqn:C.
    - apply Z.ltb_lt in C. exists 0, (-16382), (-16494).
      split; [reflexivity |]. split; [lia |]. split; [lia |]. split; [lia |].
      split; [lia |]. split; [pose proof (Z.pow_pos_nonneg 2 (e - -16494)); nia |].
      assert (2 ^ (Z.log2 M + 1) * 2 ^ (e - -16494) <= 2 ^ 112).
      { rewrite <- Z.pow_add_r by lia. apply Z.pow_le_mono_r; lia. }
      assert (M * 2 ^ (e - -16494) < 2 ^ (Z.log2 M + 1) * 2 ^ (e - -16494)).
      { apply Z.mul_lt_mono_pos_r; [apply Z.pow_pos_nonneg; lia |].
        rewrite Z.add_1_r. exact HL2. }
      lia.
    - apply Z.ltb_ge in C. exists 1, E, (E - 112).
      split; [reflexivity |]. split; [lia |]. split; [lia |]. split; [lia |].
      split; [lia |].
      replace (e - (E - 112)) with (112 - Z.log2 M) by lia.
      assert (2 ^ Z.log2 M * 2 ^ (112 - Z.log2 M) = 2 ^ 112)
        by (rewrite <- Z.pow_add_r by lia; f_equal; lia).
      assert (2 ^ (Z.log2 M + 1) * 2 ^ (112 - Z.log2 M) = 2 ^ 113)
        by (rewrite <- Z.pow_add_r by lia; f_equal; lia).
      assert (0 < 2 ^ (112 - Z.log2 M)) by (apply Z.pow_pos_nonneg; lia).
      rewrite Z.add_1_r, Z.pow_succ_r in * by lia.
      split; nia. }
  destruct Hcase as [lead [expo [q [Hq [Hqe [Hqle [Hlead [Hexpo HF]]]]]]]].
  rewrite Hq.
  set (F := Z.shiftl M (e - q) - lead * 2 ^ 112).
  assert (HFv : F = M * 2 ^ (e - q) - lead * 2 ^ 112)
    by (unfold F; rewrite Z.shiftl_mul_pow2 by lia; reflexivity).
  assert (HF16 : 0 <= F < 16 ^ Z.of_nat 28) by (rewrite HFv; simpl; lia).
  pose proof (strip_hex_spec 28 F HF16) as HS.
  destruct (strip_hex 28 F) as [j D] eqn:Ej.
  destruct HS as [Hj [HFD HD]].
  exists lead, expo, D, j.
  split; [reflexivity |].
  split; [lia |]. split; [exact HD |]. split; [exact Hj |]. split; [simpl; lia |].
  rewrite (Q_scale M e q Hqle).
  rewrite (Q_scale _ (-4 * Z.of_nat j + expo) q) by lia.
  replace ((lead * 16 ^ Z.of_nat j + D) * 2 ^ (-4 * Z.of_nat j + expo - q))
    with (M * 2 ^ (e - q)); [reflexivity |].
  replace (-4 * Z.of_nat j + expo - q) with (4 * Z.of_nat (28 - j)) by lia.
  rewrite HFv in HFD. rewrite pow16 in HFD by lia. rewrite pow16 by lia.
  assert (HJ : 2 ^ (4 * Z.of_nat j) * 2 ^ (4 * Z.of_nat (28 - j)) = 2 ^ 112)
    by (rewrite <- Z.pow_add_r by lia; f_equal; lia).
  rewrite Z.mul_add_distr_r, <- Z.mul_assoc, HJ. lia.
Qed.

(** Printing a binary128 value with [%Qa] into 64 bytes and reading it
    back with [mpfr_set_str] at 113 bits or more gives the value exactly. *)
Lemma qa_round_trip (p : Z) (v : nfloat) :
  in_fmt binary128 v = true -> 113 <= p ->
  mpfr_set_str p (quadmath_snprintf_Qa 64 v) = nf_exact v.
Proof.
  intros Hf Hp. unfold mpfr_set_str, quadmath_snprintf_Qa.
  rewrite list_ascii_of_string_of_list_ascii.
  destruct v as [| s | s M e].
  - reflexivity.
  - destruct s; reflexivity.
  - destruct (Z.eq_dec M 0) as [-> | HM0].
    + destruct s; reflexivity.
    + assert (HM : 0 < M).
      { unfold in_fmt in Hf. rewrite !andb_true_iff, !Z.leb_le in Hf. lia. }
      destruct (qa_chars_num s M e Hf HM)
        as (lead & expo & D & j & Hq & Hl & HD & Hj & Hx & Hv).
      rewrite Hq. rewrite firstn_all2.
      2:{ pose proof (length_dec_aux 20 (Z.abs expo) []) as HL.
          rewrite !List.length_app. cbn [List.length] in *.
          destruct s, j; cbn [qa_sign List.length]; rewrite ?length_hexN; lia. }
      rewrite strtofr_qa by assumption.
      apply (round_q_in_fmt binary128); try assumption;
        try (unfold mpfr_emin, mpfr_emax; cbn; lia).
      unfold sgnQ. destruct s; rewrite Hv; reflexivity.
Qed.

(** C9: whenever each native sine returns a value of its own format, each
    of the four evaluators [getsin_flt], [getsin_d], [getsin_ld] and
    [getsin_q], writing into the 144-bit [mpfrtemp], stores exactly the
    native result: the widening to MPFR rounds nothing, including the
    round trip of the [__float128] result through its [%Qa] text. *)
Theorem C9_widening_exact (sinf sin sinl sinq : nfloat -> nfloat) (x : nfloat) :
  in_fmt binary32 (sinf x) = true ->
  in_fmt binary64 (sin (nf_convert binary64 x)) = true ->
  in_fmt x87_extended (sinl (nf_convert x87_extended x)) = true ->
  in_fmt binary128 (sinq (nf_convert binary128 x)) = true ->
  getsin_flt sinf mpfrtemp_prec x = nf_exact (sinf x)
  /\ getsin_d sin mpfrtemp_prec x = nf_exact (sin (nf_convert binary64 x))
  /\ getsin_ld sinl mpfrtemp_prec x = nf_exact (sinl (nf_convert x87_extended x))
  /\ getsin_q sinq mpfrtemp_prec x = nf_exact (sinq (nf_convert binary128 x)).
Proof.
  intros H1 H2 H3 H4.
  unfold getsin_flt, getsin_d, getsin_ld, getsin_q, mpfr_set_flt, mpfr_set_d,
    mpfr_set_ld.
  split; [| split; [| split]].
  - apply (mpfr_set_nf_exact binary32); try assumption;
      unfold mpfrtemp_prec, mpfr_emin, mpfr_emax; cbn; lia.
  - apply (mpfr_set_nf_exact binary64); try assumption;
      unfold mpfrtemp_prec, mpfr_emin, mpfr_emax; cbn; lia.
  - apply (mpfr_set_nf_exact x87_extended); try assumption;
      unfold mpfrtemp_prec, mpfr_emin, mpfr_emax; cbn; lia.
  - apply qa_round_trip; [assumption | unfold mpfrtemp_prec; lia].
Qed.

Lemma C9_witness :
  let x := NF_Fin false 3 (-4) in
  (in_fmt binary32 (nf_convert binary32 x) = true
   /\ in_fmt binary64 (nf_convert binary64 (nf_convert binary64 x)) = true
   /\ in_fmt x87_extended (nf_convert x87_extended (nf_convert x87_extended x)) = true
   /\ in_fmt binary128 (nf_convert binary128 (nf_convert binary128 x)) = true)
  /\ (getsin_flt (nf_convert binary32) mpfrtemp_prec x = nf_exact (nf_convert binary32 x)
  /\ getsin_d (nf_convert binary64) mpfrtemp_prec x
     = nf_exact (nf_convert binary64 (nf_convert binary64 x))
  /\ getsin_ld (nf_convert x87_extended) mpfrtemp_prec x
     = nf_exact (nf_convert x87_extended (nf_convert x87_extended x))
  /\ getsin_q (nf_convert binary128) mpfrtemp_prec x
     = nf_exact (nf_convert binary128 (nf_convert binary128 x))).
Proof.
  intros x. split; [vm_compute; repeat split |].
  apply (C9_widening_exact (nf_convert binary32) (nf_convert binary64)
           (nf_convert x87_extended) (nf_convert binary128) x);
    vm_compute; reflexivity.
Defined.

(** ** Monotonicity of rounding *)

Lemma strip_negb (m : positive) (e : Z) : strip true m e = mpfr_neg (strip false m e).
Proof. revert e; induction m; intros e; simpl; auto. Qed.

Lemma mk_num_neg (m k : Z) : mk_num true m k = mpfr_neg (mk_num false m k).
Proof. destruct m; simpl; [reflexivity | apply strip_negb | reflexivity]. Qed.

Lemma round_pos_neg (p : Z) (x : Q) : round_pos p true x = mpfr_neg (round_pos p false x).
Proof.
  unfold round_pos. destruct (le_pow2 _ _); [reflexivity |].
  destruct (lt_pow2 _ _); [reflexivity |]. cbv zeta.
  destruct (_ || _); [reflexivity | apply mk_num_neg].
Qed.

Lemma fval_neg (x : mpfr) : (fval (mpfr_neg x) == - fval x)%Q.
Proof. destruct x as [| | | [|] m e]; simpl; ring. Qed.

Lemma is_finite_neg (x : mpfr) : is_finite (mpfr_neg x) = is_finite x.
Proof. destruct x; reflexivity. Qed.

Lemma is_finite_mk_num (s : bool) (m k : Z) : is_finite (mk_num s m k) = true.
Proof.
  destruct m as [|pm|pm]; try reflexivity. unfold mk_num.
  destruct (strip_spec s pm k) as [m' [j [-> _]]]. reflexivity.
Qed.

Lemma fval_mk_num (s : bool) (m k : Z) :
  0 <= m -> (fval (mk_num s m k) == sgnQ s (inject_Z m * pow2 k))%Q.
Proof.
  intros Hm. destruct m as [|pm|pm]; [destruct s; simpl; ring | | lia].
  unfold mk_num. destruct (strip_spec s pm k) as [m' [j [-> [Hj [HE _]]]]].
  unfold fval. rewrite HE, inject_Z_mult.
  destruct s; unfold sgnQ; rewrite pow2_add, <- (pow2_Z j Hj); ring.
Qed.

Lemma fval_pow2 (s : bool) (k : Z) : (fval (MNum s 1 k) == sgnQ s (pow2 k))%Q.
Proof. destruct s; simpl; ring. Qed.

Lemma mag_le (x y : Q) : (0 < x)%Q -> (x <= y)%Q -> mag x <= mag y.
Proof.
  intros Hx H. assert (Hy : (0 < y)%Q) by lra.
  destruct (mag_spec x Hx) as [X1 _]. destruct (mag_spec y Hy) as [_ Y2].
  assert (mag x - 1 < mag y) by (apply pow2_lt_inv; lra). lia.
Qed.

Lemma num_ge_pow2 (s : bool) (p : Z) (m : positive) (e : Z) :
  valid p (MNum s m e) = true ->
  (pow2 (mpfr_emin - 1) <= inject_Z (Zpos m) * pow2 e)%Q.
Proof.
  intros HV. apply valid_num in HV as [_ [_ [Hlo _]]].
  destruct (mag_spec _ (num_pos m e)) as [M1 _]. rewrite mag_num in M1.
  eapply Qle_trans; [| exact M1]. apply pow2_le_mono. lia.
Qed.

(** The value of the main branch of [round_pos]. *)
Lemma round_pos_main_val (p : Z) (x : Q) :
  (0 < x)%Q -> 0 <= p - 1 ->
  (fval (mk_num false (rne (x / pow2 (mag x - p))) (mag x - p))
   == inject_Z (rne (x / pow2 (mag x - p))) * pow2 (mag x - p))%Q.
Proof.
  intros Hx Hp. pose proof (rne_scaled_bounds p x Hx Hp) as B.
  pose proof (Z.pow_pos_nonneg 2 (p - 1)).
  rewrite fval_mk_num by lia. reflexivity.
Qed.

(** Rounding a positive [x] below a positive representable [v] gives a
    finite value at most [v]. *)
Lemma round_pos_le (p : Z) (x : Q) (m : positive) (e : Z) :
  0 <= p - 1 -> valid p (MNum false m e) = true -> (0 < x)%Q ->
  (x <= inject_Z (Zpos m) * pow2 e)%Q ->
  is_finite (round_pos p false x) = true
  /\ (fval (round_pos p false x) <= inject_Z (Zpos m) * pow2 e)%Q.
Proof.
  intros Hp HV Hx Hxv.
  pose proof (num_ge_pow2 _ _ _ _ HV) as Hmin.
  pose proof HV as HV'. apply valid_num in HV' as [_ [HL [Hlo Hhi]]].
  set (L := Z.log2 (Zpos m)) in *.
  pose proof (Z.log2_nonneg (Zpos m)) as HL0. fold L in HL0.
  destruct (Z.log2_spec (Zpos m) eq_refl) as [_ Hm2]. fold L in Hm2.
  pose proof (mag_num m e) as HMv. fold L in HMv.
  pose proof (num_pos m e) as Hv.
  destruct (mag_spec _ Hv) as [V1 V2]. rewrite HMv in V1, V2.
  assert (HE : mag x <= e + L + 1) by (rewrite <- HMv; apply mag_le; assumption).
  unfold round_pos.
  destruct (le_pow2 x (mpfr_emin - 2)); [split; [reflexivity | simpl; lra] |].
  destruct (lt_pow2 x (mpfr_emin - 1)).
  { split; [reflexivity |]. rewrite fval_pow2. exact Hmin. }
  cbv zeta. set (E := mag x) in *. set (k := E - p).
  pose proof (rne_scaled_bounds p x Hx Hp) as B. fold E k in B.
  set (mm := rne (x / pow2 k)) in *.
  assert (Hval : (fval (mk_num false mm k) == inject_Z mm * pow2 k)%Q)
    by (rewrite fval_mk_num by (pose proof (Z.pow_pos_nonneg 2 (p - 1)); lia); reflexivity).
  destruct (Z.lt_ge_cases E (e + L + 1)) as [Hlt | Hge].
  - replace ((mpfr_emax <? E) || ((E =? mpfr_emax) && (mm =? 2 ^ p))) with false
      by (symmetry; apply orb_false_iff; split;
          [apply Z.ltb_ge; lia | apply andb_false_iff; left; apply Z.eqb_neq; lia]).
    split; [apply is_finite_mk_num |]. rewrite Hval.
    apply Qle_trans with (inject_Z (2 ^ p) * pow2 k)%Q.
    { apply Q_scale_le. lia. }
    rewrite <- pow2_Z by lia. rewrite <- pow2_add.
    apply Qle_trans with (pow2 (e + L)); [apply pow2_le_mono; unfold k; lia |].
    replace (e + L) with (e + L + 1 - 1) by lia. exact V1.
  - assert (Hk : k <= e) by (unfold k; lia).
    set (V := Zpos m * 2 ^ (e - k)).
    assert (HV2 : (inject_Z (Zpos m) * pow2 e == inject_Z V * pow2 k)%Q)
      by (apply Q_scale; exact Hk).
    assert (HVlt : V < 2 ^ p).
    { unfold V. replace (2 ^ p) with (2 ^ (L + 1) * 2 ^ (e - k))
        by (rewrite <- Z.pow_add_r by (unfold k; lia); f_equal; unfold k; lia).
      apply Z.mul_lt_mono_pos_r;
        [apply Z.pow_pos_nonneg; lia | rewrite Z.add_1_r; exact Hm2]. }
    assert (Hmm : mm <= V).
    { unfold mm. rewrite <- (rne_Z V). apply rne_mono.
      apply Qle_shift_div_r; [apply pow2_pos |]. rewrite <- HV2. exact Hxv. }
    replace ((mpfr_emax <? E) || ((E =? mpfr_emax) && (mm =? 2 ^ p))) with false
      by (symmetry; apply orb_false_iff; split;
          [apply Z.ltb_ge; lia | apply andb_false_iff; right; apply Z.eqb_neq; lia]).
    split; [apply is_finite_mk_num |]. rewrite Hval, HV2. apply Q_scale_le. exact Hmm.
Qed.

(** Rounding a positive [x] above a positive representable [v] gives
    [+Inf] or a finite value at least [v]. *)
Lemma round_pos_ge (p : Z) (x : Q) (m : positive) (e : Z) :
  0 <= p - 1 -> valid p (MNum false m e) = true ->
  (inject_Z (Zpos m) * pow2 e <= x)%Q ->
  round_pos p false x = MInf false
  \/ (is_finite (round_pos p false x) = true
      /\ (inject_Z (Zpos m) * pow2 e <= fval (round_pos p false x))%Q).
Proof.
  intros Hp HV Hxv.
  pose proof (num_ge_pow2 _ _ _ _ HV) as Hmin.
  pose proof HV as HV'. apply valid_num in HV' as [_ [HL [Hlo Hhi]]].
  set (L := Z.log2 (Zpos m)) in *.
  pose proof (Z.log2_nonneg (Zpos m)) as HL0. fold L in HL0.
  pose proof (mag_num m e) as HMv. fold L in HMv.
  pose proof (num_pos m e) as Hv.
  assert (Hx : (0 < x)%Q) by lra.
  destruct (mag_spec _ Hv) as [V1 V2]. rewrite HMv in V1, V2.
  assert (HE : e + L + 1 <= mag x) by (rewrite <- HMv; apply mag_le; assumption).
  unfold round_pos.
  destruct (le_pow2 x (mpfr_emin - 2)) eqn:C1.
  { exfalso. apply (le_pow2_spec _ _ Hx) in C1.
    assert (mpfr_emin - 2 < mpfr_emin - 1) as Hj by lia. apply pow2_lt_mono in Hj. lra. }
  destruct (lt_pow2 x (mpfr_emin - 1)) eqn:C2.
  { exfalso. apply (lt_pow2_spec _ _ Hx) in C2. lra. }
  cbv zeta. set (E := mag x) in *. set (k := E - p).
  pose proof (rne_scaled_bounds p x Hx Hp) as B. fold E k in B.
  set (mm := rne (x / pow2 k)) in *.
  destruct ((mpfr_emax <? E) || ((E =? mpfr_emax) && (mm =? 2 ^ p))); [left; reflexivity |].
  right. split; [apply is_finite_mk_num |].
  rewrite fval_mk_num by (pose proof (Z.pow_pos_nonneg 2 (p - 1)); lia). unfold sgnQ.
  destruct (Z.lt_ge_cases (e + L + 1) E) as [Hlt | Hle].
  - apply Qle_trans with (pow2 (e + L + 1)); [lra |].
    apply Qle_trans with (inject_Z (2 ^ (p - 1)) * pow2 k)%Q.
    + rewrite <- pow2_Z by lia. rewrite <- pow2_add. apply pow2_le_mono. unfold k; lia.
    + apply Q_scale_le. lia.
  - assert (Hk : k <= e) by (unfold k; lia).
    set (V := Zpos m * 2 ^ (e - k)).
    assert (HV2 : (inject_Z (Zpos m) * pow2 e == inject_Z V * pow2 k)%Q)
      by (apply Q_scale; exact Hk).
    assert (Hmm : V <= mm).
    { unfold mm. rewrite <- (rne_Z V). apply rne_mono.
      apply Qle_shift_div_l; [apply pow2_pos |]. rewrite <- HV2. exact Hxv. }
    rewrite HV2. apply Q_scale_le. exact Hmm.
Qed.

(** The result of rounding a positive value is positive. *)
Lemma round_pos_nonneg (p : Z) (x : Q) :
  0 <= p - 1 -> (0 < x)%Q ->
  round_pos p false x = MInf false
  \/ (is_finite (round_pos p false x) = true /\ (0 <= fval (round_pos p false x))%Q).
Proof.
  intros Hp Hx. unfold round_pos.
  destruct (le_pow2 _ _); [right; split; [reflexivity | simpl; lra] |].
  destruct (lt_pow2 _ _).
  { right; split; [reflexivity |]. rewrite fval_pow2. apply Qlt_le_weak, pow2_pos. }
  cbv zeta. destruct (_ || _); [left; reflexivity |].
  right. split; [apply is_finite_mk_num |].
  pose proof (rne_scaled_bounds p x Hx Hp).
  pose proof (Z.pow_pos_nonneg 2 (p - 1)).
  rewrite fval_mk_num by lia. unfold sgnQ.
  apply Qmult_le_0_compat; [change 0%Q with (inject_Z 0); rewrite <- Zle_Qle; lia |].
  apply Qlt_le_weak, pow2_pos.
Qed.

(** A finite rounded positive value is at most [2^(mag x)]. *)
Lemma round_pos_le_mag (p : Z) (x : Q) :
  0 <= p - 1 -> (0 < x)%Q -> is_finite (round_pos p false x) = true ->
  (fval (round_pos p false x) <= pow2 (mag x))%Q.
Proof.
  intros Hp Hx Hf. destruct (mag_spec x Hx) as [M1 M2]. unfold round_pos in *.
  destruct (le_pow2 x (mpfr_emin - 2)) eqn:C1; [simpl; apply Qlt_le_weak, pow2_pos |].
  destruct (lt_pow2 x (mpfr_emin - 1)).
  { rewrite fval_pow2. apply pow2_le_mono.
    assert (~ (x <= pow2 (mpfr_emin - 2))%Q) as N
      by (intros C; apply (le_pow2_spec _ _ Hx) in C; congruence).
    assert (mpfr_emin - 2 < mag x) as Hj; [| lia].
    apply pow2_lt_inv. lra. }
  cbv zeta in *. destruct (_ || _); [discriminate |].
  pose proof (rne_scaled_bounds p x Hx Hp).
  pose proof (Z.pow_pos_nonneg 2 (p - 1)).
  rewrite fval_mk_num by lia. unfold sgnQ.
  apply Qle_trans with (inject_Z (2 ^ p) * pow2 (mag x - p))%Q.
  - apply Q_scale_le. lia.
  - rewrite <- pow2_Z by lia. rewrite <- pow2_add. apply pow2_le_mono. lia.
Qed.

Lemma round_pos_tiny (p : Z) (s : bool) (x : Q) :
  (0 < x)%Q -> (x <= pow2 (mpfr_emin - 2))%Q -> round_pos p s x = MZero s.
Proof.
  intros Hx H. unfold round_pos. apply (le_pow2_spec _ _ Hx) in H. rewrite H. reflexivity.
Qed.

Lemma round_q_pos (p : Z) (q : Q) (zs : bool) :
  (0 < q)%Q -> round_q p q zs = round_pos p false q.
Proof.
  intros H. unfold round_q.
  replace (Qeq_bool q 0) with false
    by (symmetry; apply not_true_iff_false; rewrite Qeq_bool_iff; lra).
  replace (Qltb q 0) with false
    by (symmetry; apply not_true_iff_false; rewrite Qltb_iff; lra).
  reflexivity.
Qed.

Lemma round_q_neg (p : Z) (q : Q) (zs : bool) :
  (q < 0)%Q -> round_q p q zs = mpfr_neg (round_pos p false (- q)).
Proof.
  intros H. unfold round_q.
  replace (Qeq_bool q 0) with false
    by (symmetry; apply not_true_iff_false; rewrite Qeq_bool_iff; lra).
  replace (Qltb q 0) with true by (symmetry; apply Qltb_iff; lra).
  apply round_pos_neg.
Qed.

Lemma round_q_zero_val (p : Z) (q : Q) (zs : bool) :
  (q == 0)%Q -> is_finite (round_q p q zs) = true /\ (fval (round_q p q zs) == 0)%Q.
Proof. intros H. rewrite round_q_zero by exact H. split; reflexivity. Qed.

(** Rounding is monotone against representable bounds: below [w] it
    stays below [w] (or goes to [-Inf]) ... *)
Lemma round_q_le (p : Z) (q : Q) (zs : bool) (w : mpfr) :
  0 <= p - 1 -> valid p w = true -> is_finite w = true -> (q <= fval w)%Q ->
  round_q p q zs = MInf true
  \/ (is_finite (round_q p q zs) = true /\ (fval (round_q p q zs) <= fval w)%Q).
Proof.
  intros Hp HV Hw Hq.
  destruct (Qlt_le_dec q 0) as [Hn | Hnn].
  - rewrite (round_q_neg p q zs Hn).
    assert (Hq' : (0 < - q)%Q) by lra.
    destruct w as [| | sw | [|] m e]; try discriminate.
    + destruct (round_pos_nonneg p (- q) Hp Hq') as [-> | [Hf Hv]]; [left; reflexivity |].
      right. rewrite is_finite_neg, fval_neg. simpl fval in *. split; [exact Hf | lra].
    + rewrite (valid_sign p true false) in HV.
      simpl fval in Hq.
      destruct (round_pos_ge p (- q) m e Hp HV ltac:(lra)) as [-> | [Hf Hv]];
        [left; reflexivity |].
      right. rewrite is_finite_neg, fval_neg. simpl fval. split; [exact Hf | lra].
    + destruct (round_pos_nonneg p (- q) Hp Hq') as [-> | [Hf Hv]]; [left; reflexivity |].
      right. rewrite is_finite_neg, fval_neg. split; [exact Hf |].
      pose proof (num_pos m e). simpl fval. lra.
  - destruct (Qeq_dec q 0) as [Hz | Hz].
    + right. destruct (round_q_zero_val p q zs Hz) as [Hf Hv].
      split; [exact Hf |]. rewrite Hv. rewrite Hz in Hq. exact Hq.
    + assert (Hpos : (0 < q)%Q) by (apply Qle_lteq in Hnn as [H | H];
                                     [exact H | exfalso; apply Hz; symmetry; exact H]).
      rewrite (round_q_pos p q zs Hpos).
      destruct w as [| | sw | [|] m e]; try discriminate; simpl fval in Hq.
      * lra.
      * pose proof (num_pos m e). lra.
      * right. apply round_pos_le; assumption.
Qed.

(** ... and above [w] it stays above [w] (or goes to [+Inf]). *)
Lemma round_q_ge (p : Z) (q : Q) (zs : bool) (w : mpfr) :
  0 <= p - 1 -> valid p w = true -> is_finite w = true -> (fval w <= q)%Q ->
  round_q p q zs = MInf false
  \/ (is_finite (round_q p q zs) = true /\ (fval w <= fval (round_q p q zs))%Q).
Proof.
  intros Hp HV Hw Hq.
  destruct (Qlt_le_dec q 0) as [Hn | Hnn].
  - rewrite (round_q_neg p q zs Hn).
    destruct w as [| | sw | [|] m e]; try discriminate; simpl fval in Hq.
    + lra.
    + rewrite (valid_sign p true false) in HV.
      destruct (round_pos_le p (- q) m e Hp HV ltac:(lra) ltac:(lra)) as [Hf Hv].
      right. rewrite is_finite_neg, fval_neg. simpl fval. split; [exact Hf | lra].
    + pose proof (num_pos m e). lra.
  - destruct (Qeq_dec q 0) as [Hz | Hz].
    + right. destruct (round_q_zero_val p q zs Hz) as [Hf Hv].
      split; [exact Hf |]. rewrite Hv. rewrite Hz in Hq. exact Hq.
    + assert (Hpos : (0 < q)%Q) by (apply Qle_lteq in Hnn as [H | H];
                                     [exact H | exfalso; apply Hz; symmetry; exact H]).
      rewrite (round_q_pos p q zs Hpos).
      destruct w as [| | sw | [|] m e]; try discriminate; simpl fval in Hq.
      * destruct (round_pos_nonneg p q Hp Hpos) as [-> | [Hf Hv]]; [left; reflexivity |].
        right. split; [exact Hf | simpl fval; exact Hv].
      * destruct (round_pos_nonneg p q Hp Hpos) as [-> | [Hf Hv]]; [left; reflexivity |].
        right. split; [exact Hf |]. pose proof (num_pos m e). simpl fval. lra.
      * apply round_pos_ge; assumption.
Qed.

Lemma round_q_between (p : Z) (q : Q) (zs : bool) (w1 w2 : mpfr) :
  0 <= p - 1 -> valid p w1 = true -> is_finite w1 = true ->
  valid p w2 = true -> is_finite w2 = true ->
  (fval w1 <= q)%Q -> (q <= fval w2)%Q ->
  is_finite (round_q p q zs) = true
  /\ (fval w1 <= fval (round_q p q zs))%Q /\ (fval (round_q p q zs) <= fval w2)%Q.
Proof.
  intros Hp H1 F1 H2 F2 L U.
  destruct (round_q_ge p q zs w1 Hp H1 F1 L) as [E1 | [Fa Ha]];
  destruct (round_q_le p q zs w2 Hp H2 F2 U) as [E2 | [Fb Hb]];
  try congruence; try (rewrite E1 in Fb; discriminate);
  try (rewrite E2 in Fa; discriminate).
  split; [exact Fa | split; assumption].
Qed.

Lemma round_q_tiny (p : Z) (q : Q) (zs : bool) :
  (Qabs q <= pow2 (mpfr_emin - 2))%Q -> (fval (round_q p q zs) == 0)%Q.
Proof.
  intros H. destruct (Q_dec q 0) as [[Hn | Hpos] | Hz].
  - rewrite (round_q_neg p q zs Hn). rewrite fval_neg.
    rewrite round_pos_tiny; [simpl; reflexivity | lra |].
    rewrite Qabs_neg in H by lra. exact H.
  - rewrite (round_q_pos p q zs Hpos).
    rewrite round_pos_tiny; [reflexivity | exact Hpos |].
    rewrite Qabs_pos in H by lra. exact H.
  - apply round_q_zero_val, Hz.
Qed.

(** On finite operands each operation is one rounding of its exact result. *)
Lemma add_finite (p : Z) (x y : mpfr) :
  is_finite x = true -> is_finite y = true ->
  exists zs, mpfr_add p x y = round_q p (fval x + fval y) zs.
Proof.
  intros Hx Hy.
  destruct x as [| | sx | sx mx ex]; try discriminate;
  destruct y as [| | sy | sy my ey]; try discriminate;
  try (exists false; reflexivity).
  exists (sx && sy). simpl. rewrite round_q_zero by reflexivity. reflexivity.
Qed.

Lemma sub_finite (p : Z) (x y : mpfr) :
  is_finite x = true -> is_finite y = true ->
  exists zs, mpfr_sub p x y = round_q p (fval x - fval y) zs.
Proof.
  intros Hx Hy. unfold mpfr_sub.
  destruct (add_finite p x (mpfr_neg y) Hx ltac:(rewrite is_finite_neg; exact Hy))
    as [zs ->].
  exists zs. apply round_q_compat. rewrite fval_neg. ring.
Qed.

Lemma div_ui_finite (p : Z) (x : mpfr) (u : Z) :
  0 < u -> is_finite x = true ->
  exists zs, mpfr_div_ui p x u = round_q p (fval x / inject_Z u) zs.
Proof.
  intros Hu Hx. unfold mpfr_div_ui.
  replace (u =? 0) with false by (symmetry; apply Z.eqb_neq; lia).
  destruct x as [| | sx | sx mx ex]; try discriminate; exists sx; [| reflexivity].
  rewrite round_q_zero; [reflexivity |]. simpl fval. unfold Qdiv. ring.
Qed.

Lemma fma_finite (p : Z) (a b c : mpfr) :
  is_finite a = true -> is_finite b = true -> is_finite c = true ->
  exists zs, mpfr_fma p a b c = round_q p (fval a * fval b + fval c) zs.
Proof.
  intros Ha Hb Hc.
  destruct a; try discriminate; destruct b; try discriminate;
  destruct c; try discriminate; eexists; reflexivity.
Qed.

Lemma fma_pinf (p : Z) (a b : mpfr) :
  is_finite a = true -> is_finite b = true -> mpfr_fma p a b (MInf false) = MInf false.
Proof.
  intros Ha Hb. destruct a; try discriminate; destruct b; try discriminate; reflexivity.
Qed.

Lemma ge_finite (x y : mpfr) :
  is_finite x = true -> is_finite y = true ->
  mpfr_greaterequal_p x y = true <-> (fval y <= fval x)%Q.
Proof.
  intros Hx Hy. rewrite <- Qle_bool_iff.
  destruct x; try discriminate; destruct y; try discriminate; reflexivity.
Qed.

(** The [fma] update of [m2] with a non-negative product. *)
Lemma m2_update_finite (p : Z) (delta t m2v : mpfr) :
  0 <= p - 1 -> valid p m2v = true -> is_finite m2v = true ->
  mpfr_greaterequal_p m2v (MZero false) = true ->
  is_finite delta = true -> is_finite t = true -> (0 <= fval delta * fval t)%Q ->
  valid p (mpfr_fma p delta t m2v) = true
  /\ mpfr_greaterequal_p (mpfr_fma p delta t m2v) (MZero false) = true
  /\ mpfr_greaterequal_p (mpfr_fma p delta t m2v) m2v = true.
Proof.
  intros Hp HV Hf Hge Hd Ht Hprod.
  apply ge_finite in Hge; [| exact Hf | reflexivity]. simpl fval in Hge.
  destruct (fma_finite p delta t m2v Hd Ht Hf) as [zs ->].
  split; [apply round_q_valid, Hp |].
  destruct (round_q_ge p (fval delta * fval t + fval m2v) zs m2v Hp HV Hf ltac:(lra))
    as [-> | [Hf' Hv]]; [split; destruct m2v; try discriminate; reflexivity |].
  split; (apply ge_finite; [exact Hf' | assumption || reflexivity |]); simpl fval; lra.
Qed.

Lemma m2_update (p : Z) (delta t m2v : mpfr) :
  0 <= p - 1 -> valid p m2v = true -> mpfr_greaterequal_p m2v (MZero false) = true ->
  is_finite delta = true -> is_finite t = true -> (0 <= fval delta * fval t)%Q ->
  valid p (mpfr_fma p delta t m2v) = true
  /\ mpfr_greaterequal_p (mpfr_fma p delta t m2v) (MZero false) = true
  /\ mpfr_greaterequal_p (mpfr_fma p delta t m2v) m2v = true.
Proof.
  intros Hp HV Hge Hd Ht Hprod.
  destruct m2v as [| [|] | s | s m e] eqn:Em; try discriminate.
  - rewrite fma_pinf by assumption. split; [reflexivity | split; reflexivity].
  - rewrite <- Em in *. apply m2_update_finite; try assumption. subst; reflexivity.
  - rewrite <- Em in *. apply m2_update_finite; try assumption. subst; reflexivity.
Qed.

Lemma divk_nonneg (a : Q) (k : Z) :
  1 <= k -> (0 <= a)%Q -> (0 <= a / inject_Z k)%Q /\ (a / inject_Z k <= a)%Q
  /\ ((2 <= k)%Z -> (a / inject_Z k * 2 <= a)%Q).
Proof.
  intros Hk Ha. assert (HK : (1 <= inject_Z k)%Q) by (change 1%Q with (inject_Z 1); rewrite <- Zle_Qle; exact Hk).
  assert (HK0 : ~ (inject_Z k == 0)%Q) by lra.
  set (b := (a / inject_Z k)%Q). assert (Hb : (b * inject_Z k == a)%Q) by (unfold b; field; exact HK0).
  clearbody b. rewrite <- Hb in *.
  assert (Hb0 : (0 <= b)%Q) by (destruct (Qlt_le_dec b 0); [nra | assumption]).
  split; [assumption | split; [nra |]].
  intros H2. assert (HK2 : (2 <= inject_Z k)%Q)
    by (change 2%Q with (inject_Z 2); rewrite <- Zle_Qle; exact H2). nra.
Qed.

Lemma divk_nonpos (a : Q) (k : Z) :
  1 <= k -> (a <= 0)%Q -> (a <= a / inject_Z k)%Q /\ (a / inject_Z k <= 0)%Q
  /\ ((2 <= k)%Z -> (a <= a / inject_Z k * 2)%Q).
Proof.
  intros Hk Ha. destruct (divk_nonneg (- a) k Hk ltac:(lra)) as [H1 [H2 H3]].
  assert (HK : (1 <= inject_Z k)%Q) by (change 1%Q with (inject_Z 1); rewrite <- Zle_Qle; exact Hk).
  assert (E : (- a / inject_Z k == - (a / inject_Z k))%Q) by (field; lra).
  rewrite E in H1, H2, H3. split; [lra | split; [lra |]]. intros H. specialize (H3 H). lra.
Qed.

Lemma valid_pow2 (p : Z) (s : bool) (k : Z) :
  0 <= p - 1 -> mpfr_emin <= k + 1 <= mpfr_emax -> valid p (MNum s 1 k) = true.
Proof. intros Hp Hk. apply valid_num. simpl. lia. Qed.

Lemma emin_emax : mpfr_emin + 3 <= mpfr_emax.
Proof. unfold mpfr_emin, mpfr_emax. cbn. lia. Qed.

(** [lra] after unfolding the local definitions of the context. *)
Ltac qlra := repeat match goal with x := _ |- _ => subst x end; lra.

(** One Welford step of [stats_add] on values below [2^(emax-2)]: the new
    mean stays in range and [m2] does not decrease. *)
Lemma welford_core (p : Z) (r mu m2v : mpfr) (k : Z) :
  0 <= p - 1 ->
  valid p r = true -> is_finite r = true -> (Qabs (fval r) <= pow2 (mpfr_emax - 2))%Q ->
  valid p mu = true -> is_finite mu = true -> (Qabs (fval mu) <= pow2 (mpfr_emax - 2))%Q ->
  1 <= k -> (k = 1 -> (fval mu == 0)%Q) ->
  valid p m2v = true -> mpfr_greaterequal_p m2v (MZero false) = true ->
  let delta := mpfr_sub p r mu in
  let mean' := mpfr_add p mu (mpfr_div_ui p delta k) in
  let m2' := mpfr_fma p delta (mpfr_sub p r mean') m2v in
  valid p mean' = true /\ is_finite mean' = true
  /\ (Qabs (fval mean') <= pow2 (mpfr_emax - 2))%Q
  /\ valid p m2' = true /\ mpfr_greaterequal_p m2' (MZero false) = true
  /\ mpfr_greaterequal_p m2' m2v = true
  /\ ((fval r <= fval mean' <= fval mu)%Q \/ (fval mu <= fval mean' <= fval r)%Q).
Proof.
  intros Hp Vr Fr Br Vm Fm Bm Hk Hk1 Vm2 Gm2 delta mean' m2'.
  apply Qabs_Qle_condition in Br, Bm.
  pose proof emin_emax as HEE.
  assert (HV : (pow2 (mpfr_emax - 1) == 2 * pow2 (mpfr_emax - 2))%Q)
    by (replace (mpfr_emax - 1) with (mpfr_emax - 2 + 1) by lia; apply pow2_succ).
  set (B := pow2 (mpfr_emax - 2)) in *. set (V := pow2 (mpfr_emax - 1)) in *.
  set (VV := MNum false 1 (mpfr_emax - 1)).
  set (NV := MNum true 1 (mpfr_emax - 1)).
  assert (VVv : valid p VV = true) by (apply valid_pow2; lia).
  assert (NVv : valid p NV = true) by (apply valid_pow2; lia).
  assert (VVf : (fval VV == V)%Q) by apply fval_pow2.
  assert (NVf : (fval NV == - V)%Q) by apply fval_pow2.
  set (Z0 := MZero false).
  assert (Z0f : (fval Z0 == 0)%Q) by reflexivity.
  set (fr := fval r) in *. set (fm := fval mu) in *.
  destruct (sub_finite p r mu Fr Fm) as [zs1 Hd]. fold fr fm in Hd.
  assert (Vd : valid p delta = true) by (unfold delta; rewrite Hd; apply round_q_valid, Hp).
  destruct (Qlt_le_dec fr fm) as [Hlt | Hge].
  - (* the error is below the mean: every step moves down *)
    destruct (round_q_between p (fr - fm) zs1 NV Z0 Hp NVv eq_refl eq_refl eq_refl
                ltac:(qlra) ltac:(qlra)) as [Fd [Ld Ud]].
    rewrite <- Hd in Fd, Ld, Ud. fold delta in Fd, Ld, Ud.
    set (fd := fval delta) in *.
    destruct (div_ui_finite p delta k ltac:(lia) Fd) as [zs2 Ht1]. fold fd in Ht1.
    destruct (divk_nonpos fd k Hk ltac:(qlra)) as [D1 [D2 D3]].
    destruct (round_q_between p (fd / inject_Z k) zs2 delta Z0 Hp Vd Fd eq_refl eq_refl
                D1 D2) as [Ft1 [Lt1 Ut1]].
    rewrite <- Ht1 in Ft1, Lt1, Ut1.
    set (t1 := mpfr_div_ui p delta k) in *. set (ft1 := fval t1) in *.
    assert (HT : (fr - fm <= ft1)%Q).
    { destruct (Z.eq_dec k 1) as [-> | Hk2].
      - specialize (Hk1 eq_refl). fold fm in Hk1.
        destruct (round_q_between p (fr - fm) zs1 r r Hp Vr Fr Vr Fr ltac:(qlra) ltac:(qlra))
          as [_ [L _]].
        rewrite <- Hd in L. fold delta fd fr in L. qlra.
      - assert (Hn : (0 < - (fr - fm))%Q) by qlra.
        set (E := mag (- (fr - fm))).
        destruct (mag_spec _ Hn) as [M1 M2]. fold E in M1, M2.
        assert (HdE : (- pow2 E <= fd)%Q).
        { assert (Hq : (fr - fm < 0)%Q) by qlra.
          assert (Fd' := Fd). unfold delta in Fd'.
          rewrite Hd, (round_q_neg p _ zs1 Hq), is_finite_neg in Fd'.
          unfold fd, delta. rewrite Hd, (round_q_neg p _ zs1 Hq), fval_neg.
          pose proof (round_pos_le_mag p _ Hp Hn Fd') as H. fold E in H. qlra. }
        assert (Hhalf : (- pow2 (E - 1) <= fd / inject_Z k)%Q).
        { specialize (D3 ltac:(lia)).
          assert (P : (pow2 E == 2 * pow2 (E - 1))%Q)
            by (replace E with (E - 1 + 1) at 1 by lia; apply pow2_succ). qlra. }
        destruct (Z_lt_le_dec E mpfr_emin) as [HEs | HEb].
        + assert (T0 : (ft1 == 0)%Q).
          { unfold ft1. rewrite Ht1. apply round_q_tiny.
            apply Qabs_Qle_condition. split.
            - apply Qle_trans with (- pow2 (E - 1))%Q; [| exact Hhalf].
              assert (pow2 (E - 1) <= pow2 (mpfr_emin - 2))%Q
                by (apply pow2_le_mono; lia). qlra.
            - apply Qle_trans with 0%Q; [exact D2 | apply Qlt_le_weak, pow2_pos]. }
          rewrite T0. qlra.
        + assert (HEle : E - 1 <= mpfr_emax - 1)
            by (apply pow2_le_inv; fold V; qlra).
          set (W := MNum true 1 (E - 1)).
          assert (Wv : valid p W = true) by (apply valid_pow2; lia).
          assert (Wf : (fval W == - pow2 (E - 1))%Q) by apply fval_pow2.
          destruct (round_q_ge p (fd / inject_Z k) zs2 W Hp Wv eq_refl ltac:(qlra))
            as [C | [_ L]].
          * rewrite <- Ht1 in C. fold t1 in C. rewrite C in Ft1. discriminate.
          * rewrite <- Ht1 in L. fold t1 ft1 in L. qlra. }
    destruct (add_finite p mu t1 Fm Ft1) as [zs3 Hm]. fold fm ft1 in Hm.
    destruct (round_q_between p (fm + ft1) zs3 r mu Hp Vr Fr Vm Fm ltac:(qlra) ltac:(qlra))
      as [Fm' [Lm Um]].
    rewrite <- Hm in Fm', Lm, Um. fold mean' in Fm', Lm, Um. fold fr fm in Lm, Um.
    destruct (sub_finite p r mean' Fr Fm') as [zs4 Hs]. fold fr in Hs.
    destruct (round_q_between p (fr - fval mean') zs4 NV Z0 Hp NVv eq_refl eq_refl eq_refl
                ltac:(qlra) ltac:(qlra)) as [Ft [Lt Ut]].
    rewrite <- Hs in Ft, Lt, Ut.
    destruct (m2_update p delta (mpfr_sub p r mean') m2v Hp Vm2 Gm2 Fd Ft) as [A1 [A2 A3]].
    { fold fd. set (ft := fval (mpfr_sub p r mean')) in *.
      setoid_replace (fd * ft)%Q with ((- fd) * (- ft))%Q by ring.
      apply Qmult_le_0_compat; qlra. }
    split; [unfold mean'; rewrite Hm; apply round_q_valid, Hp |].
    split; [exact Fm' |]. split; [apply Qabs_Qle_condition; qlra |].
    split; [exact A1 | split; [exact A2 | split; [exact A3 | left; split; qlra]]].
  - (* the error is at or above the mean: every step moves up *)
    destruct (round_q_between p (fr - fm) zs1 Z0 VV Hp eq_refl eq_refl VVv eq_refl
                ltac:(qlra) ltac:(qlra)) as [Fd [Ld Ud]].
    rewrite <- Hd in Fd, Ld, Ud. fold delta in Fd, Ld, Ud.
    set (fd := fval delta) in *.
    destruct (div_ui_finite p delta k ltac:(lia) Fd) as [zs2 Ht1]. fold fd in Ht1.
    destruct (divk_nonneg fd k Hk ltac:(qlra)) as [D1 [D2 D3]].
    destruct (round_q_between p (fd / inject_Z k) zs2 Z0 delta Hp eq_refl eq_refl Vd Fd
                D1 D2) as [Ft1 [Lt1 Ut1]].
    rewrite <- Ht1 in Ft1, Lt1, Ut1.
    set (t1 := mpfr_div_ui p delta k) in *. set (ft1 := fval t1) in *.
    assert (HT : (ft1 <= fr - fm)%Q).
    { destruct (Z.eq_dec k 1) as [-> | Hk2].
      - specialize (Hk1 eq_refl). fold fm in Hk1.
        destruct (round_q_between p (fr - fm) zs1 r r Hp Vr Fr Vr Fr ltac:(qlra) ltac:(qlra))
          as [_ [_ U]].
        rewrite <- Hd in U. fold delta fd fr in U. qlra.
      - destruct (Qeq_dec (fr - fm) 0) as [Hz | Hnz].
        + destruct (round_q_between p (fr - fm) zs1 Z0 Z0 Hp eq_refl eq_refl eq_refl eq_refl
                      ltac:(qlra) ltac:(qlra)) as [_ [_ U]].
          rewrite <- Hd in U. fold delta fd in U. qlra.
        + assert (Hn : (0 < fr - fm)%Q)
            by (apply Qle_lteq in Hge as [H | H]; [qlra | exfalso; apply Hnz; qlra]).
          set (E := mag (fr - fm)).
          destruct (mag_spec _ Hn) as [M1 M2]. fold E in M1, M2.
          assert (HdE : (fd <= pow2 E)%Q).
          { assert (Fd' := Fd). unfold delta in Fd'.
            rewrite Hd, (round_q_pos p _ zs1 Hn) in Fd'.
            unfold fd, delta. rewrite Hd, (round_q_pos p _ zs1 Hn).
            exact (round_pos_le_mag p _ Hp Hn Fd'). }
          assert (Hhalf : (fd / inject_Z k <= pow2 (E - 1))%Q).
          { specialize (D3 ltac:(lia)).
            assert (P : (pow2 E == 2 * pow2 (E - 1))%Q)
              by (replace E with (E - 1 + 1) at 1 by lia; apply pow2_succ). qlra. }
          destruct (Z_lt_le_dec E mpfr_emin) as [HEs | HEb].
          * assert (T0 : (ft1 == 0)%Q).
            { unfold ft1. rewrite Ht1. apply round_q_tiny.
              apply Qabs_Qle_condition. split.
              - apply Qle_trans with 0%Q; [| exact D1].
                pose proof (pow2_pos (mpfr_emin - 2)). qlra.
              - apply Qle_trans with (pow2 (E - 1)); [exact Hhalf |].
                apply pow2_le_mono; lia. }
            rewrite T0. qlra.
          * assert (HEle : E - 1 <= mpfr_emax - 1)
              by (apply pow2_le_inv; fold V; qlra).
            set (W := MNum false 1 (E - 1)).
            assert (Wv : valid p W = true) by (apply valid_pow2; lia).
            assert (Wf : (fval W == pow2 (E - 1))%Q) by apply fval_pow2.
            destruct (round_q_le p (fd / inject_Z k) zs2 W Hp Wv eq_refl ltac:(qlra))
              as [C | [_ L]].
            -- rewrite <- Ht1 in C. fold t1 in C. rewrite C in Ft1. discriminate.
            -- rewrite <- Ht1 in L. fold t1 ft1 in L. qlra. }
    destruct (add_finite p mu t1 Fm Ft1) as [zs3 Hm]. fold fm ft1 in Hm.
    destruct (round_q_between p (fm + ft1) zs3 mu r Hp Vm Fm Vr Fr ltac:(qlra) ltac:(qlra))
      as [Fm' [Lm Um]].
    rewrite <- Hm in Fm', Lm, Um. fold mean' in Fm', Lm, Um. fold fr fm in Lm, Um.
    destruct (sub_finite p r mean' Fr Fm') as [zs4 Hs]. fold fr in Hs.
    destruct (round_q_between p (fr - fval mean') zs4 Z0 VV Hp eq_refl eq_refl VVv eq_refl
                ltac:(qlra) ltac:(qlra)) as [Ft [Lt Ut]].
    rewrite <- Hs in Ft, Lt, Ut.
    destruct (m2_update p delta (mpfr_sub p r mean') m2v Hp Vm2 Gm2 Fd Ft) as [A1 [A2 A3]].
    { fold fd. apply Qmult_le_0_compat; qlra. }
    split; [unfold mean'; rewrite Hm; apply round_q_valid, Hp |].
    split; [exact Fm' |]. split; [apply Qabs_Qle_condition; qlra |].
    split; [exact A1 | split; [exact A2 | split; [exact A3 | right; split; qlra]]].
Qed.

Lemma reldiff_in_range_spec (r : mpfr) :
  reldiff_in_range r = true ->
  is_finite r = true /\ (Qabs (fval r) <= pow2 (mpfr_emax - 2))%Q.
Proof.
  intros H. destruct r as [| | s | s m e]; try discriminate.
  - split; [reflexivity |]. apply Qabs_Qle_condition.
    pose proof (pow2_pos (mpfr_emax - 2)). cbn [fval]. lra.
  - split; [reflexivity |]. cbn [reldiff_in_range] in H. apply Z.leb_le in H.
    destruct (mag_spec _ (num_pos m e)) as [_ M2]. rewrite mag_num in M2.
    assert (pow2 (e + Z.log2 (Zpos m) + 1) <= pow2 (mpfr_emax - 2))%Q
      by (apply pow2_le_mono; exact H).
    pose proof (num_pos m e).
    destruct s; unfold fval, sgnQ; [rewrite Qabs_opp |]; rewrite Qabs_pos; lra.
Qed.

(** What [stats_add] keeps true along a run whose relative errors are in
    range. *)
Definition welford_inv (c : stats_t) : Prop :=
  valid MPFR_PREC (mean c) = true /\ is_finite (mean c) = true
  /\ (Qabs (fval (mean c)) <= pow2 (mpfr_emax - 2))%Q
  /\ (n c = 0 -> (fval (mean c) == 0)%Q)
  /\ valid MPFR_PREC (m2 c) = true /\ mpfr_greaterequal_p (m2 c) (MZero false) = true.

Lemma stats_add_step (c : stats_t) (y ref : mpfr) :
  reldiff_in_range (reldiff_of y ref) = true ->
  0 <= n c -> n c + 1 < ULONG_MOD -> welford_inv c ->
  n (stats_add c y ref) = n c + 1 /\ welford_inv (stats_add c y ref)
  /\ mpfr_greaterequal_p (m2 (stats_add c y ref)) (m2 c) = true.
Proof.
  intros Hr Hn0 Hn [Vm [Fm [Bm [Z0 [Vm2 Gm2]]]]].
  destruct (reldiff_in_range_spec _ Hr) as [Fr Br].
  pose proof (reldiff_valid y ref) as Vr.
  assert (Hn' : (n c + 1) mod ULONG_MOD = n c + 1) by (apply Z.mod_small; lia).
  destruct (welford_core MPFR_PREC (reldiff_of y ref) (mean c) (m2 c) (n c + 1)
              MPFR_PREC_pos Vr Fr Br Vm Fm Bm ltac:(lia)
              ltac:(intros H; apply Z0; lia) Vm2 Gm2)
    as [A1 [A2 [A3 [A4 [A5 [A6 _]]]]]].
  unfold stats_add. cbn [n mean m2]. rewrite Hn'.
  split; [reflexivity |]. split; [| exact A6].
  unfold welford_inv. cbn [n mean m2].
  split; [exact A1 | split; [exact A2 | split; [exact A3 | split; [intros; lia |]]]].
  split; [exact A4 | exact A5].
Qed.

Lemma stats_add_all_inv (l : list (mpfr * mpfr)) (c : stats_t) :
  Forall (fun yr => reldiff_in_range (reldiff_of (fst yr) (snd yr)) = true) l ->
  0 <= n c -> n c + Z.of_nat (List.length l) < ULONG_MOD -> welford_inv c ->
  n (stats_add_all c l) = n c + Z.of_nat (List.length l) /\ welford_inv (stats_add_all c l).
Proof.
  revert c. induction l as [| [y ref] l IH]; intros c Hl Hn0 Hn Hi.
  - simpl. split; [lia | exact Hi].
  - inversion Hl as [| ? ? Hyr Hl']; subst. cbn [List.length] in Hn.
    destruct (stats_add_step c y ref Hyr Hn0 ltac:(lia) Hi) as [E [Hi' _]].
    unfold stats_add_all. cbn [fold_left fst snd].
    assert (H1 : 0 <= n (stats_add c y ref)) by lia.
    assert (H2 : n (stats_add c y ref) + Z.of_nat (List.length l) < ULONG_MOD) by lia.
    destruct (IH (stats_add c y ref) Hl' H1 H2 Hi') as [E' Hi''].
    unfold stats_add_all in E', Hi''. cbn [List.length]. split; [lia | exact Hi''].
Qed.

Lemma welford_inv_init (dist gen : string) : welford_inv (stats_init dist gen).
Proof.
  unfold welford_inv, stats_init. cbn [mean m2 n].
  split; [reflexivity |]. split; [reflexivity |]. split.
  { apply Qabs_Qle_condition. pose proof (pow2_pos (mpfr_emax - 2)). cbn [fval]. lra. }
  split; [intros; reflexivity | split; reflexivity].
Qed.

(** With [y = ref = 1] the relative error is [+0] and the cell stays at
    zero, as long as the count does not wrap. *)
Lemma reldiff_one_one : reldiff_of one one = MZero false.
Proof. vm_compute. reflexivity. Qed.

Lemma stats_add_zero_cell (d g : string) (j : Z) :
  0 <= j -> j + 1 < ULONG_MOD ->
  stats_add (mk_stats d g j (MZero false) (MZero false)) one one
  = mk_stats d g (j + 1) (MZero false) (MZero false).
Proof.
  intros H0 H1. unfold stats_add. cbn [n mean m2 distribution generator].
  rewrite reldiff_one_one, Z.mod_small by lia.
  unfold mpfr_div_ui. replace (j + 1 =? 0) with false by (symmetry; apply Z.eqb_neq; lia).
  reflexivity.
Qed.

Lemma zero_cells_run (k : nat) (d g : string) (j : Z) :
  0 <= j -> j + Z.of_nat k < ULONG_MOD ->
  stats_add_all (mk_stats d g j (MZero false) (MZero false)) (repeat (one, one) k)
  = mk_stats d g (j + Z.of_nat k) (MZero false) (MZero false).
Proof.
  revert j. induction k as [| k IH]; intros j H0 H1.
  - simpl. rewrite Z.add_0_r. reflexivity.
  - unfold stats_add_all. cbn [repeat fold_left fst snd].
    rewrite stats_add_zero_cell by lia.
    change (fold_left (fun c yr => stats_add c (fst yr) (snd yr)) (repeat (one, one) k)
              (mk_stats d g (j + 1) (MZero false) (MZero false)))
      with (stats_add_all (mk_stats d g (j + 1) (MZero false) (MZero false))
              (repeat (one, one) k)).
    rewrite IH by lia. f_equal. lia.
Qed.

(** C10 (counterexample): with [y = ref = 1] every relative error is
    the finite value [+0] and [m2] stays [+0]; on call number [2^64] the
    [unsigned long] count wraps to 0, [mpfr_div_ui] divides [+0] by 0,
    and [m2] becomes NaN: neither non-negative nor [>=] its previous
    value. *)
Lemma C10_counterexample :
  let l := repeat (one, one) (Z.to_nat (ULONG_MOD - 1)) in
  let c := stats_add_all (stats_init "all floats" "float") l in
  let c' := stats_add c one one in
  is_finite (reldiff_of one one) = true /\ m2 c = MZero false /\ m2 c' = MNaN
  /\ mpfr_greaterequal_p (m2 c') (MZero false) = false
  /\ mpfr_greaterequal_p (m2 c') (m2 c) = false.
Proof.
  intros l c c'.
  assert (Hc : c = mk_stats "all floats" "float" (ULONG_MOD - 1) (MZero false) (MZero false)).
  { unfold c, l, stats_init.
    rewrite zero_cells_run by (rewrite ?Z2Nat.id; unfold ULONG_MOD; lia).
    rewrite Z2Nat.id by (unfold ULONG_MOD; lia). reflexivity. }
  unfold c'. rewrite Hc. vm_compute. repeat split.
Qed.

(** C10 (amended): along any sequence of fewer than [2^64] [stats_add]
    calls from [stats_init] whose relative errors are finite and of
    magnitude below [2^(emax-2)], each call leaves [m2] non-negative and
    not below its previous value. *)
Theorem C10_m2_monotone (dist gen : string) (l : list (mpfr * mpfr)) (y ref : mpfr) :
  Z.of_nat (List.length l) + 1 < ULONG_MOD ->
  Forall (fun yr => reldiff_in_range (reldiff_of (fst yr) (snd yr)) = true)
         (l ++ [(y, ref)]) ->
  let c := stats_add_all (stats_init dist gen) l in
  let c' := stats_add c y ref in
  mpfr_greaterequal_p (m2 c') (MZero false) = true
  /\ mpfr_greaterequal_p (m2 c') (m2 c) = true.
Proof.
  intros Hlen Hall c c'.
  apply Forall_app in Hall as [Hl Hlast].
  inversion Hlast as [| ? ? Hyr _]; subst. cbn [fst snd] in Hyr.
  assert (Hn0 : n (stats_init dist gen) = 0) by reflexivity.
  destruct (stats_add_all_inv l (stats_init dist gen) Hl ltac:(lia) ltac:(lia)
              (welford_inv_init dist gen)) as [En Hi].
  fold c in En, Hi.
  destruct (stats_add_step c y ref Hyr ltac:(lia) ltac:(lia) Hi) as [_ [Hi' Hge]].
  destruct Hi' as [_ [_ [_ [_ [_ G]]]]]. split; assumption.
Qed.

Lemma C10_witness :
  let l := [(MNum false 3 (-1), one)] in
  (Z.of_nat (List.length l) + 1 < ULONG_MOD
   /\ Forall (fun yr => reldiff_in_range (reldiff_of (fst yr) (snd yr)) = true)
             (l ++ [(MNum false 1 (-1), one)]))
  /\ (mpfr_greaterequal_p
        (m2 (stats_add (stats_add_all (stats_init "all floats" "float") l)
               (MNum false 1 (-1)) one)) (MZero false) = true
      /\ mpfr_greaterequal_p
           (m2 (stats_add (stats_add_all (stats_init "all floats" "float") l)
                  (MNum false 1 (-1)) one))
           (m2 (stats_add_all (stats_init "all floats" "float") l)) = true).
Proof.
  intros l. split.
  - split; [vm_compute; reflexivity |].
    cbn [l app]. repeat apply Forall_cons; try apply Forall_nil; vm_compute; reflexivity.
  - apply (C10_m2_monotone "all floats" "float" l (MNum false 1 (-1)) one).
    + vm_compute; reflexivity.
    + cbn [l app]. repeat apply Forall_cons; try apply Forall_nil; vm_compute; reflexivity.
Defined.

(** * Further properties of the code *)

(** ** Native values: the union reads, the casts and [mpfrtemp] *)

(** A rounding to format [f] of a value [m * 2^e] that the format holds
    gives a value of the format. *)
Lemma fmt_round_pos_exact_in_fmt (f : fmt) (s : bool) (m : positive) (e : Z) :
  Z.log2 (Zpos m) < fprec f -> femin f - fprec f + 1 <= e ->
  (inject_Z (Zpos m) * pow2 e < pow2 (femax f + 1))%Q ->
  exists M k, fmt_round_pos f s (inject_Z (Zpos m) * pow2 e) = NF_Fin s M k
              /\ (inject_Z M * pow2 k == inject_Z (Zpos m) * pow2 e)%Q
              /\ in_fmt f (NF_Fin s M k) = true.
Proof.
  intros Hp He Hov. unfold fmt_round_pos. rewrite mag_num.
  assert (HL : 0 <= Z.log2 (Zpos m)) by apply Z.log2_nonneg.
  destruct (Z.log2_spec (Zpos m) eq_refl) as [H1 H2].
  set (k := Z.max _ _).
  assert (Hk : k <= e) by (subst k; lia).
  assert (HQ : (inject_Z (Zpos m) * pow2 e / pow2 k
                == inject_Z (Zpos m * 2 ^ (e - k)))%Q).
  { rewrite (Q_scale _ e k Hk). field. apply Qnot_eq_sym, Qlt_not_eq, pow2_pos. }
  rewrite (rne_compat _ _ HQ), rne_Z.
  pose proof (Q_scale (Zpos m) e k Hk) as HV.
  replace (Qle_bool _ _) with false.
  2:{ symmetry. apply not_true_iff_false. rewrite Qle_bool_iff, <- HV.
      apply Qlt_not_le; exact Hov. }
  eexists _, _; split; [reflexivity | split; [symmetry; exact HV |]].
  assert (Hemax : Z.log2 (Zpos m) + e <= femax f).
  { assert (Hlo : (pow2 (Z.log2 (Zpos m) + e) <= inject_Z (Zpos m) * pow2 e)%Q).
    { rewrite pow2_add. apply Qmult_le_r; [apply pow2_pos |].
      rewrite pow2_Z by lia. rewrite <- Zle_Qle. exact H1. }
    assert (Hlt := Qle_lt_trans _ _ _ Hlo Hov). apply pow2_lt_inv in Hlt. lia. }
  assert (Hek : 0 <= e - k) by lia.
  assert (HMlt : Zpos m * 2 ^ (e - k) < 2 ^ (Z.succ (Z.log2 (Zpos m)) + (e - k))).
  { rewrite Z.pow_add_r by lia.
    apply Z.mul_lt_mono_pos_r; [apply Z.pow_pos_nonneg; lia | exact H2]. }
  assert (HMpos : 0 < Zpos m * 2 ^ (e - k))
    by (apply Z.mul_pos_pos; [lia | apply Z.pow_pos_nonneg; lia]).
  assert (Hkm : e + Z.log2 (Zpos m) + 1 - fprec f <= k) by (subst k; lia).
  assert (Hkl : femin f - fprec f + 1 <= k) by (subst k; lia).
  pose proof HMlt as HMlog. apply (Z.log2_lt_pow2 _ _ HMpos) in HMlog.
  unfold in_fmt. rewrite !andb_true_iff, Z.ltb_lt, !Z.leb_le.
  split; [split; [split |] |].
  - lia.
  - eapply Z.lt_le_trans; [exact HMlt | apply Z.pow_le_mono_r; lia].
  - exact Hkl.
  - lia.
Qed.

(** Rounding to format [f] a value [+-M * 2^e] that the format holds is
    exact, keeps the sign, and gives a value of the format. *)
Lemma fmt_round_exact_in_fmt (f : fmt) (q : Q) (zs s : bool) (M e : Z) :
  femin f - fprec f + 1 <= 0 -> 0 <= femax f ->
  0 <= M -> Z.log2 M < fprec f -> femin f - fprec f + 1 <= e ->
  (inject_Z M * pow2 e < pow2 (femax f + 1))%Q ->
  (q == sgnQ s (inject_Z M * pow2 e))%Q ->
  let r := fmt_round f q zs in
  nf_is_finite r = true /\ in_fmt f r = true /\ (nf_val r == q)%Q
  /\ nf_sign r = (if M =? 0 then zs else s).
Proof.
  intros Hz Hx HM Hp He Hov Hq r.
  destruct M as [| m | m]; [| | lia].
  - assert (Hq0 : (q == 0)%Q) by (rewrite Hq; destruct s; simpl; ring).
    subst r. rewrite (fmt_round_compat f q 0 zs Hq0).
    replace (fmt_round f 0 zs) with (NF_Fin zs 0 0) by reflexivity.
    cbn [nf_is_finite nf_val nf_sign Z.eqb].
    split; [reflexivity | split; [| split; [| reflexivity]]].
    2:{ rewrite Hq0. destruct zs; unfold sgnQ; ring. }
    unfold in_fmt. rewrite !andb_true_iff, Z.ltb_lt, !Z.leb_le. cbn [Z.log2] in *.
    split; [split; [split |] |]; try lia.
  - destruct (fmt_round_pos_exact_in_fmt f s m e Hp He Hov) as [M' [k [HR [HV HI]]]].
    assert (Hpos := num_pos m e).
    assert (Hr : r = fmt_round_pos f s (inject_Z (Zpos m) * pow2 e)).
    { subst r. unfold fmt_round.
      replace (Qeq_bool q 0) with false.
      2:{ symmetry. apply not_true_iff_false. rewrite Qeq_bool_iff, Hq.
          destruct s; cbn [sgnQ]; lra. }
      destruct s; cbn [sgnQ] in Hq.
      - replace (Qltb q 0) with true by (symmetry; apply Qltb_iff; lra).
        apply fmt_round_pos_compat; [lra | rewrite Hq; ring].
      - replace (Qltb q 0) with false.
        2:{ symmetry. apply not_true_iff_false. rewrite Qltb_iff. lra. }
        apply fmt_round_pos_compat; [lra | exact Hq]. }
    rewrite Hr, HR. cbn [nf_is_finite nf_val nf_sign].
    split; [reflexivity | split; [exact HI | split; [| reflexivity]]].
    rewrite Hq. destruct s; cbn [sgnQ]; rewrite HV; reflexivity.
Qed.

Lemma flt_of_bits_in_fmt (b : Z) : in_fmt binary32 (flt_of_bits b) = true.
Proof.
  unfold flt_of_bits.
  assert (HE : 0 <= Z.land (Z.shiftr b 23) 255 < 256).
  { change 255 with (Z.ones 8). rewrite Z.land_ones by lia. apply Z.mod_pos_bound; lia. }
  assert (HM : 0 <= Z.land b (2 ^ 23 - 1) < 2 ^ 23).
  { change (2 ^ 23 - 1) with (Z.ones 23). rewrite Z.land_ones by lia.
    apply Z.mod_pos_bound; lia. }
  set (E := Z.land (Z.shiftr b 23) 255) in *. set (M := Z.land b (2 ^ 23 - 1)) in *.
  destruct (E =? 255) eqn:E1; [destruct (M =? 0); reflexivity |].
  apply Z.eqb_neq in E1.
  change (2 ^ 23) with 8388608 in *.
  assert (HlM : Z.log2 M < 23).
  { destruct (Z.eq_dec M 0) as [-> | HM0]; [reflexivity | apply Z.log2_lt_pow2; lia]. }
  assert (HlN : Z.log2 (8388608 + M) < 24) by (apply Z.log2_lt_pow2; lia).
  destruct (Z.eqb_spec E 0); unfold in_fmt;
    change (fprec binary32) with 24; change (femin binary32) with (-126);
    change (femax binary32) with 127; change (2 ^ 24) with 16777216;
    rewrite !andb_true_iff, Z.ltb_lt, !Z.leb_le; lia.
Qed.

Lemma getrandom_3_in_fmt (randstate : Type) (urandomb : randstate -> Z -> Z * randstate)
      (fuel : nat) (state state' : randstate) (x : nfloat) :
  getrandom_3 urandomb fuel state = Some (x, state') -> in_fmt binary32 x = true.
Proof.
  revert state. induction fuel as [| fuel IH]; intros state H; [discriminate |].
  cbn [getrandom_3] in H. destruct (urandomb state 32) as [u st1].
  destruct (Z.land (u mod 2 ^ 32) 2139095040 =? 2139095040).
  - exact (IH _ H).
  - injection H as <- _. apply flt_of_bits_in_fmt.
Qed.

Lemma getrandom_2_in_fmt (u : Z) :
  0 <= u < gt_pid2_ls23_int ->
  in_fmt binary32 (nf_div binary32 (nf_of_Z binary32 u) (nf_of_Z binary32 (Z.shiftl 1 23)))
  = true.
Proof.
  unfold gt_pid2_ls23_int. intros Hu.
  rewrite nf_of_Z_2_23.
  destruct (nf_of_Z_exact u ltac:(lia)) as [M [k [HA HV]]]. rewrite HA.
  unfold nf_div. cbn [nf_sign xorb nf_is_zero].
  change (8388608 =? 0) with false. cbv iota.
  destruct (Z.eqb_spec M 0) as [HM | HM]; [vm_compute; reflexivity |].
  assert (Hq : (nf_val (NF_Fin false M k) / nf_val (NF_Fin false 8388608 0)
                == sgnQ false (inject_Z u * pow2 (-23)))%Q).
  { cbn [nf_val sgnQ]. rewrite HV.
    assert (H23 : (pow2 (-23) == / (inject_Z 8388608 * pow2 0))%Q)
      by (unfold Qeq; vm_compute; reflexivity).
    rewrite H23. reflexivity. }
  assert (Hl : Z.log2 u < 24).
  { destruct (Z.eq_dec u 0) as [-> | Hu0]; [cbn; lia | apply Z.log2_lt_pow2; lia]. }
  assert (Hov : (inject_Z u * pow2 (-23) < pow2 (femax binary32 + 1))%Q).
  { rewrite (Q_scale 1 (femax binary32 + 1) (-23)) by (cbn; lia).
    apply Qmult_lt_r; [apply pow2_pos |]. rewrite <- Zlt_Qlt.
    change (1 * 2 ^ (femax binary32 + 1 - -23)) with (2 ^ 151). lia. }
  assert (H1 : femin binary32 - fprec binary32 + 1 <= 0) by (cbn; lia).
  assert (H2 : 0 <= femax binary32) by (cbn; lia).
  assert (H3 : femin binary32 - fprec binary32 + 1 <= -23) by (cbn; lia).
  change (fprec binary32) with 24 in H1, H3. change (femin binary32) with (-126) in H1, H3.
  destruct (fmt_round_exact_in_fmt binary32 _ false false u (-23) H1 H2 ltac:(lia) Hl H3 Hov Hq)
    as [_ [HI _]].
  exact HI.
Qed.

(** A binary32 value converted to a format at least as wide. *)
Lemma nf_convert_from_binary32 (f : fmt) (x : nfloat) :
  24 <= fprec f -> femin f - fprec f + 1 <= -149 -> 127 <= femax f ->
  in_fmt binary32 x = true ->
  in_fmt f (nf_convert f x) = true
  /\ nf_is_finite (nf_convert f x) = nf_is_finite x
  /\ nf_sign (nf_convert f x) = nf_sign x
  /\ (nf_val (nf_convert f x) == nf_val x)%Q.
Proof.
  intros Hp Hlo Hhi Hx. destruct x as [| s | s M e]; [repeat split .. |].
  unfold in_fmt in Hx. change (fprec binary32) with 24 in Hx.
  change (femin binary32) with (-126) in Hx. change (femax binary32) with 127 in Hx.
  rewrite !andb_true_iff, Z.ltb_lt, !Z.leb_le in Hx.
  destruct Hx as [[[H0 HM] He] HE].
  assert (Hl : Z.log2 M < 24).
  { destruct (Z.eq_dec M 0) as [-> | HM0]; [cbn; lia | apply Z.log2_lt_pow2; lia]. }
  assert (Hov : (inject_Z M * pow2 e < pow2 (femax f + 1))%Q).
  { destruct (Z.eq_dec M 0) as [-> | HM0].
    - rewrite Qmult_0_l. apply pow2_pos.
    - destruct (Z.log2_spec M ltac:(lia)) as [_ HL2].
      apply Qlt_le_trans with (pow2 (Z.succ (Z.log2 M) + e)).
      + rewrite pow2_add. apply Qmult_lt_r; [apply pow2_pos |].
        rewrite pow2_Z by (pose proof (Z.log2_nonneg M); lia). rewrite <- Zlt_Qlt. exact HL2.
      + apply pow2_le_mono. lia. }
  unfold nf_convert.
  destruct (fmt_round_exact_in_fmt f (nf_val (NF_Fin s M e)) s s M e
              ltac:(lia) ltac:(lia) H0 ltac:(lia) ltac:(lia) Hov (Qeq_refl _))
    as [HF [HI [HV HS]]].
  split; [exact HI | split; [exact HF | split; [| exact HV]]].
  rewrite HS. cbn [nf_sign]. destruct (M =? 0); reflexivity.
Qed.

(** X1: the loop test of [getrandom_3], [(x.ui & 0x7F800000) == 0x7F800000],
    holds for a 32-bit pattern exactly when the [float] read from it is NaN
    or an infinity: the loop throws away the non-finite patterns and keeps
    every finite one, zeros and subnormals included. *)
Theorem getrandom_3_rejects_nonfinite (b : Z) :
  (Z.land b 2139095040 =? 2139095040) = negb (nf_is_finite (flt_of_bits b)).
Proof.
  assert (HE : 0 <= Z.land (Z.shiftr b 23) 255 < 256).
  { change 255 with (Z.ones 8). rewrite Z.land_ones by lia. apply Z.mod_pos_bound; lia. }
  rewrite land_exp_field. unfold flt_of_bits.
  set (E := Z.land (Z.shiftr b 23) 255) in *.
  destruct (Z.eqb_spec E 255) as [-> | HE255].
  - destruct (_ =? 0); reflexivity.
  - replace (Z.shiftl E 23 =? 2139095040) with false.
    + destruct (E =? 0); reflexivity.
    + symmetry. apply Z.eqb_neq. rewrite Z.shiftl_mul_pow2 by lia.
      change (2 ^ 23) with 8388608. lia.
Qed.

(** X2: widening a binary32 [phase] with the casts of [getsin_d],
    [getsin_ld] and [getsin_q] ([(double)], [(long double)],
    [(__float128)]) is exact: the result is a value of the wider format
    with the same value and the same sign (zeros included), and it is
    finite exactly when [phase] is. *)
Theorem widening_casts_exact (x : nfloat) :
  in_fmt binary32 x = true ->
  Forall (fun f => in_fmt f (nf_convert f x) = true
                   /\ nf_is_finite (nf_convert f x) = nf_is_finite x
                   /\ nf_sign (nf_convert f x) = nf_sign x
                   /\ (nf_val (nf_convert f x) == nf_val x)%Q)
         [binary64; x87_extended; binary128].
Proof.
  intros Hx.
  repeat constructor; apply nf_convert_from_binary32; try exact Hx; cbn; lia.
Qed.

Lemma widening_casts_exact_witness :
  in_fmt binary32 (flt_of_bits 1) = true
  /\ Forall (fun f => in_fmt f (nf_convert f (flt_of_bits 1)) = true
                      /\ nf_is_finite (nf_convert f (flt_of_bits 1))
                         = nf_is_finite (flt_of_bits 1)
                      /\ nf_sign (nf_convert f (flt_of_bits 1)) = nf_sign (flt_of_bits 1)
                      /\ (nf_val (nf_convert f (flt_of_bits 1)) == nf_val (flt_of_bits 1))%Q)
            [binary64; x87_extended; binary128].
Proof.
  split; [vm_compute; reflexivity |].
  apply widening_casts_exact. vm_compute. reflexivity.
Defined.

Section PhaseFacts.
Variable randstate : Type.
Variable gmp_urandomm_ui : randstate -> Z -> Z * randstate.
Variable gmp_urandomb_ui : randstate -> Z -> Z * randstate.
Variable fuel3 : nat.
(** GMP's documented range of [gmp_urandomm_ui]. *)
Hypothesis urandomm_range :
  forall (st : randstate) (n : Z), 0 < n -> 0 <= fst (gmp_urandomm_ui st n) < n.

(** X3: every phase drawn by one of the three entries of [distribution[]]
    is a binary32 value, and [mpfr_set_flt (mpfrtemp, phase, MPFR_RNDN)]
    into the 144-bit [mpfrtemp] stores it exactly, so [refsin] is the sine
    of the phase itself. *)
Theorem phase_exact_in_mpfrtemp (st : randstate) (phase : nfloat) (st' : randstate) :
  Forall (fun d => snd d st = Some (phase, st') ->
                   in_fmt binary32 phase = true
                   /\ mpfr_set_flt mpfrtemp_prec phase = nf_exact phase)
         (distribution_tbl randstate gmp_urandomm_ui gmp_urandomb_ui fuel3).
Proof.
  assert (Hex : in_fmt binary32 phase = true ->
                mpfr_set_flt mpfrtemp_prec phase = nf_exact phase).
  { intros H. apply (mpfr_set_nf_exact binary32); [exact H | ..];
      unfold mpfrtemp_prec, mpfr_emin, mpfr_emax; cbn; lia. }
  assert (Hin : Forall (fun d => snd d st = Some (phase, st') -> in_fmt binary32 phase = true)
                  (distribution_tbl randstate gmp_urandomm_ui gmp_urandomb_ui fuel3)).
  { unfold distribution_tbl. repeat constructor; cbn [snd]; intros H.
    - injection H as H. unfold getrandom_1 in H.
      destruct (gmp_urandomm_ui st gt_pid2_int) as [u s1].
      injection H as <- _. apply flt_of_bits_in_fmt.
    - injection H as H. unfold getrandom_2 in H.
      pose proof (urandomm_range st gt_pid2_ls23_int ltac:(reflexivity)) as R.
      destruct (gmp_urandomm_ui st gt_pid2_ls23_int) as [u s1]. cbn [fst] in R.
      injection H as <- _. apply getrandom_2_in_fmt. exact R.
    - exact (getrandom_3_in_fmt _ _ _ _ _ _ H). }
  revert Hin. apply Forall_impl. intros d Hd H.
  split; [exact (Hd H) | exact (Hex (Hd H))].
Qed.

End PhaseFacts.

Lemma phase_exact_in_mpfrtemp_witness :
  getrandom_1 counter_urandomm_ui 5 = (flt_of_bits 5, 6)
  /\ Forall (fun d => snd d 5 = Some (flt_of_bits 5, 6) ->
                      in_fmt binary32 (flt_of_bits 5) = true
                      /\ mpfr_set_flt mpfrtemp_prec (flt_of_bits 5) = nf_exact (flt_of_bits 5))
            (distribution_tbl Z counter_urandomm_ui counter_urandomb_ui 1).
Proof.
  split; [vm_compute; reflexivity |].
  exact (phase_exact_in_mpfrtemp Z counter_urandomm_ui counter_urandomb_ui 1
           counter_urandomm_range 5 (flt_of_bits 5) 6).
Defined.

(** X4: for every binary128 value, the [%Qa] text has at most 63
    characters, so the 64-byte buffer [s] of [getsin_q] always holds it
    whole: [quadmath_snprintf] never truncates it. *)
Theorem qa_fits_buffer (v : nfloat) :
  in_fmt binary128 v = true ->
  (List.length (qa_chars v) <= 63)%nat
  /\ quadmath_snprintf_Qa 64 v = string_of_list_ascii (qa_chars v).
Proof.
  intros Hf.
  assert (HL : (List.length (qa_chars v) <= 63)%nat).
  { destruct v as [| s | s M e].
    - cbn. lia.
    - destruct s; cbn; lia.
    - destruct (Z.eq_dec M 0) as [-> | HM0].
      + destruct s; cbn; lia.
      + assert (HM : 0 < M).
        { unfold in_fmt in Hf. rewrite !andb_true_iff, !Z.leb_le in Hf. lia. }
        destruct (qa_chars_num s M e Hf HM)
          as (lead & expo & D & j & Hq & Hl & HD & Hj & Hx & Hv).
        rewrite Hq. pose proof (length_dec_aux 20 (Z.abs expo) []) as HL.
        rewrite !List.length_app. cbn [List.length] in *.
        destruct s, j; cbn [qa_sign List.length]; rewrite ?length_hexN; lia. }
  split; [exact HL |].
  unfold quadmath_snprintf_Qa. rewrite firstn_all2 by (cbn; lia). reflexivity.
Qed.

Lemma qa_fits_buffer_witness :
  in_fmt binary128 (NF_Fin true 3 (-16494)) = true
  /\ (List.length (qa_chars (NF_Fin true 3 (-16494))) <= 63)%nat
  /\ quadmath_snprintf_Qa 64 (NF_Fin true 3 (-16494))
     = string_of_list_ascii (qa_chars (NF_Fin true 3 (-16494))).
Proof.
  split; [vm_compute; reflexivity |]. apply qa_fits_buffer. vm_compute. reflexivity.
Defined.




(** ** The statistics cell along a run *)

Lemma div_nonfinite_l (p : Z) (x y : mpfr) :
  is_finite x = false -> is_finite (mpfr_div p x y) = false.
Proof.
  intros H; destruct x as [|sx|sx|sx mx ex]; try discriminate; destruct y; reflexivity.
Qed.

Lemma reldiff_nonfinite (y ref : mpfr) :
  is_finite y = false \/ is_finite ref = false -> is_finite (reldiff_of y ref) = false.
Proof.
  intros H. unfold reldiff_of. apply div_nonfinite_l.
  destruct H; [apply sub_nonfinite_l | apply sub_nonfinite_r]; assumption.
Qed.

(** X7: a NaN or an infinity as observed value or as reference (a native
    sine or [mpfr_sin] returning one) makes the relative error non-finite;
    [stats_add] has no guard, so [mean] and [m2] become non-finite and stay
    so through every later [stats_add]. *)
Theorem nonfinite_sample_poisons (st : stats_t) (y ref : mpfr) (later : list (mpfr * mpfr)) :
  is_finite y = false \/ is_finite ref = false ->
  is_finite (reldiff_of y ref) = false
  /\ is_finite (mean (stats_add_all (stats_add st y ref) later)) = false
  /\ is_finite (m2 (stats_add_all (stats_add st y ref) later)) = false.
Proof.
  intros H. pose proof (reldiff_nonfinite y ref H) as Hr.
  assert (Hm : is_finite (mean (stats_add st y ref)) = false).
  { unfold stats_add; cbn [mean]; auto with nonfinite. }
  assert (Hm2 : is_finite (m2 (stats_add st y ref)) = false).
  { unfold stats_add; cbn [m2]; auto with nonfinite. }
  destruct (stats_add_all_keeps_poison later _ Hm Hm2).
  repeat split; assumption.
Qed.

Lemma nonfinite_sample_poisons_witness :
  (is_finite MNaN = false \/ is_finite one = false)
  /\ is_finite (reldiff_of MNaN one) = false
  /\ is_finite (mean (stats_add_all (stats_add (stats_init "all floats" "float") MNaN one)
                        [(one, one)])) = false
  /\ is_finite (m2 (stats_add_all (stats_add (stats_init "all floats" "float") MNaN one)
                      [(one, one)])) = false.
Proof.
  split; [left; reflexivity |].
  apply nonfinite_sample_poisons. left. reflexivity.
Defined.

Lemma add_pzero_r (p : Z) (v : mpfr) (s : bool) (m : positive) (e : Z) :
  v = MNum s m e -> valid p v = true -> mpfr_add p v (MZero false) = v.
Proof.
  intros -> HV.
  change (mpfr_add p (MNum s m e) (MZero false))
    with (round_q p (fval (MNum s m e) + fval (MZero false)) false).
  rewrite <- (round_q_exact p (MNum s m e) false s m e eq_refl HV) at 2.
  apply round_q_compat; simpl; ring.
Qed.

(** A sample whose relative error equals the current mean, with [m2 = 0]. *)
Lemma stats_add_constant (d g : string) (j : Z) (y ref : mpfr)
      (s : bool) (m : positive) (e : Z) :
  reldiff_of y ref = MNum s m e -> 1 <= j -> j + 1 < ULONG_MOD ->
  stats_add (mk_stats d g j (MNum s m e) (MZero false)) y ref
  = mk_stats d g (j + 1) (MNum s m e) (MZero false).
Proof.
  intros H Hj Hn.
  assert (Hv : valid MPFR_PREC (MNum s m e) = true) by (rewrite <- H; apply reldiff_valid).
  unfold stats_add. cbn [mean m2 n distribution generator]. rewrite H, sub_self.
  rewrite Z.mod_small by lia.
  unfold mpfr_div_ui. replace (j + 1 =? 0) with false by (symmetry; apply Z.eqb_neq; lia).
  rewrite (add_pzero_r _ (MNum s m e) s m e eq_refl Hv), sub_self. reflexivity.
Qed.

Lemma stats_add_all_constant (l : list (mpfr * mpfr)) (d g : string) (j : Z)
      (s : bool) (m : positive) (e : Z) :
  Forall (fun yr => reldiff_of (fst yr) (snd yr) = MNum s m e) l ->
  1 <= j -> j + Z.of_nat (List.length l) < ULONG_MOD ->
  stats_add_all (mk_stats d g j (MNum s m e) (MZero false)) l
  = mk_stats d g (j + Z.of_nat (List.length l)) (MNum s m e) (MZero false).
Proof.
  revert j. induction l as [| [y ref] l IH]; intros j Hl Hj Hn.
  - cbn [stats_add_all fold_left List.length Z.of_nat]. rewrite Z.add_0_r. reflexivity.
  - inversion Hl as [| ? ? Hyr Hl']; subst. cbn [fst snd] in Hyr. cbn [List.length] in Hn.
    unfold stats_add_all. cbn [fold_left fst snd].
    rewrite (stats_add_constant d g j y ref s m e Hyr Hj ltac:(lia)).
    fold (stats_add_all (mk_stats d g (j + 1) (MNum s m e) (MZero false)) l).
    rewrite IH by (assumption || lia). cbn [List.length]. f_equal. lia.
Qed.

(** X8: when every sample of a run has the same nonzero relative error
    [r], the first [stats_add] sets the mean to [r] exactly and every later
    one keeps it (the difference [r - mean] is exactly 0); [m2] stays +0,
    so from two samples on [stats_print] reports a variance and a standard
    deviation of +0. *)
Theorem constant_relative_error (dist gen : string) (l : list (mpfr * mpfr))
      (s : bool) (m : positive) (e : Z) :
  l <> [] -> Z.of_nat (List.length l) < ULONG_MOD ->
  Forall (fun yr => reldiff_of (fst yr) (snd yr) = MNum s m e) l ->
  let c := stats_add_all (stats_init dist gen) l in
  c = mk_stats dist gen (Z.of_nat (List.length l)) (MNum s m e) (MZero false)
  /\ ((2 <= List.length l)%nat ->
      r_variance (stats_print c) = MZero false /\ r_stddev (stats_print c) = MZero false).
Proof.
  intros Hne Hn Hl c.
  destruct l as [| [y ref] l']; [contradiction |].
  inversion Hl as [| ? ? Hyr Hl']; subst. cbn [fst snd] in Hyr.
  cbn [List.length] in Hn.
  assert (Hc : c = mk_stats dist gen (Z.of_nat (List.length ((y, ref) :: l')))
                     (MNum s m e) (MZero false)).
  { unfold c, stats_add_all. cbn [fold_left fst snd].
    rewrite (first_sample dist gen y ref s m e Hyr).
    fold (stats_add_all (mk_stats dist gen 1 (MNum s m e) (MZero false)) l').
    rewrite stats_add_all_constant by (assumption || lia).
    cbn [List.length]. f_equal. lia. }
  split; [exact Hc |]. intros H2. rewrite Hc. unfold stats_print. cbn [n m2].
  replace (1 <? Z.of_nat (List.length ((y, ref) :: l'))) with true
    by (symmetry; apply Z.ltb_lt; lia).
  unfold mpfr_div_ui.
  replace (Z.of_nat (List.length ((y, ref) :: l')) - 1 =? 0) with false
    by (symmetry; apply Z.eqb_neq; lia).
  split; reflexivity.
Qed.

Lemma constant_relative_error_witness :
  let l := [(two, one); (two, one); (two, one)] in
  (l <> [] /\ Z.of_nat (List.length l) < ULONG_MOD
   /\ Forall (fun yr => reldiff_of (fst yr) (snd yr) = MNum false 1 0) l)
  /\ (stats_add_all (stats_init "all floats" "double") l
      = mk_stats "all floats" "double" (Z.of_nat (List.length l)) (MNum false 1 0) (MZero false)
      /\ ((2 <= List.length l)%nat ->
          r_variance (stats_print (stats_add_all (stats_init "all floats" "double") l))
          = MZero false
          /\ r_stddev (stats_print (stats_add_all (stats_init "all floats" "double") l))
             = MZero false)).
Proof.
  intros l.
  assert (Hl : Forall (fun yr => reldiff_of (fst yr) (snd yr) = MNum false 1 0) l).
  { unfold l. repeat apply Forall_cons; try apply Forall_nil; vm_compute; reflexivity. }
  split; [split; [discriminate | split; [vm_compute; reflexivity | exact Hl]] |].
  apply (constant_relative_error "all floats" "double" l false 1 0);
    [discriminate | vm_compute; reflexivity | exact Hl].
Defined.

Lemma ge_zero_mk_num (m k : Z) :
  0 <= m -> mpfr_greaterequal_p (mk_num false m k) (MZero false) = true.
Proof.
  intros Hm. apply ge_finite; [apply is_finite_mk_num | reflexivity |].
  rewrite fval_mk_num by exact Hm. cbn [fval sgnQ].
  apply Qmult_le_0_compat;
    [change 0%Q with (inject_Z 0); rewrite <- Zle_Qle; exact Hm
    | apply Qlt_le_weak, pow2_pos].
Qed.

Lemma ge_zero_pow2 (k : Z) : mpfr_greaterequal_p (MNum false 1 k) (MZero false) = true.
Proof.
  apply ge_finite; [reflexivity | reflexivity |]. cbn [fval sgnQ].
  apply Qmult_le_0_compat; [discriminate | apply Qlt_le_weak, pow2_pos].
Qed.

Lemma rne_nonneg (y : Q) : (0 <= y)%Q -> 0 <= rne y.
Proof.
  intros H. pose proof (rne_mono 0 y H) as R.
  change (rne 0) with (rne (inject_Z 0)) in R. rewrite rne_Z in R. exact R.
Qed.

Lemma rne_sqrt_nonneg (y : Q) : 0 <= rne_sqrt y.
Proof.
  unfold rne_sqrt. cbv zeta.
  assert (0 <= Z.sqrt (Qnum y * Zpos (Qden y)) / Zpos (Qden y))
    by (apply Z.div_pos; [apply Z.sqrt_nonneg | lia]).
  repeat destruct (_ <? _); try destruct (Z.even _); lia.
Qed.

Lemma round_pos_ge_zero (p : Z) (x : Q) :
  (0 < x)%Q -> mpfr_greaterequal_p (round_pos p false x) (MZero false) = true.
Proof.
  intros Hx. unfold round_pos. cbv zeta.
  destruct (le_pow2 _ _); [reflexivity |].
  destruct (lt_pow2 _ _); [apply ge_zero_pow2 |].
  destruct (_ || _); [reflexivity |].
  apply ge_zero_mk_num, rne_nonneg.
  apply Qlt_le_weak, Qlt_shift_div_l; [apply pow2_pos | rewrite Qmult_0_l; exact Hx].
Qed.

(** [mpfr_div_ui] by a positive count and [mpfr_sqrt] keep a value that
    is at least +0 at least +0. *)
Lemma div_ui_ge_zero (p : Z) (x : mpfr) (u : Z) :
  0 < u -> mpfr_greaterequal_p x (MZero false) = true ->
  mpfr_greaterequal_p (mpfr_div_ui p x u) (MZero false) = true.
Proof.
  intros Hu H. unfold mpfr_div_ui. replace (u =? 0) with false by (symmetry; apply Z.eqb_neq; lia).
  destruct x as [| [|] | s | [|] m e]; try discriminate; try reflexivity.
  - exfalso. apply Qle_bool_iff in H. cbn [fval sgnQ] in H.
    pose proof (num_pos m e). lra.
  - rewrite round_q_pos; [apply round_pos_ge_zero |];
      (apply Qlt_shift_div_l;
       [change 0%Q with (inject_Z 0); rewrite <- Zlt_Qlt; exact Hu
       | rewrite Qmult_0_l; cbn [fval sgnQ]; apply num_pos]).
Qed.

Lemma sqrt_ge_zero (p : Z) (x : mpfr) :
  mpfr_greaterequal_p x (MZero false) = true ->
  mpfr_greaterequal_p (mpfr_sqrt p x) (MZero false) = true.
Proof.
  intros H. destruct x as [| [|] | s | [|] m e]; try discriminate; try reflexivity.
  - exfalso. apply Qle_bool_iff in H. cbn [fval sgnQ] in H.
    pose proof (num_pos m e). lra.
  - cbn [mpfr_sqrt]. unfold round_sqrt. cbv zeta.
    destruct (le_pow2 _ _); [reflexivity |].
    destruct (lt_pow2 _ _); [apply ge_zero_pow2 |].
    destruct (_ || _); [reflexivity |].
    apply ge_zero_mk_num, rne_sqrt_nonneg.
Qed.

(** X9: after at least two [stats_add] calls from [stats_init] (fewer
    than [2^64]) whose relative errors are finite and below [2^(emax-2)]
    in magnitude, [stats_print] reports the sample count, a variance that
    is at least +0 and a standard deviation that is at least +0; in
    particular neither is NaN. *)
Theorem report_variance_nonneg (dist gen : string) (l : list (mpfr * mpfr)) :
  (2 <= List.length l)%nat -> Z.of_nat (List.length l) < ULONG_MOD ->
  Forall (fun yr => reldiff_in_range (reldiff_of (fst yr) (snd yr)) = true) l ->
  let r := stats_print (stats_add_all (stats_init dist gen) l) in
  r_n r = Z.of_nat (List.length l)
  /\ mpfr_greaterequal_p (r_variance r) (MZero false) = true
  /\ mpfr_greaterequal_p (r_stddev r) (MZero false) = true.
Proof.
  intros H2 Hn Hl r.
  destruct (stats_add_all_inv l (stats_init dist gen) Hl ltac:(cbn; lia)
              ltac:(cbn [n stats_init]; lia) (welford_inv_init dist gen)) as [En Hi].
  destruct Hi as [_ [_ [_ [_ [_ G]]]]].
  assert (En' : n (stats_add_all (stats_init dist gen) l) = Z.of_nat (List.length l))
    by (rewrite En; reflexivity).
  unfold r, stats_print. rewrite En'.
  replace (1 <? Z.of_nat (List.length l)) with true by (symmetry; apply Z.ltb_lt; lia).
  cbn [r_n r_variance r_stddev].
  assert (GV : mpfr_greaterequal_p
                 (mpfr_div_ui MPFR_PREC (m2 (stats_add_all (stats_init dist gen) l))
                    (Z.of_nat (List.length l) - 1)) (MZero false) = true)
    by (apply div_ui_ge_zero; [lia | exact G]).
  split; [reflexivity | split; [exact GV | apply sqrt_ge_zero; exact GV]].
Qed.

Lemma report_variance_nonneg_witness :
  let l := [(MNum false 3 (-1), one); (MNum false 1 (-1), one)] in
  ((2 <= List.length l)%nat /\ Z.of_nat (List.length l) < ULONG_MOD
   /\ Forall (fun yr => reldiff_in_range (reldiff_of (fst yr) (snd yr)) = true) l)
  /\ (r_n (stats_print (stats_add_all (stats_init "all floats" "__float128") l))
      = Z.of_nat (List.length l)
      /\ mpfr_greaterequal_p
           (r_variance (stats_print (stats_add_all (stats_init "all floats" "__float128") l)))
           (MZero false) = true
      /\ mpfr_greaterequal_p
           (r_stddev (stats_print (stats_add_all (stats_init "all floats" "__float128") l)))
           (MZero false) = true).
Proof.
  intros l.
  assert (Hl : Forall (fun yr => reldiff_in_range (reldiff_of (fst yr) (snd yr)) = true) l).
  { unfold l. repeat apply Forall_cons; try apply Forall_nil; vm_compute; reflexivity. }
  split; [split; [cbn; lia | split; [vm_compute; reflexivity | exact Hl]] |].
  apply (report_variance_nonneg "all floats" "__float128" l);
    [cbn; lia | vm_compute; reflexivity | exact Hl].
Defined.






(** ** The relative error is odd *)

Lemma neg_neg (x : mpfr) : mpfr_neg (mpfr_neg x) = x.
Proof. destruct x; cbn [mpfr_neg]; rewrite ?negb_involutive; reflexivity. Qed.

Lemma round_q_opp_like (p : Z) (q q' : Q) (zs zs' : bool) :
  (q' == - q)%Q -> opp_like (round_q p q zs) (round_q p q' zs').
Proof.
  intros Hq. destruct (Qeq_dec q 0) as [H0 | H0].
  - right. rewrite (round_q_zero p zs q H0).
    rewrite (round_q_zero p zs' q') by (rewrite Hq, H0; reflexivity).
    split; reflexivity.
  - left. rewrite (round_q_compat p q' (- q) zs' Hq).
    destruct (Qlt_le_dec q 0) as [Hn | Hp].
    + rewrite (round_q_neg p q zs Hn), neg_neg.
      apply round_q_pos. lra.
    + assert (Hp' : (0 < q)%Q)
        by (apply Qle_lteq in Hp as [H | H]; [exact H | symmetry in H; contradiction]).
      rewrite (round_q_pos p q zs Hp').
      rewrite (round_q_neg p (- q) zs' ltac:(lra)).
      f_equal. apply round_pos_compat; [lra | ring].
Qed.

Lemma sub_opp_like (p : Z) (y ref : mpfr) :
  opp_like (mpfr_sub p y ref) (mpfr_sub p (mpfr_neg y) (mpfr_neg ref)).
Proof.
  unfold mpfr_sub. rewrite neg_neg.
  destruct y as [| s | s | s m e], ref as [| s' | s' | s' m' e'];
    cbn [mpfr_add mpfr_neg];
    try (left; reflexivity);
    try (destruct s, s'; cbn; first [left; reflexivity | right; split; reflexivity]);
    try (destruct s; cbn; left; reflexivity);
    try (destruct s'; cbn; left; reflexivity);
    apply round_q_opp_like; cbn [fval mpfr_neg];
    repeat match goal with b : bool |- _ => destruct b end; cbn [sgnQ negb]; ring.
Qed.

Lemma abs_neg (p : Z) (x : mpfr) : mpfr_abs p (mpfr_neg x) = mpfr_abs p x.
Proof. destruct x; reflexivity. Qed.

Lemma div_opp_like (p : Z) (a a' b : mpfr) :
  opp_like a a' -> opp_like (mpfr_div p a b) (mpfr_div p a' b).
Proof.
  intros [-> | [Za Za']].
  - destruct a as [| s | s | s m e], b as [| s' | s' | s' m' e'];
      cbn [mpfr_div mpfr_neg sign_of];
      try (left; reflexivity);
      try (destruct s, s'; cbn; first [left; reflexivity | right; split; reflexivity]).
    apply round_q_opp_like. cbn [fval mpfr_neg].
    destruct s; cbn [sgnQ negb]; unfold Qdiv; ring.
  - destruct a as [| | sa |], a' as [| | sa' |]; try discriminate.
    destruct b; cbn [mpfr_div sign_of];
      first [left; reflexivity | right; split; reflexivity].
Qed.

Lemma opp_like_val (a b : mpfr) :
  opp_like a b -> is_finite b = is_finite a /\ (fval b == - fval a)%Q.
Proof.
  intros [-> | [Za Zb]].
  - split; [destruct a; reflexivity | apply fval_neg].
  - destruct a; try discriminate. destruct b; try discriminate.
    split; reflexivity.
Qed.

(** X11: the relative difference [(y - ref) / |ref|]
    computed at the start of [stats_add] is odd in the pair: negating both
    the tested value and the reference negates it, and keeps it finite or
    not finite. *)
Theorem reldiff_odd (y ref : mpfr) :
  is_finite (reldiff_of (mpfr_neg y) (mpfr_neg ref)) = is_finite (reldiff_of y ref)
  /\ (fval (reldiff_of (mpfr_neg y) (mpfr_neg ref)) == - fval (reldiff_of y ref))%Q.
Proof.
  apply opp_like_val. unfold reldiff_of. rewrite abs_neg.
  apply div_opp_like, sub_opp_like.
Qed.
